(** * Stream checker: probing, classification and checkpointed scheduling

    A shallow embedding of [stream_checker.py] (class [StreamChecker]) and
    the properties of its probing-and-classification core.

    Python values are modelled as follows.
    - [str]: the list of its code points ([list N]); literals are written
      [lit "..."].
    - [bytes]: [list byte].
    - [int]: [Z]; list lengths and indices: [nat].
    - exceptions: a value of type [exn]; a computation that may raise
      returns a [result].
    - the object [self] and the files it writes: the record [World],
      threaded through the state-and-exception monad [M]. *)

From Stdlib Require Import ZArith NArith String Ascii Lia Bool.
From Stdlib Require Import Strings.Byte DecimalString.
From Corelib Require Import PrimFloat.
From stdpp Require Import base option list gmap.

#[local] Open Scope N_scope.

(** ** Strings and bytes *)

Abbreviation str := (list N).
Abbreviation bytes := (list byte).

Definition lit (s : string) : str := map N_of_ascii (list_ascii_of_string s).
Definition blit (s : string) : bytes := list_byte_of_string s.

#[global] Instance byte_eq_dec : EqDecision byte := fun x y =>
  match Byte.eqb x y as b return Byte.eqb x y = b -> Decision (x = y) with
  | true => fun H => left (Byte.byte_dec_bl x y H)
  | false => fun H => right (Byte.eqb_false H)
  end eq_refl.

Section Sequences.
Context {A : Type} `{EqDecision A}.

(** [s.startswith(p)] *)
Fixpoint startswith (s p : list A) : bool :=
  match p, s with
  | [], _ => true
  | _ :: _, [] => false
  | c :: p', d :: s' => bool_decide (c = d) && startswith s' p'
  end.

(** [s.endswith(p)] *)
Definition endswith (s p : list A) : bool := startswith (rev s) (rev p).

(** [p in s] for strings and bytes: [p] occurs as a contiguous run. *)
Fixpoint contains (s p : list A) : bool :=
  startswith s p ||
  match s with
  | [] => false
  | _ :: s' => contains s' p
  end.

(** [s[i:j]] for [0 <= i <= j] *)
Definition slice (i j : nat) (s : list A) : list A := take (j - i) (drop i s).

(** [x in l] for a list of values *)
Definition member (x : A) (l : list A) : bool := bool_decide (x ∈ l).

(** [s.rsplit(sep, 1)[0]]: what precedes the last [sep], or all of [s]
    when [sep] does not occur. *)
Fixpoint rsplit1_head (sep : A) (s : list A) : list A :=
  match s with
  | [] => []
  | c :: s' =>
      if member sep s' then c :: rsplit1_head sep s'
      else if bool_decide (c = sep) then [] else c :: s'
  end.
End Sequences.

(** Characters that [str.splitlines] treats as line boundaries. *)
Definition is_linebreak (c : N) : bool :=
  member c [0x0A; 0x0B; 0x0C; 0x0D; 0x1C; 0x1D; 0x1E; 0x85; 0x2028; 0x2029].

(** Characters that [str.strip] removes. *)
Definition is_space (c : N) : bool :=
  ((0x09 <=? c) && (c <=? 0x0D)) || ((0x1C <=? c) && (c <=? 0x20))
  || member c [0x85; 0xA0; 0x1680; 0x2028; 0x2029; 0x202F; 0x205F; 0x3000]
  || ((0x2000 <=? c) && (c <=? 0x200A)).

(** [s.splitlines()]: [cur] is the line being read, reversed.  A carriage
    return followed by a line feed is one boundary; no empty line is
    produced after the final boundary. *)
Fixpoint splitlines_from (cur s : str) : list str :=
  match s with
  | [] => match cur with [] => [] | _ => [rev cur] end
  | c :: rest =>
      if is_linebreak c then
        rev cur ::
          match rest with
          | d :: rest' =>
              if (c =? 0x0D) && (d =? 0x0A) then splitlines_from [] rest'
              else splitlines_from [] rest
          | [] => splitlines_from [] rest
          end
      else splitlines_from (c :: cur) rest
  end.

Definition splitlines (s : str) : list str := splitlines_from [] s.

Fixpoint lstrip (s : str) : str :=
  match s with
  | c :: s' => if is_space c then lstrip s' else s
  | [] => []
  end.

(** [s.strip()] *)
Definition strip (s : str) : str := rev (lstrip (rev (lstrip s))).

(** Truth value of a string: non-empty. *)
Definition truthy (s : str) : bool := match s with [] => false | _ => true end.

(** [str(n)] for an [int]. *)
Definition str_of_int (z : Z) : str := lit (NilZero.string_of_int (Z.to_int z)).

(** [int.from_bytes(b, byteorder='big')] *)
Definition from_bytes_big (b : bytes) : N :=
  fold_left (fun acc x => acc * 256 + Byte.to_N x) b 0.

(** *** UTF-8 decoding: [bytes.decode('utf-8')]

    [None] stands for [UnicodeDecodeError].  Overlong encodings, the
    surrogate range and code points above [0x10FFFF] are rejected. *)
Definition continuation (b : byte) : option N :=
  let n := Byte.to_N b in
  if (0x80 <=? n) && (n <=? 0xBF) then Some (n - 0x80) else None.

Definition scalar (lo : N) (cp : N) : option N :=
  if (lo <=? cp) && (cp <=? 0x10FFFF) && negb ((0xD800 <=? cp) && (cp <=? 0xDFFF))
  then Some cp else None.

Fixpoint decode_utf8 (b : bytes) : option str :=
  match b with
  | [] => Some []
  | b0 :: r0 =>
      let n0 := Byte.to_N b0 in
      if n0 <? 0x80 then cons n0 <$> decode_utf8 r0
      else if (0xC0 <=? n0) && (n0 <=? 0xDF) then
        match r0 with
        | b1 :: r1 =>
            c1 ← continuation b1;
            cp ← scalar 0x80 ((n0 - 0xC0) * 64 + c1);
            cons cp <$> decode_utf8 r1
        | _ => None
        end
      else if (0xE0 <=? n0) && (n0 <=? 0xEF) then
        match r0 with
        | b1 :: b2 :: r2 =>
            c1 ← continuation b1;
            c2 ← continuation b2;
            cp ← scalar 0x800 (((n0 - 0xE0) * 64 + c1) * 64 + c2);
            cons cp <$> decode_utf8 r2
        | _ => None
        end
      else if (0xF0 <=? n0) && (n0 <=? 0xF7) then
        match r0 with
        | b1 :: b2 :: b3 :: r3 =>
            c1 ← continuation b1;
            c2 ← continuation b2;
            c3 ← continuation b3;
            cp ← scalar 0x10000 ((((n0 - 0xF0) * 64 + c1) * 64 + c2) * 64 + c3);
            cons cp <$> decode_utf8 r3
        | _ => None
        end
      else None
  end.

(** ** Exceptions *)

(** An exception object: whether it is an [asyncio.TimeoutError], and
    [str(e)]. *)
Record exn := Exn { exn_timeout : bool; exn_str : str }.

Inductive result (A : Type) : Type :=
| Ok (a : A)
| Raise (e : exn).
Arguments Ok {A} a.
Arguments Raise {A} e.

#[global] Instance result_ret : MRet result := fun _ a => Ok a.
#[global] Instance result_bind : MBind result := fun _ _ k r =>
  match r with
  | Ok a => k a
  | Raise e => Raise e
  end.

Definition IndexError : exn := Exn false (lit "index out of range").

(** [l[i]] *)
Definition index {A} (l : list A) (i : nat) : result A :=
  match l !! i with
  | Some x => Ok x
  | None => Raise IndexError
  end.

(** ** Format validators *)

(** [StreamChecker._validate_flv] *)
Definition _validate_flv (content_bytes : bytes) : result bool :=
  if (length content_bytes <? 9)%nat then Ok false
  else if negb (startswith content_bytes (blit "FLV")) then Ok false
  else
    version ← index content_bytes 3;
    if negb (Byte.to_N version =? 1) then Ok false
    else
      flags ← index content_bytes 4;
      if negb (member (Byte.to_N flags) [1; 4; 5]) then Ok false
      else
        let header_size := from_bytes_big (slice 5 9 content_bytes) in
        if negb (header_size =? 9) then Ok false
        else Ok true.

(** ** Configuration and environment *)

(** The module-level switches read by the checker. *)
Record Config := {
  ENABLE_CHECKPOINT : bool;
  DEEP_VALIDATION : bool;
  M3U8_SEGMENTS_TO_CHECK : Z;
  VALIDATE_M3U8_CONTENT : bool;
  VALIDATE_OTHER_STREAMS : bool;
  USE_FFPROBE : bool;
  KEEP_ONLY_FINAL_FILE : bool;
  INCLUDE_AGGREGATED_SECTION : bool;
}.

Definition default_config : Config := {|
  ENABLE_CHECKPOINT := true;
  DEEP_VALIDATION := true;
  M3U8_SEGMENTS_TO_CHECK := 3;
  VALIDATE_M3U8_CONTENT := true;
  VALIDATE_OTHER_STREAMS := true;
  USE_FFPROBE := false;
  KEEP_ONLY_FINAL_FILE := true;
  INCLUDE_AGGREGATED_SECTION := false;
|}.

(** What an [aiohttp] response offers to the checker. *)
Record Response := {
  status : Z;
  content_type_header : option str;   (* headers.get('Content-Type') *)
  text : result str;                  (* await response.text() *)
  read : nat -> result bytes;         (* await response.content.read(n) *)
}.

(** What [json.loads] and the access to the streams make of ffprobe's
    standard output. *)
Inductive FfprobeJson :=
| JsonDecodeError
| JsonRaised (e : exn)
| JsonStreams (codec_types : list (option str)).

(** The course of one ffprobe subprocess. *)
Inductive FfprobeRun :=
| FfRaised (e : exn)   (* the subprocess did not start, or communicate failed *)
| FfTimedOut           (* asyncio.wait_for raised TimeoutError *)
| FfExited (returncode : Z) (stderr : str) (stdout : FfprobeJson).

(** Everything outside the program: the network, the clock, the ffprobe
    subprocess, and the library functions whose tables are not reproduced
    here. *)
Record Env := {
  str_lower : str -> str;                 (* str.lower *)
  urlparse : str -> result (str * str);   (* scheme and netloc of urlparse(url) *)
  urljoin : str -> str -> result str;
  re_search : str -> str -> bool;         (* re.search(pattern, s, re.IGNORECASE) *)
  md5_hexdigest : str -> str;             (* hashlib.md5(s.encode()).hexdigest() *)
  session_get : str -> result Response;
  session_head : str -> result Z;         (* status of the response to HEAD *)
  run_ffprobe : str -> FfprobeRun;
  elapsed : str -> float;                 (* time.time() - start_time for the probe of a URL *)
  round2 : float -> float;                (* round(x, 2) on a float *)
  splitext_root : str -> str;             (* os.path.splitext(path)[0] *)
}.

(** ** Data model *)

Inductive Status := valid | invalid | timeout | error.

(** A number as Python has it here: the literal [0] is an [int], a
    measured time is a [float]. *)
Inductive number := Int (z : Z) | Float (f : float).

(** A record handed over by the parsers: a dict with key "url" and,
    optionally, "name" and "category". *)
Record url_info := {
  ui_name : option str;
  ui_url : str;
  ui_category : option str;
}.

(** The tuple returned by [check_url]. *)
Definition outcome : Type := url_info * Status * number * option str.

(** One entry of a bucket of [self.results]. *)
Record Entry := {
  e_name : str;
  e_url : str;
  e_category : str;
  e_response_time : number;
  e_error : option str;
}.

(** [self.results]: the dict with the four keys "valid", "invalid",
    "timeout" and "error". *)
Record Results := {
  r_valid : list Entry;
  r_invalid : list Entry;
  r_timeout : list Entry;
  r_error : list Entry;
}.

Definition empty_results : Results := Build_Results [] [] [] [].

Definition bucket (st : Status) (r : Results) : list Entry :=
  match st with
  | valid => r_valid r
  | invalid => r_invalid r
  | timeout => r_timeout r
  | error => r_error r
  end.

(** [results[st].append(e)] *)
Definition append_to (st : Status) (e : Entry) (r : Results) : Results :=
  match st with
  | valid => Build_Results (r_valid r ++ [e]) (r_invalid r) (r_timeout r) (r_error r)
  | invalid => Build_Results (r_valid r) (r_invalid r ++ [e]) (r_timeout r) (r_error r)
  | timeout => Build_Results (r_valid r) (r_invalid r) (r_timeout r ++ [e]) (r_error r)
  | error => Build_Results (r_valid r) (r_invalid r) (r_timeout r) (r_error r ++ [e])
  end.

(** [sum(len(v) for v in results.values())] *)
Definition recorded (r : Results) : nat :=
  (length (r_valid r) + length (r_invalid r)
   + length (r_timeout r) + length (r_error r))%nat.

(** The attributes of [self] that the run reads and writes.  The
    semaphore, the timeout and the user agent only shape the requests and
    are part of the environment; the progress bar is display only.  The
    code tests the two paths for truth: [None] stands for a path that is
    [None] or the empty string, [Some path] for any other path. *)
Record StreamChecker := {
  concurrency : nat;
  save_interval : Z;
  checkpoint_file : option str;
  output_file : option str;
  results : Results;
  total_urls : Z;
  processed_urls : Z;
  processed_url_hashes : gset str;
  last_save_count : Z;
}.

(** [StreamChecker.__init__] *)
Definition __init__ (concurrency : nat) (save_interval : Z)
    (checkpoint_file : option str) : StreamChecker := {|
  concurrency := concurrency;
  save_interval := save_interval;
  checkpoint_file := checkpoint_file;
  output_file := None;
  results := empty_results;
  total_urls := 0;
  processed_urls := 0;
  processed_url_hashes := ∅;
  last_save_count := 0;
|}.

(** The dict pickled by [save_checkpoint]. *)
Record CheckpointData := {
  cp_processed_url_hashes : gset str;
  cp_results : Results;
  cp_total_urls : Z;
  cp_processed_urls : Z;
}.

(** A file, by the function that wrote it and the data it wrote (the
    rendering is not modelled here): a pickle of [save_checkpoint], the
    JSON document of [save_results] with the summary and the buckets, one
    of the three text lists made from the valid bucket, or a file
    [pickle.load] raises on that some other program left.  On the files
    of results too [pickle.load] is taken to raise. *)
Inductive File :=
| Unreadable
| Pickled (data : CheckpointData)                       (* pickle.dump in save_checkpoint *)
| ResultsJson (total : Z) (r : Results)                 (* json.dump in save_results *)
| ValidList (items : list Entry)                        (* _save_valid_results *)
| GroupedList (items : list Entry)                      (* _save_grouped_results *)
| FinalList (aggregated : bool) (items : list Entry).   (* _create_final_sorted_file *)

(** The files by their paths. *)
Abbreviation Disk := (gmap str File).

Definition empty_disk : Disk := ∅.

(** The file at the path of a checkpoint, if a path is set and a file is
    there. *)
Definition checkpoint_at (path : option str) (d : Disk) : option File :=
  match path with
  | Some path => d !! path
  | None => None
  end.

(** The state a run acts on.  [denied] are the paths that cannot be
    opened for writing: [open] raises on them.  [probed] is a ghost
    field: the URLs [check_url] has been called on, one entry per call,
    in the order of the calls. *)
Record World := {
  self : StreamChecker;
  disk : Disk;
  denied : gset str;
  probed : list str;
}.

(** A new process: a new checker on the files left by earlier runs, on
    a file system that lets every path be written. *)
Definition boot (concurrency : nat) (save_interval : Z)
    (checkpoint_file : option str) (d : Disk) : World :=
  {| self := __init__ concurrency save_interval checkpoint_file;
     disk := d; denied := ∅; probed := [] |}.

(** ** The monad of methods: state and exceptions *)

Definition M (A : Type) : Type := World -> result A * World.

#[global] Instance M_ret : MRet M := fun _ a w => (Ok a, w).
#[global] Instance M_bind : MBind M := fun _ _ k m w =>
  match m w with
  | (Ok a, w') => k a w'
  | (Raise e, w') => (Raise e, w')
  end.

Definition get_self : M StreamChecker := fun w => (Ok (self w), w).
Definition get_disk : M Disk := fun w => (Ok (disk w), w).
Definition get_denied : M (gset str) := fun w => (Ok (denied w), w).
Definition put_self (c : StreamChecker) : M unit :=
  fun w => (Ok tt, {| self := c; disk := disk w; denied := denied w;
                     probed := probed w |}).
Definition put_disk (d : Disk) : M unit :=
  fun w => (Ok tt, {| self := self w; disk := d; denied := denied w;
                     probed := probed w |}).
Definition log_probe (url : str) : M unit :=
  fun w => (Ok tt, {| self := self w; disk := disk w; denied := denied w;
                     probed := probed w ++ [url] |}).
Definition raise {A} (e : exn) : M A := fun w => (Raise e, w).

Definition set_output_file (c : StreamChecker) (f : option str) : StreamChecker :=
  {| concurrency := concurrency c; save_interval := save_interval c;
     checkpoint_file := checkpoint_file c; output_file := f;
     results := results c; total_urls := total_urls c;
     processed_urls := processed_urls c;
     processed_url_hashes := processed_url_hashes c;
     last_save_count := last_save_count c |}.

Definition set_total_urls (c : StreamChecker) (n : Z) : StreamChecker :=
  {| concurrency := concurrency c; save_interval := save_interval c;
     checkpoint_file := checkpoint_file c; output_file := output_file c;
     results := results c; total_urls := n;
     processed_urls := processed_urls c;
     processed_url_hashes := processed_url_hashes c;
     last_save_count := last_save_count c |}.

Definition set_processed_urls (c : StreamChecker) (n : Z) : StreamChecker :=
  {| concurrency := concurrency c; save_interval := save_interval c;
     checkpoint_file := checkpoint_file c; output_file := output_file c;
     results := results c; total_urls := total_urls c;
     processed_urls := n;
     processed_url_hashes := processed_url_hashes c;
     last_save_count := last_save_count c |}.

Definition set_last_save_count (c : StreamChecker) (n : Z) : StreamChecker :=
  {| concurrency := concurrency c; save_interval := save_interval c;
     checkpoint_file := checkpoint_file c; output_file := output_file c;
     results := results c; total_urls := total_urls c;
     processed_urls := processed_urls c;
     processed_url_hashes := processed_url_hashes c;
     last_save_count := n |}.

Definition set_recorded (c : StreamChecker) (h : gset str) (r : Results) : StreamChecker :=
  {| concurrency := concurrency c; save_interval := save_interval c;
     checkpoint_file := checkpoint_file c; output_file := output_file c;
     results := r; total_urls := total_urls c;
     processed_urls := processed_urls c;
     processed_url_hashes := h;
     last_save_count := last_save_count c |}.

Definition ZeroDivisionError : exn := Exn false (lit "integer modulo by zero").
Definition PermissionError (path : str) : exn :=
  Exn false (lit "[Errno 13] Permission denied: '" ++ path ++ lit "'").
Definition ValueError_range : exn := Exn false (lit "range() arg 3 must not be zero").

(** [a % b] on [int]: the sign follows the divisor, and a zero divisor
    raises. *)
Definition py_mod (a b : Z) : result Z :=
  if (b =? 0)%Z then Raise ZeroDivisionError else Ok (a mod b)%Z.

Definition lift {A} (r : result A) : M A := fun w => (r, w).

(** [self.stream_content_types] *)
Definition stream_content_types : list str := lit <$> [
  "application/vnd.apple.mpegurl"; "application/x-mpegurl";
  "application/octet-stream"; "video/mp2t"; "video/mp4"; "video/x-flv";
  "audio/mpegurl"; "audio/x-mpegurl"; "application/dash+xml";
  "video/x-ms-asf"; "video/x-ms-wmv"; "video/webm"; "application/x-rtsp";
  "application/x-rtmp"; "application/x-shockwave-flash";
  "flv-application/octet-stream"; "video/x-matroska" ]%string.

(** [self.stream_url_patterns] *)
Definition stream_url_patterns : list str := lit <$> [
  "\.m3u8(\?.*)?$"; "\.flv(\?.*)?$"; "\.ts(\?.*)?$"; "\.mp4(\?.*)?$";
  "\.mpd(\?.*)?$"; "\.ism(\?.*)?$"; "\.smil(\?.*)?$"; "\.f4m(\?.*)?$";
  "rtmp://"; "rtsp://"; "mms://"; "mmsh://";
  "\.php\?.*id="; "\.php\?.*key="; "\.php\?.*token="; "\.php\?.*stream=";
  "\.php\?.*channel="; "\.php\?.*live="; "\.php\?.*url=";
  "/live/"; "/play/"; "/stream/"; "/hls/"; "/dash/"; "/api/live";
  "/api/stream" ]%string.

Section Prober.
Variable env : Env.
Variable cfg : Config.

(** The chain of signatures tried for PHP endpoints and for URLs with
    no known extension; [or] stops at the first that holds. *)
Definition any_signature (content_bytes : bytes) : result bool :=
  if startswith content_bytes (blit "#EXTM3U") then Ok true
  else if startswith content_bytes [x47] then Ok true
  else if contains content_bytes (blit "ftyp") then Ok true
  else
    flv ← _validate_flv content_bytes;
    if (flv : bool) then Ok true
    else Ok (contains content_bytes (blit "<?xml")).

(** [StreamChecker._check_stream_content] *)
Definition _check_stream_content (content_bytes : bytes) (url : str) : result bool :=
  if endswith (str_lower env url) (lit ".m3u8") then
    match decode_utf8 content_bytes with
    | Some content =>
        Ok (startswith content (lit "#EXTM3U")
            || contains content (lit "#EXT-X-STREAM-INF"))
    | None => Ok false
    end
  else if endswith (str_lower env url) (lit ".ts") then
    Ok (startswith content_bytes [x47])
  else if endswith (str_lower env url) (lit ".mp4") then
    Ok (contains content_bytes (blit "ftyp"))
  else if endswith (str_lower env url) (lit ".flv") then
    _validate_flv content_bytes
  else if contains (str_lower env url) (lit ".php") then
    any_signature content_bytes
  else any_signature content_bytes.

(** ** Playlist chain resolver *)

(** [url.rsplit('/', 1)[0] if '/' in url else url] *)
Definition base_url (url : str) : str :=
  if member 0x2F url then rsplit1_head 0x2F url else url.

(** [not line.startswith('#') and line.strip()]: the line is neither a
    comment nor blank, so it refers to a segment or a variant. *)
Definition is_reference (line : str) : bool :=
  negb (startswith line (lit "#")) && truthy (strip line).

(** The loop of [_validate_media_playlist] that collects [segments]. *)
Fixpoint media_segments (url : str) (lines : list str) : result (list str) :=
  match lines with
  | [] => Ok []
  | line :: rest =>
      if is_reference line then
        segment ← (if startswith line (lit "http") then Ok (strip line)
                   else urljoin env (base_url url ++ lit "/") (strip line));
        segments ← media_segments url rest;
        Ok (segment :: segments)
      else media_segments url rest
  end.

(** The loop [for i in range(segments_to_check)] from index [i] on;
    [segments] are the entries [i], [i+1], ... still to be checked. *)
Fixpoint check_segments (i : nat) (segments : list str) : bool * option str :=
  match segments with
  | [] => (true, None)
  | segment :: rest =>
      match session_head env segment with
      | Ok st =>
          if (400 <=? st)%Z then
            (false, Some (lit "Segment " ++ str_of_int (Z.of_nat i + 1)
                          ++ lit " HTTP status: " ++ str_of_int st))
          else check_segments (S i) rest
      | Raise e =>
          (false, Some (lit "Error checking segment "
                        ++ str_of_int (Z.of_nat i + 1) ++ lit ": " ++ exn_str e))
      end
  end.

(** [StreamChecker._validate_media_playlist] *)
Definition _validate_media_playlist (url content : str) : result (bool * option str) :=
  segments ← media_segments url (splitlines content);
  match segments with
  | [] => Ok (false, Some (lit "No media segments found in playlist"))
  | _ =>
      let segments_to_check :=
        Z.min (Z.of_nat (length segments)) (M3U8_SEGMENTS_TO_CHECK cfg) in
      Ok (check_segments 0 (take (Z.to_nat segments_to_check) segments))
  end.

(** The loop of [_validate_m3u8] that collects [variant_urls]. *)
Fixpoint variant_urls (url : str) (lines : list str) : result (list str) :=
  match lines with
  | [] => Ok []
  | line :: rest =>
      if startswith line (lit "http") then
        variants ← variant_urls url rest;
        Ok (strip line :: variants)
      else if is_reference line then
        variant ← urljoin env (base_url url ++ lit "/") (strip line);
        variants ← variant_urls url rest;
        Ok (variant :: variants)
      else variant_urls url rest
  end.

(** [StreamChecker._validate_m3u8] *)
Definition _validate_m3u8 (url content : str) : result (bool * option str) :=
  if VALIDATE_M3U8_CONTENT cfg && negb (startswith content (lit "#EXTM3U")) then
    Ok (false, Some (lit "Not a valid M3U8 file (missing #EXTM3U header)"))
  else if contains content (lit "#EXT-X-STREAM-INF") then
    variants ← variant_urls url (splitlines content);
    match variants with
    | [] => Ok (false, Some (lit "No variant streams found in master playlist"))
    | variant :: _ =>
        let checked :=
          response ← session_get env variant;
          if (400 <=? status response)%Z then
            Ok (false, Some (lit "Variant stream HTTP status: "
                             ++ str_of_int (status response)))
          else
            variant_content ← text response;
            _validate_media_playlist variant variant_content in
        match checked with
        | Ok verdict => Ok verdict
        | Raise e =>
            Ok (false, Some (lit "Error checking variant stream: " ++ exn_str e))
        end
    end
  else _validate_media_playlist url content.

(** [StreamChecker._validate_with_ffprobe] *)
Definition _validate_with_ffprobe (url : str) : bool * option str :=
  match run_ffprobe env url with
  | FfRaised e => (false, Some (lit "Error using ffprobe: " ++ exn_str e))
  | FfTimedOut => (false, Some (lit "ffprobe timeout"))
  | FfExited returncode stderr stdout =>
      if negb (returncode =? 0)%Z then
        (false, Some (lit "ffprobe error: " ++ stderr))
      else
        match stdout with
        | JsonDecodeError => (false, Some (lit "Failed to parse ffprobe output"))
        | JsonRaised e => (false, Some (lit "Error using ffprobe: " ++ exn_str e))
        | JsonStreams [] => (false, Some (lit "No streams found"))
        | JsonStreams stream_types =>
            if member (Some (lit "video")) stream_types
               || member (Some (lit "audio")) stream_types
            then (true, None)
            else (false, Some (lit "No video or audio streams found"))
        end
  end.

(** ** Prober *)

(** The body of [async with session.get(...) as response]: the status
    and error message it leaves, unless it raises. *)
Definition classify_response (url : str) (is_likely_stream : bool)
    (response : Response) : result (Status * option str) :=
  if (status response <? 400)%Z then
    let content_type :=
      str_lower env (default [] (content_type_header response)) in
    if (endswith (str_lower env url) (lit ".m3u8")
        || contains content_type (lit "mpegurl")) && DEEP_VALIDATION cfg then
      content ← text response;
      validation_result ← _validate_m3u8 url content;
      if (validation_result.1 : bool) then Ok (valid, None)
      else Ok (invalid, validation_result.2)
    else if (endswith (str_lower env url) (lit ".flv")
             || contains content_type (lit "flv")) && VALIDATE_OTHER_STREAMS cfg then
      content_preview ← read response 12;
      is_flv ← _validate_flv content_preview;
      if (is_flv : bool) then Ok (valid, None)
      else Ok (invalid, Some (lit "Not a valid FLV stream"))
    else if existsb (fun stream_type => contains content_type stream_type)
              stream_content_types then
      Ok (valid, None)
    else if VALIDATE_OTHER_STREAMS cfg then
      content_preview ← read response 1024;
      looks_ok ← _check_stream_content content_preview url;
      if (looks_ok : bool) then Ok (valid, None)
      else if is_likely_stream then Ok (valid, None)
      else Ok (invalid, Some (lit "Content does not appear to be a valid stream"))
    else if is_likely_stream then Ok (valid, None)
    else Ok (invalid, Some (lit "URL does not match known stream patterns"))
  else
    Ok (invalid, Some (lit "HTTP status: " ++ str_of_int (status response))).

(** The two handlers of the inner [try] statement of [check_url]:
    [except asyncio.TimeoutError] and [except Exception as e]. *)
Definition caught (e : exn) : Status * option str :=
  if exn_timeout e then (timeout, Some (lit "Request timed out"))
  else (error, Some (exn_str e)).

(** The inner [try] statement of [check_url]. *)
Definition request (url : str) (is_likely_stream : bool) : Status * option str :=
  match response ← session_get env url;
        classify_response url is_likely_stream response with
  | Ok verdict => verdict
  | Raise e => caught e
  end.

(** The loop over [self.stream_url_patterns] at the head of
    [check_url].  It only computes a flag, which is given here where it is
    used. *)
Definition is_likely_stream (url : str) : bool :=
  existsb (fun pattern => re_search env pattern url) stream_url_patterns.

(** How control leaves the outer [try] statement of [check_url]: by one
    of its [return] statements, or by falling through to the code that
    follows it with [status] and [error_message] set. *)
Inductive Attempt :=
| Returns (o : outcome)
| FallsThrough (st : Status) (error_message : option str).

Definition attempt (info : url_info) : Attempt :=
  let url := ui_url info in
  match urlparse env url with
  | Raise e => FallsThrough error (Some (exn_str e))
  | Ok (scheme, netloc) =>
      if negb (truthy scheme) || negb (truthy netloc) then
        Returns (info, invalid, Int 0, Some (lit "Invalid URL format"))
      else
        if startswith (str_lower env url) (lit "rtmp://") && USE_FFPROBE cfg then
          let verdict := _validate_with_ffprobe url in
          Returns (info, (if verdict.1 then valid else invalid),
                   Float (elapsed env url),
                   (if verdict.1 then None else verdict.2))
        else
          let verdict := request url (is_likely_stream url) in
          FallsThrough verdict.1 verdict.2
  end.

(** The dict [checkpoint_data] of [save_checkpoint]. *)
Definition checkpoint_data (c : StreamChecker) : CheckpointData := {|
  cp_processed_url_hashes := processed_url_hashes c;
  cp_results := results c;
  cp_total_urls := total_urls c;
  cp_processed_urls := processed_urls c |}.

(** The [try] statement of [save_checkpoint], from the files [files]:
    the temporary file is written, the checkpoint file is removed if it
    is there, and the temporary file is renamed. *)
Definition replace_checkpoint (path : str) (data : CheckpointData)
    (files : Disk) : Disk :=
  let temp_file := path ++ lit ".tmp" in
  let written := <[temp_file := Pickled data]> files in
  match written !! temp_file with
  | Some content =>
      let removed :=
        if bool_decide (is_Some (written !! path)) then delete path written
        else written in
      <[path := content]> (delete temp_file removed)
  | None => written
  end.

(** [StreamChecker.save_checkpoint]: when the temporary file cannot be
    opened, the handler logs the exception and nothing is written.
    [os.remove] and [os.rename] are taken to succeed. *)
Definition save_checkpoint : M unit :=
  c ← get_self;
  match checkpoint_file c with
  | None => mret tt
  | Some path =>
      refused ← get_denied;
      if bool_decide (path ++ lit ".tmp" ∈ refused) then mret tt
      else
        d ← get_disk;
        put_disk (replace_checkpoint path (checkpoint_data c) d)
  end.

(** [with open(path, 'w') as f] and the writing of [content]: [open]
    raises on a path that cannot be written. *)
Definition write_output (path : str) (content : File) : M unit :=
  refused ← get_denied;
  if bool_decide (path ∈ refused) then raise (PermissionError path)
  else
    d ← get_disk;
    put_disk (<[path := content]> d).

(** [if os.path.exists(path): os.remove(path)] *)
Definition remove_output (path : str) : M unit :=
  d ← get_disk;
  put_disk (delete path d).

(** The three files beside the output file. *)
Definition valid_file (output_file : str) : str :=
  splitext_root env output_file ++ lit "_valid.txt".
Definition grouped_file (output_file : str) : str :=
  splitext_root env output_file ++ lit "_grouped.txt".
Definition final_file (output_file : str) : str :=
  splitext_root env output_file ++ lit "_final.txt".

(** [StreamChecker.save_results]: the four files are opened and written
    with no handler around them, so that the exception of an [open]
    leaves the method after the files written before it.  The directory
    of the output file is taken to exist, and the [os.remove] of the
    cleanup, whose handler only logs, to succeed. *)
Definition save_results (output_file : str) : M unit :=
  c ← get_self;
  write_output output_file (ResultsJson (total_urls c) (results c));;
  write_output (valid_file output_file) (ValidList (r_valid (results c)));;
  write_output (grouped_file output_file) (GroupedList (r_valid (results c)));;
  write_output (final_file output_file)
    (FinalList (INCLUDE_AGGREGATED_SECTION cfg) (r_valid (results c)));;
  if KEEP_ONLY_FINAL_FILE cfg then
    remove_output output_file;;
    remove_output (valid_file output_file);;
    remove_output (grouped_file output_file)
  else mret tt.

(** [StreamChecker.save_intermediate_results] *)
Definition save_intermediate_results : M unit :=
  c ← get_self;
  match output_file c with
  | Some output_file => save_results output_file;; save_checkpoint
  | None => mret tt
  end.

(** The statements of [check_url] after the [try] statement, up to the
    final [return]. *)
Definition update_progress : M unit :=
  c ← get_self;
  put_self (set_processed_urls c (processed_urls c + 1));;
  c ← get_self;
  remainder ← lift (py_mod (processed_urls c) (save_interval c));
  if (remainder =? 0)%Z && (last_save_count c <? processed_urls c)%Z then
    save_intermediate_results;;
    c ← get_self;
    put_self (set_last_save_count c (processed_urls c))
  else mret tt.

(** [StreamChecker.check_url] *)
Definition check_url (info : url_info) : M outcome :=
  log_probe (ui_url info);;
  match attempt info with
  | Returns o => mret o
  | FallsThrough st error_message =>
      let response_time := Float (elapsed env (ui_url info)) in
      update_progress;;
      mret (info, st, response_time, error_message)
  end.

(** ** Scheduler *)

(** [StreamChecker.url_hash] *)
Definition url_hash (url : str) : str := md5_hexdigest env url.

(** The loop "remove duplicates while preserving order" of
    [process_files], with [seen_urls] as it stands when the loop reaches
    [url_infos]. *)
Fixpoint remove_duplicates_from (seen_urls : gset str)
    (url_infos : list url_info) : list url_info :=
  match url_infos with
  | [] => []
  | info :: rest =>
      if bool_decide (ui_url info ∈ seen_urls) then
        remove_duplicates_from seen_urls rest
      else info :: remove_duplicates_from ({[ui_url info]} ∪ seen_urls) rest
  end.

Definition remove_duplicates : list url_info -> list url_info :=
  remove_duplicates_from ∅.

(** [StreamChecker.load_checkpoint] *)
Definition load_checkpoint : M bool :=
  c ← get_self;
  d ← get_disk;
  match checkpoint_at (checkpoint_file c) d with
  | Some (Pickled data) =>
      put_self {| concurrency := concurrency c;
                  save_interval := save_interval c;
                  checkpoint_file := checkpoint_file c;
                  output_file := output_file c;
                  results := cp_results data;
                  total_urls := cp_total_urls data;
                  processed_urls := cp_processed_urls data;
                  processed_url_hashes := cp_processed_url_hashes data;
                  last_save_count := last_save_count c |};;
      mret true
  | _ => mret false
  end.

(** [round(x, 2)] *)
Definition round_number (x : number) : number :=
  match x with
  | Int z => Int z
  | Float f => Float (round2 env f)
  end.

(** The entry appended for an outcome. *)
Definition entry_of (o : outcome) : Entry :=
  let '(info, _, response_time, error_message) := o in
  {| e_name := default (lit "Unknown") (ui_name info);
     e_url := ui_url info;
     e_category := default [] (ui_category info);
     e_response_time := round_number response_time;
     e_error := error_message |}.

(** One turn of the loop over [batch_results]. *)
Definition record_result (o : outcome) : M unit :=
  let '(info, st, _, _) := o in
  c ← get_self;
  put_self (set_recorded c
              ({[url_hash (ui_url info)]} ∪ processed_url_hashes c)
              (append_to st (entry_of o) (results c))).

Fixpoint record_results (batch_results : list outcome) : M unit :=
  match batch_results with
  | [] => mret tt
  | o :: rest => record_result o;; record_results rest
  end.

(** The tasks of a batch run to completion one after the other in the
    order [order] (indices into [batch]): the code of [check_url] that
    touches [self] has no suspension point, so an interleaving of the
    probes is a completion order. *)
Fixpoint run_tasks (order : list nat) (batch : list url_info)
    (finished : gmap nat outcome) : M (gmap nat outcome) :=
  match order with
  | [] => mret finished
  | i :: later =>
      match batch !! i with
      | Some info =>
          o ← check_url info;
          run_tasks later batch (<[i := o]> finished)
      | None => run_tasks later batch finished
      end
  end.

(** [await asyncio.gather] on the tasks of a batch: the results come in the order of
    the tasks, whatever the order of completion. *)
Definition gather (order : list nat) (batch : list url_info) : M (list outcome) :=
  finished ← run_tasks order batch ∅;
  mret (omap (fun i => finished !! i) (seq 0 (length batch))).

(** [range(0, n, step)] for a positive [step] *)
Definition range_step (n step : nat) : list nat :=
  (fun k => k * step)%nat <$> seq 0 ((n + step - 1) / step).

(** The batches [unique_url_infos[i:i+self.concurrency]] for [i] in
    [range(0, len(unique_url_infos), self.concurrency)]; [range] raises
    on a zero step. *)
Definition batches_of (size : nat) (url_infos : list url_info)
    : result (list (list url_info)) :=
  if (size =? 0)%nat then Raise ValueError_range
  else Ok ((fun i => slice i (i + size) url_infos)
             <$> range_step (length url_infos) size).

(** The loop over the batches, from batch number [k] on; [sched k n] is
    the order in which the [n] probes of batch [k] complete. *)
Fixpoint process_batches (sched : nat -> nat -> list nat) (k : nat)
    (batches : list (list url_info)) : M unit :=
  match batches with
  | [] => mret tt
  | batch :: rest =>
      batch_results ← gather (sched k (length batch)) batch;
      record_results batch_results;;
      save_intermediate_results;;
      process_batches sched (S k) rest
  end.

(** What [process_files] does before the loop over the batches: it
    returns, or goes on with the records still to be probed. *)
Inductive Plan :=
| Finished (r : Results)
| Drain (url_infos : list url_info).

Definition start_run (output : option str) (all_url_infos : list url_info) : M Plan :=
  c ← get_self;
  put_self (set_output_file c output);;
  let unique_url_infos := remove_duplicates all_url_infos in
  c ← get_self;
  put_self (set_total_urls c (Z.of_nat (length unique_url_infos)));;
  c ← get_self;
  if (total_urls c =? 0)%Z then mret (Finished (results c))
  else
    d ← get_disk;
    unique_url_infos ←
      (if bool_decide (is_Some (checkpoint_file c))
          && bool_decide (is_Some (checkpoint_at (checkpoint_file c) d))
          && ENABLE_CHECKPOINT cfg then
         checkpoint_loaded ← load_checkpoint;
         if (checkpoint_loaded : bool) then
           c ← get_self;
           mret (filter (fun info => url_hash (ui_url info) ∉ processed_url_hashes c)
                   unique_url_infos)
         else mret unique_url_infos
       else mret unique_url_infos);
    match unique_url_infos with
    | [] =>
        (if output is Some output_file then save_results output_file else mret tt);;
        c ← get_self;
        mret (Finished (results c))
    | _ => mret (Drain unique_url_infos)
    end.

(** What [process_files] does after the loop over the batches. *)
Definition finish_run : M Results :=
  c ← get_self;
  (if output_file c is Some output_file then save_results output_file else mret tt);;
  d ← get_disk;
  match checkpoint_file c with
  | Some path =>
      if bool_decide (is_Some (d !! path)) then put_disk (delete path d)
      else mret tt
  | None => mret tt
  end;;
  c ← get_self;
  mret (results c).

(** [StreamChecker.process_files], from the list of the records
    extracted from the files. *)
Definition process_files (sched : nat -> nat -> list nat) (output : option str)
    (all_url_infos : list url_info) : M Results :=
  plan ← start_run output all_url_infos;
  match plan with
  | Finished r => mret r
  | Drain unique_url_infos =>
      c ← get_self;
      batches ← lift (batches_of (concurrency c) unique_url_infos);
      process_batches sched 0 batches;;
      finish_run
  end.

(** A run of [process_files] that the process does not survive: it is
    killed when [k] batches have been recorded and saved. *)
Definition process_files_killed (k : nat) (sched : nat -> nat -> list nat)
    (output : option str) (all_url_infos : list url_info) : M unit :=
  plan ← start_run output all_url_infos;
  match plan with
  | Finished r => mret tt
  | Drain unique_url_infos =>
      c ← get_self;
      batches ← lift (batches_of (concurrency c) unique_url_infos);
      process_batches sched 0 (take k batches)
  end.
End Prober.

(** ** Notions used in the statements *)

(** [p] occurs in [s] as a contiguous run. *)
Definition occurs_in {A} (p s : list A) : Prop := ∃ a b, s = a ++ p ++ b.

(** The segments [_validate_media_playlist] checks. *)
Definition checked_segments (cfg : Config) (segments : list str) : list str :=
  take (Z.to_nat (Z.min (Z.of_nat (length segments)) (M3U8_SEGMENTS_TO_CHECK cfg)))
    segments.

(** The components of the tuple returned by [check_url]. *)
Definition out_info (o : outcome) : url_info := o.1.1.1.
Definition out_status (o : outcome) : Status := o.1.1.2.
Definition out_time (o : outcome) : number := o.1.2.
Definition out_error (o : outcome) : option str := o.2.

(** The tuple [check_url] returns for a record: it depends on the
    environment only. *)
Definition outcome_of (env : Env) (cfg : Config) (info : url_info) : outcome :=
  match attempt env cfg info with
  | Returns o => o
  | FallsThrough st error_message =>
      (info, st, Float (elapsed env (ui_url info)), error_message)
  end.

(** Whether [check_url] reaches the statements after its [try]
    statement for a record. *)
Definition falls_through (env : Env) (cfg : Config) (info : url_info) : bool :=
  match attempt env cfg info with
  | Returns _ => false
  | FallsThrough _ _ => true
  end.

(** The requests for a URL go through the HTTP session: the URL has a
    scheme and a host, and it is not handed to ffprobe. *)
Definition uses_session (env : Env) (cfg : Config) (url : str) : Prop :=
  (∃ scheme netloc, urlparse env url = Ok (scheme, netloc)
     ∧ scheme ≠ [] ∧ netloc ≠ [])
  ∧ startswith (str_lower env url) (lit "rtmp://") && USE_FFPROBE cfg = false.

(** Whether [check_url] takes the playlist branch for a response: the URL
    ends in ".m3u8" or the content type mentions "mpegurl", and deep
    validation is on. *)
Definition is_playlist_response (env : Env) (cfg : Config) (url : str)
    (response : Response) : bool :=
  (endswith (str_lower env url) (lit ".m3u8")
   || contains (str_lower env (default [] (content_type_header response)))
        (lit "mpegurl"))
  && DEEP_VALIDATION cfg.

(** Whether [check_url] hands a URL to ffprobe. *)
Definition uses_ffprobe (env : Env) (cfg : Config) (url : str) : Prop :=
  (∃ scheme netloc, urlparse env url = Ok (scheme, netloc)
     ∧ scheme ≠ [] ∧ netloc ≠ [])
  ∧ startswith (str_lower env url) (lit "rtmp://") && USE_FFPROBE cfg = true.

(** The files [save_results] opens for an output file. *)
Definition result_files (env : Env) (output_file : str) : list str :=
  [output_file; valid_file env output_file; grouped_file env output_file;
   final_file env output_file].

(** The results can be saved: none of the files [save_results] opens for
    the output file of the checker, if it has one, is denied. *)
Definition can_save (env : Env) (w : World) : Prop :=
  ∀ out path,
    output_file (self w) = Some out →
    path ∈ result_files env out → path ∉ denied w.

(** The files once [save_results] has written the total [total] and the
    buckets [r] for an output file. *)
Definition results_written (env : Env) (cfg : Config) (output_file : str)
    (total : Z) (r : Results) (files : Disk) : Disk :=
  let written :=
    <[final_file env output_file :=
        FinalList (INCLUDE_AGGREGATED_SECTION cfg) (r_valid r)]>
      (<[grouped_file env output_file := GroupedList (r_valid r)]>
         (<[valid_file env output_file := ValidList (r_valid r)]>
            (<[output_file := ResultsJson total r]> files))) in
  if KEEP_ONLY_FINAL_FILE cfg then
    delete (grouped_file env output_file)
      (delete (valid_file env output_file) (delete output_file written))
  else written.

(** The files once [save_checkpoint] has run for the checker [c], where
    the paths [refused] cannot be opened for writing. *)
Definition checkpoint_written (c : StreamChecker) (refused : gset str)
    (files : Disk) : Disk :=
  match checkpoint_file c with
  | Some path =>
      if bool_decide (path ++ lit ".tmp" ∈ refused) then files
      else replace_checkpoint path (checkpoint_data c) files
  | None => files
  end.

(** The files once a run of the checker [c] that drained its records
    has returned: the results are saved if the checker has an output
    file, and then the checkpoint file is removed. *)
Definition finished_disk (env : Env) (cfg : Config) (c : StreamChecker)
    (files : Disk) : Disk :=
  let written :=
    match output_file c with
    | Some output_file =>
        results_written env cfg output_file (total_urls c) (results c) files
    | None => files
    end in
  match checkpoint_file c with
  | Some path => delete path written
  | None => written
  end.

(** Whether the probe whose completion [check_url] counts next saves
    the intermediate results: the new count is a multiple of the save
    interval and is beyond the count at the last save. *)
Definition save_due (c : StreamChecker) : bool :=
  ((processed_urls c + 1) `mod` save_interval c =? 0)%Z
  && (last_save_count c <? processed_urls c + 1)%Z.

(** The state [save_intermediate_results] leaves. *)
Definition saved (env : Env) (cfg : Config) (w : World) : World :=
  (save_intermediate_results env cfg w).2.

(** The state the statements of [check_url] after its [try] statement
    leave. *)
Definition progress (env : Env) (cfg : Config) (w : World) : World :=
  (update_progress env cfg w).2.

(** The state a call of [check_url] leaves. *)
Definition probe_effect (env : Env) (cfg : Config) (info : url_info) (w : World) : World :=
  let logged := (log_probe (ui_url info) w).2 in
  if falls_through env cfg info then progress env cfg logged else logged.

(** The state left by calls of [check_url] on records, one after the
    other. *)
Definition effects (env : Env) (cfg : Config) (infos : list url_info)
    (w : World) : World :=
  foldl (fun w info => probe_effect env cfg info w) w infos.

(** The tasks of a batch in the order in which they complete. *)
Definition tasks_of (order : list nat) (batch : list url_info) : list url_info :=
  omap (fun i => batch !! i) order.

(** The results collected when the tasks have completed. *)
Definition collected (env : Env) (cfg : Config) (order : list nat)
    (batch : list url_info) (finished : gmap nat outcome) : gmap nat outcome :=
  foldl (fun m i => match batch !! i with
                    | Some info => <[i := outcome_of env cfg info]> m
                    | None => m
                    end) finished order.

(** A schedule gives every batch a completion order: for batch [k] of
    [n] probes, a permutation of the indices below [n]. *)
Definition schedule (sched : nat -> nat -> list nat) : Prop :=
  ∀ k n, sched k n ≡ₚ seq 0 n.

(** The probes complete in the order of the batch. *)
Definition in_order : nat -> nat -> list nat := fun _ n => seq 0 n.

(** The probes complete in the reverse order of the batch. *)
Definition last_first : nat -> nat -> list nat := fun _ n => rev (seq 0 n).

(** The buckets after the outcomes have been recorded. *)
Definition record_all (env : Env) (outcomes : list outcome) (r : Results) : Results :=
  foldl (fun r o => append_to (out_status o) (entry_of env o) r) r outcomes.

(** The digests of the URLs of records. *)
Definition hashes_of (env : Env) (infos : list url_info) : gset str :=
  list_to_set ((fun info => url_hash env (ui_url info)) <$> infos).

(** The number of records for which [check_url] reaches the statements
    after its [try] statement. *)
Definition counted (env : Env) (cfg : Config) (infos : list url_info) : nat :=
  length (filter (fun info => falls_through env cfg info = true) infos).

(** [w'] is what the scheduler makes of [w] by probing the records
    [infos] and recording their outcomes. *)
Record advanced (env : Env) (cfg : Config) (infos : list url_info)
    (w w' : World) : Prop := {
  adv_save_interval : save_interval (self w') = save_interval (self w);
  adv_concurrency : concurrency (self w') = concurrency (self w);
  adv_checkpoint_file : checkpoint_file (self w') = checkpoint_file (self w);
  adv_output_file : output_file (self w') = output_file (self w);
  adv_total_urls : total_urls (self w') = total_urls (self w);
  adv_processed_urls :
    processed_urls (self w')
    = (processed_urls (self w) + Z.of_nat (counted env cfg infos))%Z;
  adv_results :
    results (self w')
    = record_all env (outcome_of env cfg <$> infos) (results (self w));
  adv_hashes :
    processed_url_hashes (self w')
    = hashes_of env infos ∪ processed_url_hashes (self w);
  adv_probed : probed w' ≡ₚ probed w ++ (ui_url <$> infos);
  adv_denied : denied w' = denied w;
}.

(** The checkpoint a run starts from, if any: the checker has a
    checkpoint file, the file is there and readable, and checkpoints are
    enabled. *)
Definition resumed_from (cfg : Config) (w : World) : option CheckpointData :=
  match checkpoint_at (checkpoint_file (self w)) (disk w) with
  | Some (Pickled data) => if ENABLE_CHECKPOINT cfg then Some data else None
  | _ => None
  end.

(** The records a run hands to [check_url]. *)
Definition to_probe (env : Env) (cfg : Config) (all_url_infos : list url_info)
    (w : World) : list url_info :=
  match resumed_from cfg w with
  | Some data =>
      filter (fun info => url_hash env (ui_url info) ∉ cp_processed_url_hashes data)
        (remove_duplicates all_url_infos)
  | None => remove_duplicates all_url_infos
  end.

(** The first record of a list that bears a URL. *)
Definition first_with (url : str) (infos : list url_info) : option url_info :=
  find (fun info => bool_decide (ui_url info = url)) infos.

(** The checkpoint file holds the state of the checker. *)
Definition checkpointed (w : World) : Prop :=
  checkpoint_at (checkpoint_file (self w)) (disk w) = Some (Pickled {|
    cp_processed_url_hashes := processed_url_hashes (self w);
    cp_results := results (self w);
    cp_total_urls := total_urls (self w);
    cp_processed_urls := processed_urls (self w) |}).

(** [sum(len(v) for v in self.results.values())] equals
    [self.processed_urls]. *)
Definition counter_matches (c : StreamChecker) : Prop :=
  processed_urls c = Z.of_nat (recorded (results c)).

(** ** A scripted environment for the examples

    Library functions are given on the inputs the examples use: plain
    [http] URLs in ASCII without brackets, control characters or dot
    segments. *)
Module Script.

Definition ascii_lower (s : str) : str :=
  (fun c => if (65 <=? c) && (c <=? 90) then c + 32 else c) <$> s.

Definition is_scheme_char (c : N) : bool :=
  ((97 <=? c) && (c <=? 122)) || ((65 <=? c) && (c <=? 90))
  || ((48 <=? c) && (c <=? 57)) || member c [43; 45; 46].

Definition is_letter (c : N) : bool :=
  ((97 <=? c) && (c <=? 122)) || ((65 <=? c) && (c <=? 90)).

(** The text before the first [sep] and the text after it. *)
Fixpoint partition (sep : N) (s : str) : option (str * str) :=
  match s with
  | [] => None
  | c :: s' =>
      if c =? sep then Some ([], s')
      else '(a, b) ← partition sep s'; Some (c :: a, b)
  end.

Fixpoint until_delimiter (s : str) : str :=
  match s with
  | [] => []
  | c :: s' => if member c [47; 63; 35] then [] else c :: until_delimiter s'
  end.

(** Scheme and netloc as [urllib.parse.urlsplit] finds them. *)
Definition parse_url (url : str) : result (str * str) :=
  let '(scheme, rest) :=
    match partition 58 url with
    | Some (c :: a, b) =>
        if is_letter c && forallb is_scheme_char a then (ascii_lower (c :: a), b)
        else ([], url)
    | _ => ([], url)
    end in
  Ok (scheme, if startswith rest (lit "//") then until_delimiter (drop 2 rest) else []).

(** [urljoin] of a base ending in a slash and a reference that is an
    absolute URL or a plain relative path. *)
Definition join_url (base ref : str) : result str :=
  if contains ref (lit "://") then Ok ref else Ok (base ++ ref).

(** [re.search] for the three shapes of [stream_url_patterns], on
    strings without line breaks: an extension at the end or before a
    query, a PHP endpoint with a query key, a literal. *)
Definition search (pattern s : str) : bool :=
  let s := ascii_lower s in
  if endswith pattern (lit "(\?.*)?$") then
    let ext := drop 1 (take (length pattern - 8) pattern) in
    endswith s ext || contains s (ext ++ lit "?")
  else if startswith pattern (lit "\.php\?.*") then
    let key := drop 9 pattern in
    existsb (fun k => startswith (drop k s) (lit ".php?")
                      && contains (drop (k + 5) s) key)
      (seq 0 (length s))
  else contains s pattern.

(** The network: the responses to GET and to HEAD by URL.  A URL that
    is not listed refuses the connection. *)
Record Server := {
  get : list (str * result Response);
  head : list (str * result Z);
  ffprobe : list (str * FfprobeRun);
}.

Definition refused : exn := Exn false (lit "Cannot connect to host").

Fixpoint assoc {V} (url : str) (table : list (str * V)) : option V :=
  match table with
  | [] => None
  | (u, v) :: rest => if bool_decide (u = url) then Some v else assoc url rest
  end.

(** The digest is the URL itself: the checker only compares digests, and
    this stand-in for MD5 has no collisions.  Every probe is measured at
    a quarter of a second.  The root of a path is what precedes its last
    dot, which is what [os.path.splitext] gives for the plain file names
    of the examples. *)
Definition env (server : Server) : Env := {|
  str_lower := ascii_lower;
  urlparse := parse_url;
  urljoin := join_url;
  re_search := search;
  md5_hexdigest := fun url => url;
  session_get := fun url => default (Raise refused) (assoc url (get server));
  session_head := fun url => default (Raise refused) (assoc url (head server));
  run_ffprobe := fun url => default (FfRaised refused) (assoc url (ffprobe server));
  elapsed := fun _ => 0.25%float;
  round2 := fun x => x;
  splitext_root := rsplit1_head 0x2E;
|}.

(** A response with a status, a content type and a body. *)
Definition response (st : Z) (content_type : string) (body : string) : Response := {|
  status := st;
  content_type_header := Some (lit content_type);
  text := Ok (lit body);
  read := fun n => Ok (take n (blit body));
|}.

(** No host answers. *)
Definition offline : Server := {| get := []; head := []; ffprobe := [] |}.

Definition record (name url : string) : url_info :=
  {| ui_name := Some (lit name); ui_url := lit url; ui_category := None |}.
End Script.

(** ** Scenarios for the examples *)
Module Scenario.
Import Script.

(** [asyncio.TimeoutError()]: its text is empty. *)
Definition TimeoutError : exn := Exn true [].

Definition playlist_url : str := lit "http://a.example/live/index.m3u8".

Definition playlist_body : string := "#EXTM3U
#EXTINF:10,
s1.ts
#EXTINF:10,
s2.ts
#EXTINF:10,
s3.ts
#EXTINF:10,
s4.ts
".

Definition segment (n : string) : str :=
  lit "http://a.example/live/s" ++ lit n ++ lit ".ts".

Definition playlist : str * result Response :=
  (playlist_url, Ok (response 200 "application/vnd.apple.mpegurl" playlist_body)).

(** A media playlist of four segments, the second of which is gone. *)
Definition second_segment_missing : Server := {|
  get := [playlist];
  head := [(segment "1", Ok 200%Z); (segment "2", Ok 404%Z);
           (segment "3", Ok 200%Z); (segment "4", Ok 200%Z)];
  ffprobe := [];
|}.

(** The same playlist, with a first segment that does not answer in
    time. *)
Definition first_segment_times_out : Server := {|
  get := [playlist];
  head := [(segment "1", Raise TimeoutError); (segment "2", Ok 200%Z);
           (segment "3", Ok 200%Z); (segment "4", Ok 200%Z)];
  ffprobe := [];
|}.

(** A media playlist of one segment, which is there. *)
Definition short_playlist : Server := {|
  get := [(lit "http://x/a.m3u8",
           Ok (response 200 "application/vnd.apple.mpegurl" "#EXTM3U
#EXTINF
seg1.ts
"))];
  head := [(lit "http://x/seg1.ts", Ok 200%Z)];
  ffprobe := [];
|}.

(** Two hosts that serve MP4 video. *)
Definition two_videos : Server := {|
  get := [(lit "http://a.example/one", Ok (response 200 "video/mp4" ""));
          (lit "http://b.example/two", Ok (response 200 "video/mp4" ""))];
  head := [];
  ffprobe := [];
|}.

Definition channel : url_info := record "Channel" "http://a.example/live/index.m3u8".
Definition one : url_info := record "One" "http://a.example/one".
Definition two : url_info := record "Two" "http://b.example/two".

(** A checker that saves after every probe, as [process_files] sets it
    up for a run that writes to "out.json". *)
Definition eager : World := {|
  self := set_output_file (__init__ 200 1 (Some (lit "checkpoint.pkl")))
            (Some (lit "out.json"));
  disk := empty_disk;
  denied := ∅;
  probed := [];
|}.

(** The same checker, where the output file cannot be opened for
    writing. *)
Definition locked : World := {|
  self := self eager;
  disk := empty_disk;
  denied := {[ lit "out.json" ]};
  probed := [];
|}.

Definition out_json : str := lit "out.json".
Definition checkpoint_pkl : str := lit "checkpoint.pkl".

(** A record whose URL has neither scheme nor host. *)
Definition malformed : url_info := record "Broken" "not a url".
End Scenario.

(** ** Further notions used in the statements *)

(** All the entries of the buckets. *)
Definition entries (r : Results) : list Entry :=
  r_valid r ++ r_invalid r ++ r_timeout r ++ r_error r.

(** The checker once [load_checkpoint] has read [data]. *)
Definition restored (c : StreamChecker) (data : CheckpointData) : StreamChecker := {|
  concurrency := concurrency c;
  save_interval := save_interval c;
  checkpoint_file := checkpoint_file c;
  output_file := output_file c;
  results := cp_results data;
  total_urls := cp_total_urls data;
  processed_urls := cp_processed_urls data;
  processed_url_hashes := cp_processed_url_hashes data;
  last_save_count := last_save_count c;
|}.

(** The checker when [process_files] reaches its loop over the batches,
    or returns before it. *)
Definition started (cfg : Config) (out : option str)
    (all_url_infos : list url_info) (w : World) : StreamChecker :=
  let counted_checker :=
    set_total_urls (set_output_file (self w) out)
      (Z.of_nat (length (remove_duplicates all_url_infos))) in
  match resumed_from cfg w, remove_duplicates all_url_infos with
  | Some data, _ :: _ => restored counted_checker data
  | _, _ => counted_checker
  end.

(** ** Further scenarios for the examples *)
Module Cases.
Import Script.

(** The entry recorded for [Scenario.one] when its host serves video. *)
Definition entry_one : Entry := {|
  e_name := lit "One"; e_url := lit "http://a.example/one"; e_category := [];
  e_response_time := Float 0.25; e_error := None |}.

(** The checkpoint of a run over three URLs that was cut off when
    [Scenario.one] had been recorded. *)
Definition one_done : CheckpointData := {|
  cp_processed_url_hashes := {[ lit "http://a.example/one" ]};
  cp_results := append_to valid entry_one empty_results;
  cp_total_urls := 3;
  cp_processed_urls := 1;
|}.

Definition disk_one_done : Disk :=
  {[ Scenario.checkpoint_pkl := Pickled one_done ]}.

(** A checkpoint file that cannot be unpickled. *)
Definition disk_unreadable : Disk :=
  {[ Scenario.checkpoint_pkl := Unreadable ]}.

(** The settings with ffprobe switched on. *)
Definition with_ffprobe : Config := {|
  ENABLE_CHECKPOINT := true;
  DEEP_VALIDATION := true;
  M3U8_SEGMENTS_TO_CHECK := 3;
  VALIDATE_M3U8_CONTENT := true;
  VALIDATE_OTHER_STREAMS := true;
  USE_FFPROBE := true;
  KEEP_ONLY_FINAL_FILE := true;
  INCLUDE_AGGREGATED_SECTION := false;
|}.

Definition camera_url : str := lit "rtmp://c.example/live/cam".

Definition camera_record : url_info := record "Cam" "rtmp://c.example/live/cam".

(** An RTMP source in which ffprobe finds a video stream. *)
Definition camera : Server := {|
  get := [];
  head := [];
  ffprobe := [(camera_url, FfExited 0 [] (JsonStreams [Some (lit "video")]))];
|}.

Definition page_record : url_info := record "Page" "http://a.example/live/page".

(** A host that serves a web page under a path with /live/ in it, and
    answers 404 elsewhere. *)
Definition pages : Server := {|
  get := [(lit "http://a.example/live/page", Ok (response 200 "text/html" "<html></html>"));
          (lit "http://a.example/gone", Ok (response 404 "video/mp4" ""))];
  head := [];
  ffprobe := [];
|}.

Definition gone_record : url_info := record "Gone" "http://a.example/gone".
End Cases.

(** Whether [check_url] takes a response for an FLV stream and checks
    its header. *)
Definition is_flv_response (env : Env) (cfg : Config) (url : str)
    (response : Response) : bool :=
  (endswith (str_lower env url) (lit ".flv")
   || contains (str_lower env (default [] (content_type_header response)))
        (lit "flv"))
  && VALIDATE_OTHER_STREAMS cfg.

(** ** Extraction of the records from playlist files *)

(** [s.split(sep)[0]]: the text before the first [sep], or all of [s]. *)
Fixpoint before (sep : N) (s : str) : str :=
  match s with
  | [] => []
  | c :: s' => if c =? sep then [] else c :: before sep s'
  end.

(** [s.split(sep, 1)] when it has two parts: the text before the first
    [sep] and the text after it; [None] when [sep] does not occur and the
    list has one part. *)
Fixpoint split_once (sep : N) (s : str) : option (str * str) :=
  match s with
  | [] => None
  | c :: s' =>
      if c =? sep then Some ([], s')
      else match split_once sep s' with
           | Some (a, b) => Some (c :: a, b)
           | None => None
           end
  end.

(** The character class of [URL_PATTERN]: anything but white space, the
    two quotes and the angle brackets. *)
Definition url_char (c : N) : bool :=
  negb (is_space c) && negb (member c [0x22; 0x27; 0x3C; 0x3E]).

(** The length of the longest run of [url_char]s at the head of [s]. *)
Fixpoint span_url (s : str) : nat :=
  match s with
  | c :: s' => if url_char c then S (span_url s') else 0
  | [] => 0
  end.

(** The length of the match of [URL_PATTERN] at the head of [s], if it
    matches there: http, an optional s, a colon and two slashes, and one
    or more characters of the class, as many as there are. *)
Definition match_url (s : str) : option nat :=
  if startswith s (lit "http://") then
    match span_url (drop 7 s) with
    | O => None
    | n => Some (7 + n)%nat
    end
  else if startswith s (lit "https://") then
    match span_url (drop 8 s) with
    | O => None
    | n => Some (8 + n)%nat
    end
  else None.

(** [URL_PATTERN.findall(s)]: the matches from left to right, each search
    starting where the match before it ended; [skip] characters of the
    last match are still to be passed. *)
Fixpoint findall_from (skip : nat) (s : str) : list str :=
  match s with
  | [] => []
  | _ :: rest =>
      match skip with
      | S k => findall_from k rest
      | O =>
          match match_url s with
          | Some n => take n s :: findall_from (n - 1) rest
          | None => findall_from 0 rest
          end
      end
  end.

Definition findall (s : str) : list str := findall_from 0 s.

(** [s.replace(p, '')] for a non-empty [p]: the occurrences of [p] are
    dropped from left to right. *)
Fixpoint remove_from (skip : nat) (p s : str) : str :=
  match s with
  | [] => []
  | c :: rest =>
      match skip with
      | S k => remove_from k p rest
      | O =>
          if startswith s p then remove_from (length p - 1) p rest
          else c :: remove_from 0 p rest
      end
  end.

(** [s.replace(p, '')] *)
Definition remove (p s : str) : str :=
  match p with
  | [] => s
  | _ => remove_from 0 p s
  end.

(** [if '#' in url: url = url.split('#')[0]] *)
Definition cut_fragment (url : str) : str :=
  if member 0x23 url then before 0x23 url else url.

(** [s.startswith('http://') or s.startswith('https://')] *)
Definition starts_http (s : str) : bool :=
  startswith s (lit "http://") || startswith s (lit "https://").

(** The f-string [Stream n] with [n = len(url_infos) + 1]. *)
Definition stream_name (url_infos : list url_info) : str :=
  lit "Stream " ++ str_of_int (Z.of_nat (length url_infos) + 1).

(** Group 1 of [re.search] for the tvg-name attribute, or [None] without
    a match: the value at the first place where the attribute has a
    non-empty value that is closed by a double quote. *)
Fixpoint search_tvg_name (s : str) : option str :=
  match s with
  | [] => None
  | _ :: rest =>
      if startswith s (lit "tvg-name=" ++ [0x22]) then
        let value := before 0x22 (drop 10 s) in
        if truthy value && member 0x22 (drop 10 s) then Some value
        else search_tvg_name rest
      else search_tvg_name rest
  end.

(** [x or y] on an optional string: [None] and the empty string are
    false. *)
Definition or_else (x : option str) (y : str) : str :=
  match x with
  | Some (c :: s) => c :: s
  | _ => y
  end.

(** JSON data as [json.loads] returns it: a dict keeps its items in the
    order of the text. *)
Unset Elimination Schemes.
Inductive Json :=
| JDict (items : list (str * Json))
| JList (items : list Json)
| JStr (s : str)
| JOther.
Set Elimination Schemes.

(** [key in data] and [data[key]] on a dict. *)
Fixpoint dict_get (key : str) (items : list (str * Json)) : option Json :=
  match items with
  | [] => None
  | (k, v) :: rest => if bool_decide (k = key) then Some v else dict_get key rest
  end.

Definition name_keys : list str :=
  lit <$> ["name"; "title"; "label"; "channel"; "tvg-name"]%string.

Definition url_keys : list str :=
  lit <$> ["url"; "link"; "src"; "href"; "api"]%string.

(** The keys that are not taken for a name in the loop over the items of
    a dict. *)
Definition reserved_keys : list str :=
  lit <$> ["url"; "link"; "src"; "href"; "api"; "ext"; "jar"]%string.

(** The loop over the name keys: the stripped value of the first of them
    that is there with a string. *)
Fixpoint find_name (keys : list str) (items : list (str * Json)) : option str :=
  match keys with
  | [] => None
  | name_key :: rest =>
      match dict_get name_key items with
      | Some (JStr s) => Some (strip s)
      | _ => find_name rest items
      end
  end.

Section Parsers.
Variable env : Env.

(** ['jar' in url.lower()] *)
Definition mentions_jar (url : str) : bool :=
  contains (str_lower env url) (lit "jar").

(** The loop over the URL keys, with [url] as it stands: a link with
    jar in it is assigned to [url] before [continue] goes to the next
    key. *)
Fixpoint find_url (keys : list str) (items : list (str * Json))
    (url : option str) : option str :=
  match keys with
  | [] => url
  | url_key :: rest =>
      match dict_get url_key items with
      | Some (JStr s) =>
          if starts_http s then
            if mentions_jar s then find_url rest items (Some s)
            else Some (cut_fragment s)
          else find_url rest items url
      | _ => find_url rest items url
      end
  end.

(** What the head of [_extract_urls_from_json] appends for a dict, from
    the name and the URL it has found. *)
Definition json_pair (name url : option str) (url_infos : list url_info)
    : list url_info :=
  match url with
  | Some (c :: u) =>
      match name with
      | Some (d :: n) =>
          url_infos ++ [{| ui_name := Some (d :: n); ui_url := c :: u;
                           ui_category := None |}]
      | _ =>
          url_infos ++ [{| ui_name := Some (stream_name url_infos);
                           ui_url := c :: u; ui_category := None |}]
      end
  | _ => url_infos
  end.

(** What the loop over the items of a dict appends for an item whose
    value is a string. *)
Definition json_item (key value : str) (url_infos : list url_info)
    : list url_info :=
  if starts_http value then
    if mentions_jar value then url_infos
    else if negb (startswith key (lit "_")) && negb (member key reserved_keys) then
      url_infos ++ [{| ui_name := Some key; ui_url := cut_fragment value;
                       ui_category := None |}]
    else
      url_infos ++ [{| ui_name := Some (stream_name url_infos);
                       ui_url := cut_fragment value; ui_category := None |}]
  else url_infos.

(** The loop over the items of a dict: a string is looked at as a link,
    a dict or a list is searched by [recurse]. *)
Definition over_items (recurse : Json -> list url_info -> list url_info)
    : list (str * Json) -> list url_info -> list url_info :=
  fix loop (items : list (str * Json)) (url_infos : list url_info)
      {struct items} : list url_info :=
    match items with
    | [] => url_infos
    | (key, value) :: rest =>
        match value with
        | JStr s => loop rest (json_item key s url_infos)
        | JDict _ | JList _ => loop rest (recurse value url_infos)
        | JOther => loop rest url_infos
        end
    end.

(** The loop over the items of a list. *)
Definition over_list (recurse : Json -> list url_info -> list url_info)
    : list Json -> list url_info -> list url_info :=
  fix loop (items : list Json) (url_infos : list url_info)
      {struct items} : list url_info :=
    match items with
    | [] => url_infos
    | item :: rest => loop rest (recurse item url_infos)
    end.

(** [StreamChecker._extract_urls_from_json]: the list [url_infos] with
    what the call appends to it. *)
Fixpoint _extract_urls_from_json (data : Json) (url_infos : list url_info)
    {struct data} : list url_info :=
  match data with
  | JDict items =>
      let name := find_name name_keys items in
      let url := find_url url_keys items None in
      over_items _extract_urls_from_json items (json_pair name url url_infos)
  | JList items => over_list _extract_urls_from_json items url_infos
  | JStr _ | JOther => url_infos
  end.

(** The loop [for url in urls] of [_extract_urls_from_m3u], on the name
    pending and the list. *)
Fixpoint m3u_found (urls : list str) (state : option str * list url_info)
    : option str * list url_info :=
  match urls with
  | [] => state
  | url :: rest =>
      let name := or_else state.1 (stream_name state.2) in
      m3u_found rest
        (None, state.2 ++ [{| ui_name := Some name; ui_url := cut_fragment url;
                              ui_category := None |}])
  end.

(** One turn of the loop over the lines of [_extract_urls_from_m3u]:
    [state] is [current_name] and [url_infos]. *)
Definition m3u_line (state : option str * list url_info) (line : str)
    : option str * list url_info :=
  let line := strip line in
  if negb (truthy line) then state
  else if startswith line (lit "#EXTINF:") then
    match search_tvg_name line with
    | Some value => (Some (strip value), state.2)
    | None =>
        match split_once 0x2C line with
        | Some (_, title) => (Some (strip title), state.2)
        | None => (Some (stream_name state.2), state.2)
        end
    end
  else if starts_http line then
    let name := or_else state.1 (stream_name state.2) in
    (None, state.2 ++ [{| ui_name := Some name; ui_url := cut_fragment line;
                          ui_category := None |}])
  else m3u_found (findall line) state.

(** [StreamChecker._extract_urls_from_m3u]: the list [url_infos] with
    what the call appends to it. *)
Definition _extract_urls_from_m3u (content : str) (url_infos : list url_info)
    : list url_info :=
  (foldl m3u_line (None, url_infos) (splitlines content)).2.

(** The loop over the URLs found in the second part of a line with a
    comma. *)
Fixpoint text_found_in_part (name category : str) (urls : list str)
    (url_infos : list url_info) : list url_info :=
  match urls with
  | [] => url_infos
  | url :: rest =>
      if mentions_jar url then text_found_in_part name category rest url_infos
      else
        text_found_in_part name category rest
          (url_infos ++ [{| ui_name := Some name; ui_url := cut_fragment url;
                            ui_category := Some category |}])
  end.

(** The f-string [category Stream n] with [n = len(url_infos) + 1]. *)
Definition category_stream_name (category : str) (url_infos : list url_info) : str :=
  category ++ lit " " ++ stream_name url_infos.

(** The loop over the URLs found in a line without a comma. *)
Fixpoint text_found_in_line (line category : str) (urls : list str)
    (url_infos : list url_info) : list url_info :=
  match urls with
  | [] => url_infos
  | url :: rest =>
      if mentions_jar url then text_found_in_line line category rest url_infos
      else
        let url := cut_fragment url in
        let name :=
          if bool_decide (line ≠ url) then
            let name := strip (remove url line) in
            if truthy name then name else category_stream_name category url_infos
          else category_stream_name category url_infos in
        text_found_in_line line category rest
          (url_infos ++ [{| ui_name := Some name; ui_url := url;
                            ui_category := Some category |}])
  end.

(** One turn of the loop over the lines of [_extract_urls_from_text]:
    [state] is [current_category] and [url_infos]. *)
Definition text_line (state : str * list url_info) (line : str)
    : str * list url_info :=
  let line := strip line in
  if negb (truthy line) then state
  else if endswith line (lit ",#genre#") || endswith line (lit "#type#") then
    (strip (before 0x2C line), state.2)
  else
    match split_once 0x2C line with
    | Some (name, url_part) =>
        let name := strip name in
        let url_part := strip url_part in
        if starts_http url_part then
          if mentions_jar url_part then state
          else
            (state.1,
             state.2 ++ [{| ui_name := Some name; ui_url := cut_fragment url_part;
                            ui_category := Some state.1 |}])
        else (state.1, text_found_in_part name state.1 (findall url_part) state.2)
    | None => (state.1, text_found_in_line line state.1 (findall line) state.2)
    end.

(** [StreamChecker._extract_urls_from_text]: the list [url_infos] with
    what the call appends to it. *)
Definition _extract_urls_from_text (content : str) (url_infos : list url_info)
    (default_source : str) : list url_info :=
  (foldl text_line (default_source, url_infos) (splitlines content)).2.
End Parsers.

(** What [json.loads] makes of a text. *)
Inductive Loaded :=
| Parsed (data : Json)
| JSONDecodeError
| LoadRaised (e : exn).

(** The file system and the libraries [extract_urls_from_file] uses. *)
Record Files := {
  read_text : str -> option str;     (* the text of a file; None when open raises *)
  json_loads : str -> Loaded;
  basename : str -> str;             (* os.path.basename *)
  cc_convert : str -> str;           (* OpenCC('t2s').convert *)
  CONVERT_TO_SIMPLIFIED : bool;
  HAS_OPENCC : bool;
}.

Section Reader.
Variable env : Env.
Variable fs : Files.

(** The body of the [try] statement of [extract_urls_from_file]: what it
    has appended to [url_infos] when it is left. *)
Definition read_records (file_path : str) : list url_info :=
  match read_text fs file_path with
  | None => []
  | Some content =>
      if endswith file_path (lit ".json") then
        match json_loads fs content with
        | Parsed data => _extract_urls_from_json env data []
        | JSONDecodeError =>
            _extract_urls_from_text env content [] (basename fs file_path)
        | LoadRaised _ => []
        end
      else if endswith file_path (lit ".m3u") || endswith file_path (lit ".m3u8") then
        _extract_urls_from_m3u content []
      else _extract_urls_from_text env content [] (basename fs file_path)
  end.

(** One turn of the loop that cuts the URLs at '#' and converts names and
    categories. *)
Definition tidy (info : url_info) : url_info :=
  let url :=
    if member 0x23 (ui_url info) && startswith (ui_url info) (lit "http")
    then before 0x23 (ui_url info) else ui_url info in
  if CONVERT_TO_SIMPLIFIED fs && HAS_OPENCC fs then
    {| ui_name := cc_convert fs <$> ui_name info;
       ui_url := url;
       ui_category := (fun category => if truthy category then cc_convert fs category
                                       else category) <$> ui_category info |}
  else {| ui_name := ui_name info; ui_url := url; ui_category := ui_category info |}.

(** [StreamChecker.extract_urls_from_file] *)
Definition extract_urls_from_file (file_path : str) : list url_info :=
  remove_duplicates (tidy <$> read_records file_path).
End Reader.

(** [l'] is [l] with records appended that all satisfy [P]. *)
Definition appended (P : url_info -> Prop) (l l' : list url_info) : Prop :=
  ∃ added, l' = l ++ added ∧ Forall P added.

(** The record has a name and a URL that starts with http:// or
    https://. *)
Definition listed (info : url_info) : Prop :=
  starts_http (ui_url info) = true ∧ is_Some (ui_name info).

(** A record as [_extract_urls_from_m3u] makes them: a name that is not
    empty, a URL that starts with http:// or https:// and has no '#' in
    it, no category. *)
Definition m3u_record (info : url_info) : Prop :=
  starts_http (ui_url info) = true
  ∧ (0x23 ∉ ui_url info)
  ∧ (∃ name, ui_name info = Some name ∧ name ≠ [])
  ∧ ui_category info = None.

(** A record as [_extract_urls_from_text] makes them: a name, a URL that
    starts with http:// or https:// and has no '#' in it, a category. *)
Definition text_record (info : url_info) : Prop :=
  starts_http (ui_url info) = true
  ∧ (0x23 ∉ ui_url info)
  ∧ is_Some (ui_name info)
  ∧ is_Some (ui_category info).

(** ** The lists of channels the checker writes *)

(** The f-string of a channel line: name, comma, URL, line feed. *)
Definition channel_line (name url : str) : str :=
  name ++ lit "," ++ url ++ [0x0A].

(** The f-string for the name of the item at index [i] of a name that has
    several: the name, a space and [i + 1]. *)
Definition numbered (name : str) (i : nat) : str :=
  name ++ lit " " ++ str_of_int (Z.of_nat i + 1).

(** What the loops of [_save_valid_results] and of
    [_create_final_sorted_file] write for a name and its items: one line
    when there is one item, numbered lines otherwise. *)
Definition write_items (name : str) (items : list Entry) : str :=
  match items with
  | [item] => channel_line name (e_url item)
  | _ => concat (imap (fun i item => channel_line (numbered name i) (e_url item)) items)
  end.

(** The loop over the names of a category, in the order in which they
    are visited. *)
Definition write_names (names : list (str * list Entry)) : str :=
  concat ((fun entry => write_items entry.1 entry.2) <$> names).

(** What is written for a category: the genre line when the category is
    not empty, the lines of its names, and an empty line when the
    category is not empty. *)
Definition write_category (category : str) (names : list (str * list Entry)) : str :=
  (if truthy category then category ++ lit ",#genre#" ++ [0x0A] else [])
  ++ write_names names
  ++ (if truthy category then [0x0A] else []).

(** The loop over the categories, in the order in which they are
    visited. *)
Definition write_categories (categories : list (str * list (str * list Entry))) : str :=
  concat ((fun entry => write_category entry.1 entry.2) <$> categories).

(** The string is empty or its first character is not white space. *)
Definition edge (s : str) : bool :=
  match s with
  | c :: _ => negb (is_space c)
  | [] => true
  end.

(** A name or a category that a line of the list can carry: not empty,
    without a comma or a line boundary, without white space at either
    end. *)
Definition plain (s : str) : bool :=
  truthy s && negb (member 0x2C s)
  && forallb (fun c => negb (is_linebreak c)) s
  && edge s && edge (rev s).

(** A URL that a line of the list can carry: it starts with http:// or
    https://, has no '#' and no line boundary in it, does not end in
    white space and does not mention jar. *)
Definition plain_link (env : Env) (url : str) : bool :=
  starts_http url && negb (member 0x23 url)
  && forallb (fun c => negb (is_linebreak c)) url
  && edge (rev url) && negb (mentions_jar env url).

(** Every category, name and URL can be carried by a line. *)
Definition readable (env : Env)
    (categories : list (str * list (str * list Entry))) : bool :=
  forallb (fun category =>
             plain category.1
             && forallb (fun name =>
                           plain name.1
                           && forallb (fun item => plain_link env (e_url item)) name.2)
                  category.2) categories.

(** The records that stand for the lines written for a name. *)
Definition listed_as (category name : str) (items : list Entry) : list url_info :=
  match items with
  | [item] =>
      [{| ui_name := Some name; ui_url := e_url item; ui_category := Some category |}]
  | _ =>
      imap (fun i item => {| ui_name := Some (numbered name i);
                             ui_url := e_url item;
                             ui_category := Some category |}) items
  end.

(** The records that stand for the lines written for the categories. *)
Definition read_back (categories : list (str * list (str * list Entry)))
    : list url_info :=
  categories ≫= fun category =>
    category.2 ≫= fun name => listed_as category.1 name.1 name.2.

(** Reading [text] takes the loop of [_extract_urls_from_text] from the
    state [st] to the state [st'], whatever follows [text]. *)
Definition reads (env : Env) (text : str) (st st' : str * list url_info) : Prop :=
  ∀ rest,
    foldl (text_line env) st (splitlines (text ++ rest))
    = foldl (text_line env) st' (splitlines rest).

(** ** Scenarios for the lists of channels *)
Module Guide.

Definition item (name url category : string) : Entry := {|
  e_name := lit name; e_url := lit url; e_category := lit category;
  e_response_time := Float 0.25; e_error := None |}.

(** Two categories; the second name of the second has two links. *)
Definition categories : list (str * list (str * list Entry)) :=
  [(lit "Movies", [(lit "Film", [item "Film" "http://b.example/4" "Movies"])]);
   (lit "News",
    [(lit "CCTV1", [item "CCTV1" "http://a.example/1" "News"]);
     (lit "CCTV2", [item "CCTV2" "https://a.example/3" "News";
                    item "CCTV2" "http://a.example/2" "News"])])].

(** An EXTINF line with a tvg-name attribute and a title. *)
Definition extinf : str :=
  lit "#EXTINF:-1 tvg-name=" ++ [0x22] ++ lit "One" ++ [0x22] ++ lit ",Title 1".
End Guide.

(** * Properties *)

(** ** The model on small inputs *)

Example splitlines_boundaries :
  splitlines (lit "a" ++ [13; 10] ++ lit "b" ++ [13] ++ lit "c" ++ [10; 10] ++ lit "d" ++ [10])
  = [lit "a"; lit "b"; lit "c"; []; lit "d"].
Proof. reflexivity. Qed.

Example strip_both_ends : strip (lit "  seg1.ts " ++ [9; 10]) = lit "seg1.ts".
Proof. reflexivity. Qed.

Example decode_utf8_samples :
  decode_utf8 [xe2; x82; xac] = Some [0x20AC]
  ∧ decode_utf8 [xc0; x80] = None
  ∧ decode_utf8 [xed; xa0; x80] = None
  ∧ decode_utf8 [xf4; x90; x80; x80] = None.
Proof. by vm_compute. Qed.

Example rsplit_last_slash :
  rsplit1_head 47 (lit "http://a/b/c.m3u8") = lit "http://a/b"
  ∧ rsplit1_head 47 (lit "abc") = lit "abc".
Proof. by vm_compute. Qed.

Example str_of_int_samples :
  str_of_int 404 = lit "404" ∧ str_of_int 0 = lit "0" ∧ str_of_int (-7) = lit "-7".
Proof. by vm_compute. Qed.

Lemma append_to_bucket st e r : bucket st (append_to st e r) = bucket st r ++ [e].
Proof. by destruct st. Qed.

Lemma append_to_other st st' e r :
  st ≠ st' → bucket st' (append_to st e r) = bucket st' r.
Proof. by destruct st, st'. Qed.

(** A playlist with one segment that is there is classified valid, with
    a measured response time. *)
Example playlist_end_to_end :
  (process_files (Script.env Scenario.short_playlist) default_config in_order
     (Some Scenario.out_json) [Script.record "A" "http://x/a.m3u8"]
     (boot 200 100 (Some Scenario.checkpoint_pkl) empty_disk)).1
  = Ok {| r_valid := [{| e_name := lit "A"; e_url := lit "http://x/a.m3u8";
                         e_category := []; e_response_time := Float 0.25;
                         e_error := None |}];
          r_invalid := []; r_timeout := []; r_error := [] |}.
Proof. by vm_compute. Qed.

(** ** Sequences *)

Section SequenceFacts.
Context {A : Type} `{EqDecision A}.
Implicit Types s p : list A.

Lemma startswith_prefix s p : startswith s p = true ↔ p `prefix_of` s.
Proof.
  revert s. induction p as [|c p IH]; intros s.
  - split; [intros _; apply prefix_nil | by destruct s].
  - destruct s as [|d s]; simpl.
    + split; [done | intros Hp; by apply prefix_nil_not in Hp].
    + rewrite andb_true_iff, bool_decide_eq_true, IH. split.
      * intros [-> Hp]. by apply prefix_cons.
      * intros Hp. split; [by apply prefix_cons_inv_1 in Hp | by apply prefix_cons_inv_2 in Hp].
Qed.

Lemma startswith_take s p : startswith s p = true ↔ take (length p) s = p.
Proof.
  rewrite startswith_prefix. split.
  - intros [k ->]. by rewrite take_app_length.
  - intros <-. apply prefix_take.
Qed.

Lemma contains_occurs s p : contains s p = true ↔ occurs_in p s.
Proof.
  induction s as [|d s IH]; cbn -[startswith].
  - rewrite orb_false_r, startswith_prefix. split.
    + intros [k ->]. by exists [], k.
    + intros (a & b & Hs). destruct a; simpl in Hs; [by exists b | done].
  - rewrite orb_true_iff, IH, startswith_prefix. split.
    + intros [[k Hk] | (a & b & ->)].
      * by exists [], k.
      * by exists (d :: a), b.
    + intros (a & b & Hs). destruct a as [|a0 a]; simpl in Hs.
      * left. by exists b.
      * right. injection Hs as -> ->. by exists a, b.
Qed.
End SequenceFacts.

(** ** Format validators *)

Lemma byte_to_N_one (x : byte) : Byte.to_N x = 1 ↔ x = x01.
Proof.
  split; [|by intros ->].
  intros Hx. apply (f_equal Byte.of_N) in Hx.
  rewrite Byte.of_to_N in Hx. by injection Hx.
Qed.

(** C6.  [_validate_flv] never raises; it answers [True] exactly for the
    inputs whose first three bytes are "FLV", whose byte 3 is 1, whose
    byte 4 is 1, 4 or 5 and whose bytes 5 to 8 are the big-endian 32-bit
    integer 9; it answers [False] on every input shorter than 9 bytes. *)
Theorem validate_flv_spec (b : bytes) :
  (_validate_flv b = Ok true ↔
     take 3 b = blit "FLV"
     ∧ (∃ version, b !! 3%nat = Some version ∧ Byte.to_N version = 1)
     ∧ (∃ flags, b !! 4%nat = Some flags ∧ Byte.to_N flags ∈ [1; 4; 5])
     ∧ length (slice 5 9 b) = 4%nat ∧ from_bytes_big (slice 5 9 b) = 9)
  ∧ ((length b < 9)%nat → _validate_flv b = Ok false)
  ∧ (∃ r, _validate_flv b = Ok r).
Proof.
  unfold _validate_flv.
  destruct (length b <? 9)%nat eqn:Hlen.
  - apply Nat.ltb_lt in Hlen. split; [|by eauto].
    split; [done|]. intros (_ & _ & _ & Hs & _).
    unfold slice in Hs. rewrite length_take, length_drop in Hs. lia.
  - apply Nat.ltb_ge in Hlen.
    destruct b as [|b0 [|b1 [|b2 [|b3 [|b4 rest]]]]]; simpl in Hlen; try lia.
    assert (length (slice 5 9 (b0 :: b1 :: b2 :: b3 :: b4 :: rest)) = 4%nat) as Hs.
    { unfold slice. rewrite length_take, length_drop. simpl length. simpl in Hlen. lia. }
    split; [|split; [simpl; intros; lia|]].
    + destruct (startswith _ (blit "FLV")) eqn:Hsig; simpl.
      2:{ split; [done|]. intros (Ht & _).
          match type of Hsig with startswith ?s _ = _ =>
            by rewrite (proj2 (startswith_take s (blit "FLV")) Ht) in Hsig end. }
      apply startswith_take in Hsig.
      destruct (Byte.to_N b3 =? 1) eqn:Hv; simpl.
      2:{ split; [done|]. intros (_ & (v & Hv' & Hv1) & _).
          injection Hv' as <-. apply N.eqb_neq in Hv. done. }
      apply N.eqb_eq in Hv.
      unfold member. case_bool_decide as Hf; simpl.
      2:{ split; [done|]. intros (_ & _ & (f & Hf' & Hf1) & _).
          injection Hf' as <-. done. }
      destruct (from_bytes_big _ =? 9) eqn:Hh; simpl.
      * apply N.eqb_eq in Hh. split; [|done]. intros _.
        repeat split; eauto.
      * apply N.eqb_neq in Hh. split; [done|]. intros (_ & _ & _ & _ & ?). done.
    + destruct (startswith _ (blit "FLV")); simpl; [|by eauto].
      destruct (Byte.to_N b3 =? 1); simpl; [|by eauto].
      destruct (member _ _); simpl; [|by eauto].
      destruct (from_bytes_big _ =? 9); simpl; by eauto.
Qed.

Lemma validate_flv_spec_witness :
  _validate_flv (blit "FLV" ++ [x01; x05; x00; x00; x00; x09; x00; x00; x00]) = Ok true
  ∧ _validate_flv (blit "FLV" ++ [x01; x05; x00; x00; x00]) = Ok false.
Proof.
  split.
  - apply (validate_flv_spec (blit "FLV" ++ [x01; x05; x00; x00; x00; x09; x00; x00; x00])).
    split; [reflexivity|]. split; [by exists x01|].
    split.
    { exists x05. split; [reflexivity|].
      vm_compute. apply list_elem_of_further, list_elem_of_further, list_elem_of_here. }
    split; reflexivity.
  - apply (validate_flv_spec (blit "FLV" ++ [x01; x05; x00; x00; x00])).
    vm_compute. lia.
Defined.

(** C5, as it holds.  For a URL ending in ".m3u8" the content check never
    raises, and it answers [True] exactly when the sample decodes as UTF-8
    to a text that starts with "#EXTM3U" or in which "#EXT-X-STREAM-INF"
    occurs. *)
Theorem check_stream_content_m3u8 (env : Env) (content_bytes : bytes) (url : str) :
  endswith (str_lower env url) (lit ".m3u8") = true →
  (_check_stream_content env content_bytes url = Ok true ↔
     ∃ content, decode_utf8 content_bytes = Some content
       ∧ (lit "#EXTM3U" `prefix_of` content
          ∨ occurs_in (lit "#EXT-X-STREAM-INF") content))
  ∧ (∃ r, _check_stream_content env content_bytes url = Ok r).
Proof.
  intros Hurl. unfold _check_stream_content. rewrite Hurl.
  destruct (decode_utf8 content_bytes) as [content|]; [|split; [|by eauto]].
  - split; [|by eauto]. split.
    + intros [= Hc]. exists content. split; [done|].
      apply orb_true_iff in Hc as [Hc | Hc].
      * left. by apply startswith_prefix.
      * right. by apply contains_occurs.
    + intros (content' & [= <-] & Hc). f_equal. apply orb_true_iff.
      destruct Hc as [Hc | Hc].
      * left. by apply startswith_prefix.
      * right. by apply contains_occurs.
  - split; [done|]. by intros (content & ? & _).
Qed.

Lemma check_stream_content_m3u8_witness :
  _check_stream_content (Script.env Script.offline)
    (blit "#EXTM3U") (lit "http://a.example/live.m3u8") = Ok true.
Proof.
  apply (check_stream_content_m3u8 (Script.env Script.offline)); [reflexivity|].
  exists (lit "#EXTM3U"). split; [reflexivity|]. left. by exists [].
Defined.

(** C5, as stated, fails: a sample that does not start with "#EXTM3U" is
    accepted when "#EXT-X-STREAM-INF" occurs in it. *)
Lemma check_stream_content_without_header :
  let content_bytes := blit "#EXT-X-STREAM-INF:BANDWIDTH=800000" in
  let content := lit "#EXT-X-STREAM-INF:BANDWIDTH=800000" in
  decode_utf8 content_bytes = Some content
  ∧ startswith content (lit "#EXTM3U") = false
  ∧ _check_stream_content (Script.env Script.offline) content_bytes
      (lit "http://a.example/live.m3u8") = Ok true.
Proof. vm_compute. done. Qed.

(** ** Playlist chain resolver *)

Section ResolverFacts.
Variable env : Env.
Variable cfg : Config.

Lemma media_segments_none url lines :
  Forall (fun line => is_reference line = false) lines →
  media_segments env url lines = Ok [].
Proof. induction 1 as [|line lines Hl _ IH]; simpl; [done|]. by rewrite Hl. Qed.

Lemma check_segments_fails segments : ∀ i k segment st,
  segments !! k = Some segment →
  session_head env segment = Ok st →
  (400 <= st)%Z →
  (∀ j earlier, (j < k)%nat → segments !! j = Some earlier →
     ∃ st', session_head env earlier = Ok st' ∧ (st' < 400)%Z) →
  check_segments env i segments =
    (false, Some (lit "Segment " ++ str_of_int (Z.of_nat (i + k) + 1)
                  ++ lit " HTTP status: " ++ str_of_int st)).
Proof.
  induction segments as [|s segments IH]; intros i k segment st Hk Hst Hge Hearlier;
    [done|].
  destruct k as [|k]; simpl in *.
  - injection Hk as ->. rewrite Hst.
    destruct (Z.leb_spec 400 st); [|lia]. by rewrite Nat.add_0_r.
  - destruct (Hearlier 0%nat s) as (st' & -> & Hlt); [lia|done|].
    destruct (Z.leb_spec 400 st'); [lia|].
    rewrite (IH (S i) k segment st); auto.
    + by replace (S i + k)%nat with (i + S k)%nat by lia.
    + intros j earlier Hj. apply (Hearlier (S j)). lia.
Qed.

Lemma check_segments_pass segments : ∀ i,
  (∀ segment, segment ∈ segments →
     ∃ st, session_head env segment = Ok st ∧ (st < 400)%Z) →
  check_segments env i segments = (true, None).
Proof.
  induction segments as [|s segments IH]; intros i Hall; simpl; [done|].
  destruct (Hall s) as (st & -> & Hlt); [by left|].
  destruct (Z.leb_spec 400 st); [lia|].
  apply IH. intros segment Hin. apply Hall. by right.
Qed.

Lemma validate_media_playlist_checks url content segments :
  media_segments env url (splitlines content) = Ok segments →
  segments ≠ [] →
  _validate_media_playlist env cfg url content =
    Ok (check_segments env 0 (checked_segments cfg segments)).
Proof.
  intros Hs Hne. unfold _validate_media_playlist. rewrite Hs. simpl.
  by destruct segments.
Qed.
End ResolverFacts.

(** C7.  The bound on checked segments is 3 unless configured.  A body
    with no line that is neither a comment nor blank fails with "No media
    segments found in playlist".  Otherwise, the [n] references being
    resolved, the first [min(n, K)] segments are checked in listed order: when one of them answers with a status of
    400 or more and those before it answered with a smaller status, the
    playlist fails with "Segment i HTTP status: s" for its 1-based index
    [i] and its status [s]; when all of them answer with a status below
    400, the playlist is valid.  With [K = 3], four segments and 404 for
    the second, the detail contains "Segment 2" and the probe is
    classified invalid. *)
Theorem validate_media_playlist_spec (env : Env) (cfg : Config) (url content : str) :
  M3U8_SEGMENTS_TO_CHECK default_config = 3%Z
  ∧ (Forall (fun line => is_reference line = false) (splitlines content) →
     _validate_media_playlist env cfg url content =
       Ok (false, Some (lit "No media segments found in playlist")))
  ∧ (∀ segments, media_segments env url (splitlines content) = Ok segments →
     segments ≠ [] →
     length (checked_segments cfg segments)
       = Z.to_nat (Z.min (Z.of_nat (length segments)) (M3U8_SEGMENTS_TO_CHECK cfg))
     ∧ checked_segments cfg segments `prefix_of` segments
     ∧ (∀ k segment st,
          checked_segments cfg segments !! k = Some segment →
          session_head env segment = Ok st →
          (400 <= st)%Z →
          (∀ j earlier, (j < k)%nat →
             checked_segments cfg segments !! j = Some earlier →
             ∃ st', session_head env earlier = Ok st' ∧ (st' < 400)%Z) →
          _validate_media_playlist env cfg url content =
            Ok (false, Some (lit "Segment " ++ str_of_int (Z.of_nat k + 1)
                             ++ lit " HTTP status: " ++ str_of_int st)))
     ∧ ((∀ segment, segment ∈ checked_segments cfg segments →
           ∃ st, session_head env segment = Ok st ∧ (st < 400)%Z) →
        _validate_media_playlist env cfg url content = Ok (true, None)))
  ∧ (∀ S1 S2 S3 S4 st1,
       media_segments env url (splitlines content) = Ok [S1; S2; S3; S4] →
       session_head env S1 = Ok st1 → (st1 < 400)%Z →
       session_head env S2 = Ok 404%Z →
       ∃ detail,
         _validate_media_playlist env default_config url content = Ok (false, Some detail)
         ∧ contains detail (lit "Segment 2") = true
         ∧ ∀ response likely,
             (status response < 400)%Z →
             endswith (str_lower env url) (lit ".m3u8") = true →
             text response = Ok content →
             startswith content (lit "#EXTM3U") = true →
             contains content (lit "#EXT-X-STREAM-INF") = false →
             classify_response env default_config url likely response
               = Ok (invalid, Some detail)).
Proof.
  split; [done|]. split; [|split].
  - intros Hnone. unfold _validate_media_playlist.
    by rewrite media_segments_none.
  - intros segments Hs Hne. split; [|split; [|split]].
    + unfold checked_segments. rewrite length_take. lia.
    + apply prefix_take.
    + intros k segment st Hk Hst Hge Hearlier.
      rewrite (validate_media_playlist_checks env cfg url content segments Hs Hne).
      f_equal. by apply (check_segments_fails env _ 0 k segment st).
    + intros Hall.
      rewrite (validate_media_playlist_checks env cfg url content segments Hs Hne).
      f_equal. by apply check_segments_pass.
  - intros S1 S2 S3 S4 st1 Hs H1 Hlt H2.
    exists (lit "Segment 2 HTTP status: 404").
    assert (_validate_media_playlist env default_config url content
            = Ok (false, Some (lit "Segment 2 HTTP status: 404"))) as Hv.
    { rewrite (validate_media_playlist_checks env default_config url content _ Hs);
        [|done].
      f_equal.
      apply (check_segments_fails env _ 0 1 S2 404%Z); [done|done|lia|].
      intros [|j] earlier Hj; [|lia]. intros [= <-]. eauto. }
    split; [done|]. split; [by vm_compute|].
    intros response likely Hstatus Hurl Htext Hhead Hmaster.
    unfold classify_response.
    destruct (Z.ltb_spec (status response) 400); [|lia].
    rewrite Hurl, Htext. simpl.
    unfold _validate_m3u8. rewrite Hhead, Hmaster. simpl.
    by rewrite Hv.
Qed.

Lemma validate_media_playlist_spec_witness :
  _validate_media_playlist (Script.env Scenario.second_segment_missing)
    default_config Scenario.playlist_url (lit Scenario.playlist_body)
  = Ok (false, Some (lit "Segment 2 HTTP status: 404")).
Proof.
  destruct (validate_media_playlist_spec
              (Script.env Scenario.second_segment_missing) default_config
              Scenario.playlist_url (lit Scenario.playlist_body))
    as (_ & _ & Hchecked & _).
  destruct (Hchecked (Scenario.segment <$> ["1"; "2"; "3"; "4"]%string))
    as (_ & _ & Hfails & _); [by vm_compute | done |].
  apply (Hfails 1%nat (Scenario.segment "2") 404%Z);
    [by vm_compute | by vm_compute | lia |].
  intros [|j] earlier Hj; [|lia]. intros [= <-].
  exists 200%Z. split; [by vm_compute | lia].
Defined.

(** ** Prober *)

Ltac run_M :=
  repeat (unfold mbind, mret, M_bind, M_ret, get_self, get_disk, get_denied,
            put_self, put_disk, log_probe, lift, raise; simpl).

Section ProberFacts.
Variable env : Env.
Variable cfg : Config.

Lemma write_output_ok path content w :
  path ∉ denied w →
  write_output path content w
  = (Ok tt, {| self := self w; disk := <[path := content]> (disk w);
               denied := denied w; probed := probed w |}).
Proof.
  intros Hp. unfold write_output. run_M. by rewrite bool_decide_false.
Qed.

(** Whatever becomes of it, [save_results] touches the disk only. *)
Lemma save_results_frame out w :
  self (save_results env cfg out w).2 = self w
  ∧ probed (save_results env cfg out w).2 = probed w
  ∧ denied (save_results env cfg out w).2 = denied w.
Proof.
  unfold save_results, write_output, remove_output. run_M.
  repeat (case_bool_decide; run_M; [done|]).
  by destruct (KEEP_ONLY_FINAL_FILE cfg).
Qed.

Lemma save_results_ok out w :
  (∀ path, path ∈ result_files env out → path ∉ denied w) →
  save_results env cfg out w
  = (Ok tt, {| self := self w;
               disk := results_written env cfg out (total_urls (self w))
                         (results (self w)) (disk w);
               denied := denied w; probed := probed w |}).
Proof.
  intros Hfree. unfold save_results, results_written, remove_output. run_M.
  rewrite write_output_ok by (apply Hfree; set_solver). run_M.
  rewrite write_output_ok by (apply Hfree; set_solver). run_M.
  rewrite write_output_ok by (apply Hfree; set_solver). run_M.
  rewrite write_output_ok by (apply Hfree; set_solver). run_M.
  by destruct (KEEP_ONLY_FINAL_FILE cfg).
Qed.

Lemma save_results_raises out w path :
  path ∈ result_files env out → path ∈ denied w →
  ∃ e w', save_results env cfg out w = (Raise e, w').
Proof.
  intros Hin Hden. unfold save_results, write_output, remove_output. run_M.
  repeat (case_bool_decide; run_M; [by eauto|]).
  exfalso. unfold result_files in Hin.
  repeat (apply elem_of_cons in Hin as [->|Hin]; [done|]).
  by apply elem_of_nil in Hin.
Qed.

(** [save_results] leaves the other files alone. *)
Lemma results_written_other (out : str) (total : Z) (r : Results) (files : Disk) (path : str) :
  path ∉ result_files env out →
  results_written env cfg out total r files !! path = files !! path.
Proof.
  intros Hp. unfold result_files in Hp.
  apply not_elem_of_cons in Hp as [H1 Hp]. apply not_elem_of_cons in Hp as [H2 Hp].
  apply not_elem_of_cons in Hp as [H3 Hp]. apply not_elem_of_cons in Hp as [H4 _].
  unfold results_written. cbv zeta. destruct (KEEP_ONLY_FINAL_FILE cfg).
  - rewrite !lookup_delete_ne by done. by rewrite !lookup_insert_ne.
  - by rewrite !lookup_insert_ne.
Qed.

(** The final list is there when [save_results] returns. *)
Lemma results_written_final (out : str) (total : Z) (r : Results) (files : Disk) :
  final_file env out ∉ [out; valid_file env out; grouped_file env out] →
  results_written env cfg out total r files !! final_file env out
  = Some (FinalList (INCLUDE_AGGREGATED_SECTION cfg) (r_valid r)).
Proof.
  intros Hp.
  apply not_elem_of_cons in Hp as [H1 Hp]. apply not_elem_of_cons in Hp as [H2 Hp].
  apply not_elem_of_cons in Hp as [H3 _].
  unfold results_written. cbv zeta. destruct (KEEP_ONLY_FINAL_FILE cfg).
  - rewrite !lookup_delete_ne by done. apply lookup_insert_eq.
  - apply lookup_insert_eq.
Qed.

(** With [KEEP_ONLY_FINAL_FILE] the JSON document, the valid list and
    the grouped list are gone when [save_results] returns. *)
Lemma results_written_removed (out : str) (total : Z) (r : Results) (files : Disk) (path : str) :
  KEEP_ONLY_FINAL_FILE cfg = true →
  path ∈ [out; valid_file env out; grouped_file env out] →
  results_written env cfg out total r files !! path = None.
Proof.
  intros Hkeep Hp. unfold results_written. cbv zeta. rewrite Hkeep.
  apply elem_of_cons in Hp as [->|Hp].
  { destruct (decide (out = grouped_file env out)) as [<-|];
      [apply lookup_delete_eq|rewrite lookup_delete_ne by done].
    destruct (decide (out = valid_file env out)) as [<-|];
      [apply lookup_delete_eq|rewrite lookup_delete_ne by done].
    apply lookup_delete_eq. }
  apply elem_of_cons in Hp as [->|Hp].
  { destruct (decide (valid_file env out = grouped_file env out)) as [<-|];
      [apply lookup_delete_eq|rewrite lookup_delete_ne by done].
    apply lookup_delete_eq. }
  apply elem_of_cons in Hp as [->|Hp]; [apply lookup_delete_eq|].
  by apply elem_of_nil in Hp.
Qed.

(** Without [KEEP_ONLY_FINAL_FILE] the JSON document is there when
    [save_results] returns. *)
Lemma results_written_json (out : str) (total : Z) (r : Results) (files : Disk) :
  KEEP_ONLY_FINAL_FILE cfg = false →
  out ∉ [valid_file env out; grouped_file env out; final_file env out] →
  results_written env cfg out total r files !! out = Some (ResultsJson total r).
Proof.
  intros Hkeep Hp.
  apply not_elem_of_cons in Hp as [H1 Hp]. apply not_elem_of_cons in Hp as [H2 Hp].
  apply not_elem_of_cons in Hp as [H3 _].
  unfold results_written. cbv zeta. rewrite Hkeep.
  rewrite !lookup_insert_ne by done. apply lookup_insert_eq.
Qed.

Lemma temp_file_other (path : str) : path ++ lit ".tmp" ≠ path.
Proof.
  intros Heq. apply (f_equal length) in Heq. rewrite length_app in Heq.
  simpl in Heq. lia.
Qed.

Lemma replace_checkpoint_lookup (path : str) (data : CheckpointData) (files : Disk) :
  replace_checkpoint path data files !! path = Some (Pickled data).
Proof.
  unfold replace_checkpoint. rewrite lookup_insert_eq. apply lookup_insert_eq.
Qed.

(** The temporary file is gone when the checkpoint has been replaced. *)
Lemma replace_checkpoint_temp (path : str) (data : CheckpointData) (files : Disk) :
  replace_checkpoint path data files !! (path ++ lit ".tmp") = None.
Proof.
  unfold replace_checkpoint. rewrite lookup_insert_eq.
  rewrite lookup_insert_ne by (symmetry; apply temp_file_other).
  apply lookup_delete_eq.
Qed.

Lemma replace_checkpoint_other (path : str) (data : CheckpointData) (files : Disk) (path' : str) :
  path' ≠ path → path' ≠ path ++ lit ".tmp" →
  replace_checkpoint path data files !! path' = files !! path'.
Proof.
  intros H1 H2. unfold replace_checkpoint. rewrite lookup_insert_eq.
  rewrite lookup_insert_ne, lookup_delete_ne by done.
  case_bool_decide; rewrite ?lookup_delete_ne by done; by rewrite lookup_insert_ne.
Qed.

(** [save_checkpoint] never raises. *)
Lemma save_checkpoint_run w :
  save_checkpoint w
  = (Ok tt, {| self := self w;
               disk := checkpoint_written (self w) (denied w) (disk w);
               denied := denied w; probed := probed w |}).
Proof.
  unfold save_checkpoint, checkpoint_written. run_M.
  destruct (checkpoint_file (self w)) as [path|]; [|by destruct w].
  case_bool_decide; run_M; [by destruct w|done].
Qed.

(** The checkpoint file after [save_checkpoint]: the pickle of the state,
    unless the temporary file cannot be written. *)
Lemma checkpoint_written_lookup (c : StreamChecker) (refused : gset str) (files : Disk) (path : str) :
  checkpoint_file c = Some path →
  path ++ lit ".tmp" ∉ refused →
  checkpoint_written c refused files !! path = Some (Pickled (checkpoint_data c)).
Proof.
  intros Hck Htmp. unfold checkpoint_written. rewrite Hck.
  rewrite bool_decide_false by done. apply replace_checkpoint_lookup.
Qed.

Lemma save_intermediate_results_ok w :
  can_save env w →
  save_intermediate_results env cfg w = (Ok tt, saved env cfg w).
Proof.
  intros Hsave. unfold saved, save_intermediate_results. run_M.
  destruct (output_file (self w)) as [out|] eqn:Hout; [|done]. run_M.
  rewrite save_results_ok by (intros path; by apply Hsave). simpl.
  by rewrite save_checkpoint_run.
Qed.

Lemma saved_frame w :
  self (saved env cfg w) = self w
  ∧ probed (saved env cfg w) = probed w
  ∧ denied (saved env cfg w) = denied w.
Proof.
  unfold saved, save_intermediate_results. run_M.
  destruct (output_file (self w)) as [out|]; [|done]. run_M.
  destruct (save_results_frame out w) as (Hs & Hp & Hd).
  destruct (save_results env cfg out w) as [[[]|e] w1]; simpl in *; [|done].
  by rewrite save_checkpoint_run.
Qed.

Lemma saved_self w : self (saved env cfg w) = self w.
Proof. apply saved_frame. Qed.

Lemma saved_probed w : probed (saved env cfg w) = probed w.
Proof. apply saved_frame. Qed.

Lemma saved_denied w : denied (saved env cfg w) = denied w.
Proof. apply saved_frame. Qed.

(** What a save leaves on the disk. *)
Lemma saved_disk w out :
  can_save env w →
  output_file (self w) = Some out →
  disk (saved env cfg w)
  = checkpoint_written (self w) (denied w)
      (results_written env cfg out (total_urls (self w)) (results (self w)) (disk w)).
Proof.
  intros Hsave Hout. unfold saved, save_intermediate_results. run_M.
  rewrite Hout. run_M.
  rewrite save_results_ok by (intros path; by apply Hsave). simpl.
  by rewrite save_checkpoint_run.
Qed.

Lemma saved_checkpoint w :
  can_save env w →
  is_Some (output_file (self w)) →
  (∀ path, checkpoint_file (self w) = Some path → path ++ lit ".tmp" ∉ denied w) →
  is_Some (checkpoint_file (self w)) →
  checkpoint_at (checkpoint_file (self w)) (disk (saved env cfg w))
  = Some (Pickled (checkpoint_data (self w))).
Proof.
  intros Hsave [out Hout] Htmp [ck Hck].
  rewrite (saved_disk w out Hsave Hout), Hck. simpl.
  apply checkpoint_written_lookup; [done|]. by apply Htmp.
Qed.

Lemma saved_no_output w : output_file (self w) = None → saved env cfg w = w.
Proof.
  intros Hout. unfold saved, save_intermediate_results. run_M. by rewrite Hout.
Qed.

(** Whether the statements after the [try] statement save, for the
    counter as [check_url] finds it. *)
Lemma update_progress_ok w :
  save_interval (self w) ≠ 0%Z →
  can_save env w →
  update_progress env cfg w = (Ok tt, progress env cfg w).
Proof.
  intros Hi Hsave. unfold progress, update_progress, py_mod. run_M.
  destruct (Z.eqb_spec (save_interval (self w)) 0); [done|]. simpl.
  destruct (_ && _); [|done].
  by rewrite save_intermediate_results_ok.
Qed.

(** What the statements after the [try] statement change in [self]: the
    counter of processed URLs and the count at the last save. *)
Lemma progress_self w :
  ∃ n, self (progress env cfg w)
       = set_last_save_count
           (set_processed_urls (self w) (processed_urls (self w) + 1)) n.
Proof.
  unfold progress, update_progress, py_mod. run_M.
  destruct (Z.eqb_spec (save_interval (self w)) 0); simpl.
  - exists (last_save_count (self w)). by destruct (self w).
  - destruct (_ && _).
    + match goal with |- context [save_intermediate_results env cfg ?w1] =>
        pose proof (saved_self w1) as Hs; unfold saved in Hs;
        destruct (save_intermediate_results env cfg w1) as [[[]|e] w2] end;
        simpl in *; rewrite Hs; simpl.
      * eauto.
      * exists (last_save_count (self w)). by destruct (self w).
    + exists (last_save_count (self w)). by destruct (self w).
Qed.

Lemma progress_probed w : probed (progress env cfg w) = probed w.
Proof.
  unfold progress, update_progress, py_mod. run_M.
  destruct (Z.eqb_spec (save_interval (self w)) 0); simpl; [done|].
  destruct (_ && _); [|done].
  match goal with |- context [save_intermediate_results env cfg ?w1] =>
    pose proof (saved_probed w1) as Hs; unfold saved in Hs;
    destruct (save_intermediate_results env cfg w1) as [[[]|e] w2] end;
    simpl in *; by rewrite Hs.
Qed.

Lemma progress_denied w : denied (progress env cfg w) = denied w.
Proof.
  unfold progress, update_progress, py_mod. run_M.
  destruct (Z.eqb_spec (save_interval (self w)) 0); simpl; [done|].
  destruct (_ && _); [|done].
  match goal with |- context [save_intermediate_results env cfg ?w1] =>
    pose proof (saved_denied w1) as Hs; unfold saved in Hs;
    destruct (save_intermediate_results env cfg w1) as [[[]|e] w2] end;
    simpl in *; by rewrite Hs.
Qed.

(** The world when [check_url] has counted the probe. *)
Lemma progress_disk w :
  save_interval (self w) ≠ 0%Z →
  disk (progress env cfg w)
  = if save_due (self w) then
      disk (saved env cfg
              {| self := set_processed_urls (self w) (processed_urls (self w) + 1);
                 disk := disk w; denied := denied w; probed := probed w |})
    else disk w.
Proof.
  intros Hi. unfold progress, update_progress, py_mod, save_due, saved. run_M.
  destruct (Z.eqb_spec (save_interval (self w)) 0); [done|]. simpl.
  destruct (_ && _); [|done].
  match goal with |- context [save_intermediate_results env cfg ?w1] =>
    destruct (save_intermediate_results env cfg w1) as [[[]|e] w2] end; done.
Qed.

Lemma check_url_run info w :
  save_interval (self w) ≠ 0%Z →
  can_save env w →
  check_url env cfg info w
  = (Ok (outcome_of env cfg info), probe_effect env cfg info w).
Proof.
  intros Hi Hsave. unfold check_url, outcome_of, probe_effect, falls_through. run_M.
  destruct (attempt env cfg info); [done|].
  by rewrite update_progress_ok.
Qed.

Lemma attempt_malformed info scheme netloc :
  urlparse env (ui_url info) = Ok (scheme, netloc) →
  scheme = [] ∨ netloc = [] →
  attempt env cfg info
  = Returns (info, invalid, Int 0, Some (lit "Invalid URL format")).
Proof.
  intros Hp Hempty. unfold attempt. rewrite Hp.
  by destruct Hempty as [-> | ->]; [|destruct scheme].
Qed.

Lemma attempt_session info :
  uses_session env cfg (ui_url info) →
  attempt env cfg info
  = FallsThrough (request env cfg (ui_url info) (is_likely_stream env (ui_url info))).1
                 (request env cfg (ui_url info) (is_likely_stream env (ui_url info))).2.
Proof.
  intros [(scheme & netloc & Hp & Hs & Hn) Hrtmp]. unfold attempt.
  rewrite Hp, Hrtmp. by destruct scheme, netloc.
Qed.

Lemma outcome_of_session info :
  uses_session env cfg (ui_url info) →
  out_status (outcome_of env cfg info)
    = (request env cfg (ui_url info) (is_likely_stream env (ui_url info))).1
  ∧ out_error (outcome_of env cfg info)
    = (request env cfg (ui_url info) (is_likely_stream env (ui_url info))).2.
Proof. intros Hs. unfold outcome_of. by rewrite attempt_session. Qed.

Lemma attempt_ffprobe info :
  uses_ffprobe env cfg (ui_url info) →
  attempt env cfg info
  = Returns (info,
             (if (_validate_with_ffprobe env (ui_url info)).1 then valid else invalid),
             Float (elapsed env (ui_url info)),
             (if (_validate_with_ffprobe env (ui_url info)).1 then None
              else (_validate_with_ffprobe env (ui_url info)).2)).
Proof.
  intros [(scheme & netloc & Hp & Hs & Hn) Hrtmp]. unfold attempt.
  rewrite Hp, Hrtmp. by destruct scheme, netloc.
Qed.

Lemma request_get_raises url likely e :
  session_get env url = Raise e →
  request env cfg url likely = caught e.
Proof. intros Hg. unfold request. by rewrite Hg. Qed.

Lemma request_classified url likely response :
  session_get env url = Ok response →
  request env cfg url likely
  = match classify_response env cfg url likely response with
    | Ok verdict => verdict
    | Raise e => caught e
    end.
Proof. intros Hg. unfold request. by rewrite Hg. Qed.

Lemma classify_response_playlist url likely response :
  (status response < 400)%Z →
  is_playlist_response env cfg url response = true →
  classify_response env cfg url likely response
  = match text response with
    | Ok content =>
        match _validate_m3u8 env cfg url content with
        | Ok verdict =>
            Ok (if verdict.1 then (valid, None) else (invalid, verdict.2))
        | Raise e => Raise e
        end
    | Raise e => Raise e
    end.
Proof.
  intros Hst Hpl. unfold classify_response.
  destruct (Z.ltb_spec (status response) 400); [|lia].
  unfold is_playlist_response in Hpl. rewrite Hpl.
  destruct (text response) as [content|]; [|done]. simpl.
  destruct (_validate_m3u8 env cfg url content) as [[[] ?]|]; done.
Qed.

Lemma check_segments_raises segments : ∀ i k segment e,
  segments !! k = Some segment →
  session_head env segment = Raise e →
  (∀ j earlier, (j < k)%nat → segments !! j = Some earlier →
     ∃ st', session_head env earlier = Ok st' ∧ (st' < 400)%Z) →
  check_segments env i segments =
    (false, Some (lit "Error checking segment "
                  ++ str_of_int (Z.of_nat (i + k) + 1) ++ lit ": " ++ exn_str e)).
Proof.
  induction segments as [|s segments IH]; intros i k segment e Hk He Hearlier;
    [done|].
  destruct k as [|k]; simpl in *.
  - injection Hk as ->. rewrite He. by rewrite Nat.add_0_r.
  - destruct (Hearlier 0%nat s) as (st' & -> & Hlt); [lia|done|].
    destruct (Z.leb_spec 400 st'); [lia|].
    rewrite (IH (S i) k segment e); auto.
    + by replace (S i + k)%nat with (i + S k)%nat by lia.
    + intros j earlier Hj. apply (Hearlier (S j)). lia.
Qed.

Lemma falls_through_session info :
  uses_session env cfg (ui_url info) → falls_through env cfg info = true.
Proof. intros Hs. unfold falls_through. by rewrite attempt_session. Qed.

Lemma falls_through_malformed info scheme netloc :
  urlparse env (ui_url info) = Ok (scheme, netloc) →
  scheme = [] ∨ netloc = [] →
  falls_through env cfg info = false.
Proof.
  intros Hp Hempty. unfold falls_through.
  by rewrite (attempt_malformed info scheme netloc Hp Hempty).
Qed.

Lemma outcome_of_info info : out_info (outcome_of env cfg info) = info.
Proof.
  unfold outcome_of, attempt.
  destruct (urlparse env (ui_url info)) as [[scheme netloc]|]; [|done].
  destruct (negb _ || negb _); [done|].
  by destruct (_ && _).
Qed.
End ProberFacts.

(** C10.  A record whose URL has no scheme or no host is answered with
    the integer 0 as elapsed time, not with a measured time, and the entry
    recorded for it carries the response time 0. *)
Theorem malformed_url_time_zero (env : Env) (cfg : Config) (info : url_info)
    (scheme netloc : str) (w : World) :
  urlparse env (ui_url info) = Ok (scheme, netloc) →
  scheme = [] ∨ netloc = [] →
  ∃ o w1 w2 e,
    check_url env cfg info w = (Ok o, w1)
    ∧ o = (info, invalid, Int 0, Some (lit "Invalid URL format"))
    ∧ record_result env o w1 = (Ok tt, w2)
    ∧ r_invalid (results (self w2)) = r_invalid (results (self w1)) ++ [e]
    ∧ e_url e = ui_url info
    ∧ e_response_time e = Int 0.
Proof.
  intros Hp Hempty.
  eexists _, _, _, _. split; [|split; [reflexivity|]].
  - unfold check_url. rewrite (attempt_malformed env cfg info scheme netloc Hp Hempty).
    run_M. reflexivity.
  - unfold record_result. run_M. done.
Qed.

Lemma malformed_url_time_zero_witness :
  ∃ w1, check_url (Script.env Script.offline) default_config Scenario.malformed
          (boot 200 100 None empty_disk)
        = (Ok (Scenario.malformed, invalid, Int 0, Some (lit "Invalid URL format")), w1).
Proof.
  destruct (malformed_url_time_zero (Script.env Script.offline) default_config
              Scenario.malformed [] [] (boot 200 100 None empty_disk))
    as (o & w1 & w2 & e & Hrun & -> & _); [by vm_compute | by left |].
  by exists w1.
Defined.

(** C3, as it holds.  In [check_url] itself a timeout of the initial GET
    or of reading the playlist text is classified [timeout] with "Request
    timed out", and any other exception there is classified [error] with
    its message.  The validators catch what is raised further down: an
    exception of the variant fetch or of a segment HEAD check, timeouts
    included, and a timeout of ffprobe become a negative verdict with an
    error text, and a negative verdict is classified [invalid] with that
    text as detail. *)
Theorem timeouts_and_exceptions (env : Env) (cfg : Config) (info : url_info) :
  let url := ui_url info in
  let o := outcome_of env cfg info in
  (uses_session env cfg url →
     (∀ e, session_get env url = Raise e →
        (out_status o, out_error o) = caught e)
     ∧ (∀ response e,
          session_get env url = Ok response →
          (status response < 400)%Z →
          is_playlist_response env cfg url response = true →
          text response = Raise e →
          (out_status o, out_error o) = caught e)
     ∧ (∀ response content detail,
          session_get env url = Ok response →
          (status response < 400)%Z →
          is_playlist_response env cfg url response = true →
          text response = Ok content →
          _validate_m3u8 env cfg url content = Ok (false, detail) →
          (out_status o, out_error o) = (invalid, detail)))
  ∧ (∀ e, caught e
          = if exn_timeout e then (timeout, Some (lit "Request timed out"))
            else (error, Some (exn_str e)))
  ∧ (∀ playlist content variant others e,
       (VALIDATE_M3U8_CONTENT cfg = true → startswith content (lit "#EXTM3U") = true) →
       contains content (lit "#EXT-X-STREAM-INF") = true →
       variant_urls env playlist (splitlines content) = Ok (variant :: others) →
       session_get env variant = Raise e →
       _validate_m3u8 env cfg playlist content
       = Ok (false, Some (lit "Error checking variant stream: " ++ exn_str e)))
  ∧ (∀ playlist content segments k segment e,
       media_segments env playlist (splitlines content) = Ok segments →
       checked_segments cfg segments !! k = Some segment →
       session_head env segment = Raise e →
       (∀ j earlier, (j < k)%nat →
          checked_segments cfg segments !! j = Some earlier →
          ∃ st', session_head env earlier = Ok st' ∧ (st' < 400)%Z) →
       _validate_media_playlist env cfg playlist content
       = Ok (false, Some (lit "Error checking segment "
                          ++ str_of_int (Z.of_nat k + 1) ++ lit ": " ++ exn_str e)))
  ∧ (uses_ffprobe env cfg url →
     run_ffprobe env url = FfTimedOut →
     (out_status o, out_error o) = (invalid, Some (lit "ffprobe timeout"))).
Proof.
  intros url o. split; [|split; [|split; [|split]]].
  - intros Hs. destruct (outcome_of_session env cfg info Hs) as [Hst Herr].
    fold o in Hst, Herr. fold url in Hst, Herr. rewrite Hst, Herr.
    rewrite <- surjective_pairing. split; [|split].
    + intros e Hg. by apply request_get_raises.
    + intros response e Hg Hlt Hpl Ht.
      rewrite (request_classified env cfg url _ response Hg).
      by rewrite classify_response_playlist, Ht.
    + intros response content detail Hg Hlt Hpl Ht Hv.
      rewrite (request_classified env cfg url _ response Hg).
      by rewrite classify_response_playlist, Ht, Hv.
  - done.
  - intros playlist content variant others e Hhead Hmaster Hv Hg.
    unfold _validate_m3u8. rewrite Hmaster, Hv. simpl. rewrite Hg. simpl.
    destruct (VALIDATE_M3U8_CONTENT cfg); [|done].
    by rewrite Hhead.
  - intros playlist content segments k segment e Hs Hk He Hearlier.
    rewrite (validate_media_playlist_checks env cfg playlist content segments Hs).
    + f_equal. by apply (check_segments_raises env _ 0 k segment e).
    + intros ->. unfold checked_segments in Hk. by rewrite take_nil in Hk.
  - intros Hf Hrun. unfold o, outcome_of. rewrite (attempt_ffprobe env cfg info Hf).
    unfold out_status, out_error, _validate_with_ffprobe. fold url. by rewrite Hrun.
Qed.

Lemma timeouts_and_exceptions_witness :
  _validate_media_playlist (Script.env Scenario.first_segment_times_out)
    default_config Scenario.playlist_url (lit Scenario.playlist_body)
  = Ok (false, Some (lit "Error checking segment 1: ")).
Proof.
  destruct (timeouts_and_exceptions
              (Script.env Scenario.first_segment_times_out) default_config
              Scenario.channel)
    as (_ & _ & _ & Hsegment & _).
  apply (Hsegment Scenario.playlist_url (lit Scenario.playlist_body)
           (Scenario.segment <$> ["1"; "2"; "3"; "4"]%string) 0%nat
           (Scenario.segment "1") Scenario.TimeoutError);
    [by vm_compute | by vm_compute | by vm_compute |].
  intros j earlier Hj. lia.
Defined.

(** C3, as stated, fails: the HEAD check of the first segment of a media
    playlist times out, and the probe is classified [invalid]. *)
Lemma segment_timeout_is_invalid :
  let env := Script.env Scenario.first_segment_times_out in
  session_head env (Scenario.segment "1") = Raise Scenario.TimeoutError
  ∧ exn_timeout Scenario.TimeoutError = true
  ∧ (check_url env default_config Scenario.channel
       (boot 200 100 None empty_disk)).1
    = Ok (Scenario.channel, invalid, Float 0.25,
          Some (lit "Error checking segment 1: ")).
Proof. by vm_compute. Qed.

(** C4, as it holds.  With a save interval other than zero and result
    files that can be written, [check_url] returns and leaves the
    buckets, the set of seen identities and the total as they are.  It
    does touch the run state: unless it returns early it adds one to the
    counter of processed URLs, and when that count is a multiple of the
    save interval beyond the last save and the checker has an output
    file, it writes the files of results and then the checkpoint, so that
    the checkpoint file, if the checker has one whose temporary file can
    be written, holds the state with the new count.  It writes nothing
    when it returns early, when no save is due or when the checker has no
    output file.  The buckets and the seen identities are updated by the
    scheduler's loop over the batch results, which leaves the counter and
    the disk alone. *)
Theorem check_url_frame (env : Env) (cfg : Config) (info : url_info) (w : World) :
  save_interval (self w) ≠ 0%Z →
  can_save env w →
  ∃ o w',
    check_url env cfg info w = (Ok o, w')
    ∧ results (self w') = results (self w)
    ∧ processed_url_hashes (self w') = processed_url_hashes (self w)
    ∧ total_urls (self w') = total_urls (self w)
    ∧ processed_urls (self w')
      = (processed_urls (self w) + if falls_through env cfg info then 1 else 0)%Z
    ∧ (falls_through env cfg info = false ∨ save_due (self w) = false
       ∨ output_file (self w) = None →
       disk w' = disk w)
    ∧ (∀ out, falls_through env cfg info = true →
         save_due (self w) = true →
         output_file (self w) = Some out →
         disk w'
         = checkpoint_written
             (set_processed_urls (self w) (processed_urls (self w) + 1)) (denied w)
             (results_written env cfg out (total_urls (self w)) (results (self w))
                (disk w))
         ∧ (∀ path, checkpoint_file (self w) = Some path →
              path ++ lit ".tmp" ∉ denied w →
              disk w' !! path
              = Some (Pickled {|
                  cp_processed_url_hashes := processed_url_hashes (self w);
                  cp_results := results (self w);
                  cp_total_urls := total_urls (self w);
                  cp_processed_urls := processed_urls (self w) + 1 |})))
    ∧ ∃ w'', record_result env o w' = (Ok tt, w'')
        ∧ recorded (results (self w'')) = S (recorded (results (self w')))
        ∧ url_hash env (ui_url info) ∈ processed_url_hashes (self w'')
        ∧ processed_urls (self w'') = processed_urls (self w')
        ∧ disk w'' = disk w'.
Proof.
  intros Hi Hsave. eexists _, _. split; [by apply check_url_run|].
  unfold probe_effect. simpl.
  set (logged := {| self := self w; disk := disk w; denied := denied w;
                    probed := probed w ++ [ui_url info] |}).
  set (counted_world :=
         {| self := set_processed_urls (self w) (processed_urls (self w) + 1);
            disk := disk w; denied := denied w;
            probed := probed w ++ [ui_url info] |}).
  assert (can_save env counted_world) as Hsave' by exact Hsave.
  destruct (falls_through env cfg info) eqn:Hft.
  - destruct (progress_self env cfg logged) as [n Hself].
    pose proof (progress_disk env cfg logged Hi) as Hdisk.
    change (self logged) with (self w) in Hself, Hdisk.
    change (disk logged) with (disk w) in Hdisk.
    change (denied logged) with (denied w) in Hdisk.
    change (probed logged) with (probed w ++ [ui_url info]) in Hdisk.
    fold counted_world in Hdisk.
    rewrite Hself. simpl.
    split; [done|]. split; [done|]. split; [done|]. split; [done|].
    split; [|split].
    + intros [?|[Hdue|Hout]]; [done| |]; rewrite Hdisk.
      * by rewrite Hdue.
      * destruct (save_due (self w)); [|done].
        by rewrite (saved_no_output env cfg counted_world Hout).
    + intros out _ Hdue Hout. rewrite Hdisk, Hdue.
      rewrite (saved_disk env cfg counted_world out Hsave' Hout).
      split; [done|]. intros path Hck Htmp.
      by apply (checkpoint_written_lookup
                  (set_processed_urls (self w) (processed_urls (self w) + 1))).
    + pose proof (outcome_of_info env cfg info) as Hinfo.
      destruct (outcome_of env cfg info) as [[[info' st] response_time] msg].
      unfold out_info in Hinfo. simpl in Hinfo. subst info'.
      eexists. split; [unfold record_result; run_M; reflexivity|]. simpl.
      rewrite Hself. simpl.
      split; [|split; [set_solver|done]].
      destruct st; unfold recorded; simpl; rewrite length_app; simpl; lia.
  - split; [done|]. split; [done|]. split; [done|].
    split; [by rewrite Z.add_0_r|]. split; [done|]. split; [done|].
    pose proof (outcome_of_info env cfg info) as Hinfo.
    destruct (outcome_of env cfg info) as [[[info' st] response_time] msg].
    unfold out_info in Hinfo. simpl in Hinfo. subst info'.
    eexists. split; [unfold record_result; run_M; reflexivity|]. simpl.
    split; [|split; [set_solver|done]].
    destruct st; unfold recorded; simpl; rewrite length_app; simpl; lia.
Qed.

Lemma check_url_frame_witness :
  ∃ o w', check_url (Script.env Scenario.two_videos) default_config Scenario.one
            Scenario.eager = (Ok o, w')
          ∧ results (self w') = results (self Scenario.eager).
Proof.
  pose proof (check_url_frame (Script.env Scenario.two_videos) default_config
                Scenario.one Scenario.eager) as H.
  destruct H as (o & w' & Hrun & Hres & _).
  - by vm_compute.
  - intros out path _ _ Hden. by apply elem_of_empty in Hden.
  - by exists o, w'.
Defined.

(** C4, as stated, fails: one call of [check_url] moves the counter of
    processed URLs from 0 to 1 and, with a save interval of 1 and the
    output file out.json, writes the final list and the checkpoint. *)
Lemma check_url_counts_and_saves :
  let w' := (check_url (Script.env Scenario.two_videos) default_config
               Scenario.one Scenario.eager).2 in
  processed_urls (self Scenario.eager) = 0%Z
  ∧ processed_urls (self w') = 1%Z
  ∧ disk Scenario.eager !! Scenario.checkpoint_pkl = None
  ∧ (∃ data, disk w' !! Scenario.checkpoint_pkl = Some (Pickled data)
             ∧ cp_processed_urls data = 1%Z)
  ∧ disk Scenario.eager !! lit "out_final.txt" = None
  ∧ disk w' !! lit "out_final.txt" = Some (FinalList false []).
Proof.
  vm_compute. split; [done|]. split; [done|]. split; [done|].
  split; [by eexists|]. done.
Qed.

(** ** Scheduler *)

Section SchedulerFacts.
Variable env : Env.
Variable cfg : Config.

Lemma probe_effect_self info w :
  ∃ n, self (probe_effect env cfg info w)
       = set_last_save_count
           (set_processed_urls (self w)
              (processed_urls (self w)
               + if falls_through env cfg info then 1 else 0)%Z) n.
Proof.
  unfold probe_effect. destruct (falls_through env cfg info).
  - apply (progress_self env cfg (log_probe (ui_url info) w).2).
  - exists (last_save_count (self w)). simpl. rewrite Z.add_0_r.
    by destruct (self w).
Qed.

Lemma probe_effect_denied info w :
  denied (probe_effect env cfg info w) = denied w.
Proof.
  unfold probe_effect. destruct (falls_through env cfg info); [|done].
  by rewrite progress_denied.
Qed.

Lemma can_save_empty w : denied w = ∅ → can_save env w.
Proof. intros Hd out path _ _. rewrite Hd. apply not_elem_of_empty. Qed.

Lemma probe_effect_can_save info w :
  can_save env w → can_save env (probe_effect env cfg info w).
Proof.
  intros Hsave out path. rewrite probe_effect_denied.
  destruct (probe_effect_self info w) as [n ->]. apply Hsave.
Qed.

Lemma probe_effect_probed info w :
  probed (probe_effect env cfg info w) = probed w ++ [ui_url info].
Proof.
  unfold probe_effect. destruct (falls_through env cfg info); [|done].
  by rewrite progress_probed.
Qed.

Lemma counted_cons info infos :
  Z.of_nat (counted env cfg (info :: infos))
  = ((if falls_through env cfg info then 1 else 0)
     + Z.of_nat (counted env cfg infos))%Z.
Proof.
  unfold counted. rewrite filter_cons.
  destruct (falls_through env cfg info); case_decide; simpl; try done; lia.
Qed.

Lemma counted_app infos infos' :
  counted env cfg (infos ++ infos')
  = (counted env cfg infos + counted env cfg infos')%nat.
Proof. unfold counted. by rewrite filter_app, length_app. Qed.

Lemma counted_all infos :
  (∀ info, info ∈ infos → falls_through env cfg info = true) →
  counted env cfg infos = length infos.
Proof.
  intros Hall. unfold counted. f_equal. induction infos as [|info infos IH]; [done|].
  rewrite filter_cons_True by (apply Hall; by left).
  f_equal. apply IH. intros i Hi. apply Hall. by right.
Qed.

Lemma effects_cons info infos w :
  effects env cfg (info :: infos) w
  = effects env cfg infos (probe_effect env cfg info w).
Proof. done. Qed.

Lemma effects_self infos : ∀ w,
  ∃ n, self (effects env cfg infos w)
       = set_last_save_count
           (set_processed_urls (self w)
              (processed_urls (self w) + Z.of_nat (counted env cfg infos))%Z) n.
Proof.
  induction infos as [|info infos IH]; intros w.
  - exists (last_save_count (self w)). unfold counted. simpl.
    rewrite Z.add_0_r. by destruct (self w).
  - destruct (IH (probe_effect env cfg info w)) as [n Hn].
    destruct (probe_effect_self info w) as [n1 Hn1].
    exists n. rewrite effects_cons, Hn, Hn1, counted_cons. simpl.
    by rewrite Z.add_assoc.
Qed.

Lemma effects_probed infos : ∀ w,
  probed (effects env cfg infos w) = probed w ++ (ui_url <$> infos).
Proof.
  induction infos as [|info infos IH]; intros w.
  - simpl. by rewrite app_nil_r.
  - rewrite effects_cons, IH, probe_effect_probed.
    by rewrite <- app_assoc.
Qed.

Lemma effects_denied infos : ∀ w,
  denied (effects env cfg infos w) = denied w.
Proof.
  induction infos as [|info infos IH]; intros w; [done|].
  by rewrite effects_cons, IH, probe_effect_denied.
Qed.

Lemma run_tasks_run order batch : ∀ finished w,
  save_interval (self w) ≠ 0%Z →
  can_save env w →
  run_tasks env cfg order batch finished w
  = (Ok (collected env cfg order batch finished),
     effects env cfg (tasks_of order batch) w).
Proof.
  induction order as [|i order IH]; intros finished w Hi Hsave; simpl; [done|].
  destruct (batch !! i) as [info|] eqn:Hb; simpl.
  - run_M. rewrite check_url_run by done.
    rewrite IH; [done| |by apply probe_effect_can_save].
    destruct (probe_effect_self info w) as [n ->]. done.
  - by rewrite IH.
Qed.

Lemma omap_seq_lookup {A B} (f : A → B) (look : nat → option B) (l : list A) :
  ∀ k, (∀ i x, l !! i = Some x → look (k + i)%nat = Some (f x)) →
       omap look (seq k (length l)) = f <$> l.
Proof.
  induction l as [|a l IH]; intros k Hl; simpl; [done|].
  rewrite <- (Nat.add_0_r k) at 1. rewrite (Hl 0%nat a) by done. simpl.
  f_equal. apply IH. intros i x Hx.
  replace (S k + i)%nat with (k + S i)%nat by lia. by apply Hl.
Qed.

Lemma tasks_of_all batch : tasks_of (seq 0 (length batch)) batch = batch.
Proof.
  unfold tasks_of. rewrite (omap_seq_lookup id); [apply list_fmap_id|done].
Qed.

Lemma tasks_of_schedule order batch :
  order ≡ₚ seq 0 (length batch) → tasks_of order batch ≡ₚ batch.
Proof.
  intros Ho. unfold tasks_of. rewrite Ho. fold (tasks_of (seq 0 (length batch)) batch).
  by rewrite tasks_of_all.
Qed.

Lemma collected_cons j order batch finished :
  collected env cfg (j :: order) batch finished
  = collected env cfg order batch
      match batch !! j with
      | Some info => <[j := outcome_of env cfg info]> finished
      | None => finished
      end.
Proof. done. Qed.

Lemma collected_other order batch i : ∀ finished,
  i ∉ order →
  collected env cfg order batch finished !! i = finished !! i.
Proof.
  induction order as [|j order IH]; intros finished Hi; [done|].
  apply not_elem_of_cons in Hi as [Hij Hi].
  rewrite collected_cons, IH by done.
  destruct (batch !! j); [|done]. by rewrite lookup_insert_ne.
Qed.

Lemma collected_lookup order batch i info : ∀ finished,
  batch !! i = Some info →
  i ∈ order →
  collected env cfg order batch finished !! i = Some (outcome_of env cfg info).
Proof.
  induction order as [|j order IH]; intros finished Hb Hi.
  - by apply elem_of_nil in Hi.
  - rewrite collected_cons. destruct (decide (i ∈ order)) as [Hin | Hnotin].
    + by apply IH.
    + apply elem_of_cons in Hi as [-> | Hi]; [|done].
      rewrite collected_other by done. rewrite Hb. apply lookup_insert_eq.
Qed.

Lemma gather_run order batch w :
  order ≡ₚ seq 0 (length batch) →
  save_interval (self w) ≠ 0%Z →
  can_save env w →
  gather env cfg order batch w
  = (Ok (outcome_of env cfg <$> batch), effects env cfg (tasks_of order batch) w).
Proof.
  intros Ho Hi Hsave. unfold gather. run_M. rewrite run_tasks_run by done.
  do 2 f_equal. apply omap_seq_lookup. intros i info Hb. simpl.
  apply collected_lookup; [done|].
  rewrite Ho. apply elem_of_seq. apply lookup_lt_Some in Hb. lia.
Qed.
Lemma record_results_run outcomes : ∀ w,
  ∃ w', record_results env outcomes w = (Ok tt, w')
    ∧ disk w' = disk w
    ∧ probed w' = probed w
    ∧ denied w' = denied w
    ∧ self w'
      = set_recorded (self w)
          (list_to_set ((fun o => url_hash env (ui_url (out_info o))) <$> outcomes)
           ∪ processed_url_hashes (self w))
          (record_all env outcomes (results (self w))).
Proof.
  induction outcomes as [|o outcomes IH]; intros w.
  - exists w. split; [done|]. split; [done|]. split; [done|]. split; [done|].
    simpl. rewrite (left_id_L ∅ (∪)). by destruct (self w).
  - simpl. run_M. destruct o as [[[info st] response_time] msg] eqn:Ho.
    unfold record_result. run_M.
    match goal with |- context [record_results env outcomes ?w1] =>
      destruct (IH w1) as (w' & -> & Hd & Hp & Hden & Hs) end.
    exists w'. split; [done|]. split; [done|]. split; [done|]. split; [done|].
    rewrite Hs. unfold set_recorded, out_info, out_status. simpl. f_equal.
    by rewrite (assoc_L (∪)), (comm_L (∪) (list_to_set _)).
Qed.

Lemma record_all_recorded outcomes : ∀ r,
  recorded (record_all env outcomes r) = (recorded r + length outcomes)%nat.
Proof.
  induction outcomes as [|o outcomes IH]; intros r; [simpl; lia|].
  change (record_all env (o :: outcomes) r)
    with (record_all env outcomes (append_to (out_status o) (entry_of env o) r)).
  rewrite IH.
  destruct (out_status o); unfold recorded; simpl; rewrite length_app; simpl; lia.
Qed.

Lemma advanced_refl w : advanced env cfg [] w w.
Proof.
  split; try done.
  - unfold counted. simpl. lia.
  - unfold hashes_of. simpl. by rewrite (left_id_L ∅ (∪)).
  - simpl. by rewrite app_nil_r.
Qed.

Lemma advanced_app infos infos' w w1 w2 :
  advanced env cfg infos w w1 →
  advanced env cfg infos' w1 w2 →
  advanced env cfg (infos ++ infos') w w2.
Proof.
  intros [] []. split; try congruence.
  - rewrite counted_app. lia.
  - unfold record_all in *. rewrite fmap_app, foldl_app. congruence.
  - unfold hashes_of in *. rewrite fmap_app, list_to_set_app_L.
    rewrite adv_hashes1, adv_hashes0.
    by rewrite (assoc_L (∪)), (comm_L (∪) (list_to_set (_ <$> infos))).
  - rewrite fmap_app, app_assoc. etrans; [eassumption|]. by apply Permutation_app_tail.
Qed.

(** One turn of the loop over the batches. *)
Lemma batch_run order batch w :
  order ≡ₚ seq 0 (length batch) →
  save_interval (self w) ≠ 0%Z →
  denied w = ∅ →
  ∃ w', (batch_results ← gather env cfg order batch;
         record_results env batch_results;;
         save_intermediate_results env cfg) w = (Ok tt, w')
    ∧ advanced env cfg batch w w'
    ∧ (is_Some (output_file (self w)) → is_Some (checkpoint_file (self w)) →
       checkpointed w').
Proof.
  intros Ho Hi Hden. run_M. rewrite gather_run by (done || by apply can_save_empty).
  set (w1 := effects env cfg (tasks_of order batch) w).
  destruct (record_results_run (outcome_of env cfg <$> batch) w1)
    as (w2 & -> & Hd2 & Hp2 & Hden2 & Hs2).
  assert (denied w2 = ∅) as Hempty.
  { rewrite Hden2. unfold w1. by rewrite effects_denied. }
  rewrite save_intermediate_results_ok by (by apply can_save_empty).
  exists (saved env cfg w2).
  destruct (effects_self (tasks_of order batch) w) as [n Hs1]. fold w1 in Hs1.
  assert (counted env cfg (tasks_of order batch) = counted env cfg batch) as Hc.
  { unfold counted. by rewrite (tasks_of_schedule order batch Ho). }
  assert ((fun o => url_hash env (ui_url (out_info o))) <$> (outcome_of env cfg <$> batch)
          = (fun info => url_hash env (ui_url info)) <$> batch) as Hh.
  { rewrite <- list_fmap_compose. apply list_fmap_ext. intros i info _. simpl.
    by rewrite outcome_of_info. }
  rewrite Hh, Hs1, Hc in Hs2. simpl in Hs2.
  split; [done|]. split.
  - split; rewrite ?saved_self, ?saved_probed, ?saved_denied, ?Hs2; simpl;
      try done.
    + rewrite Hp2. unfold w1. rewrite effects_probed.
      apply Permutation_app_head. by rewrite (tasks_of_schedule order batch Ho).
    + by rewrite Hempty.
  - intros Hout Hck. unfold checkpointed. rewrite saved_self.
    apply saved_checkpoint; [by apply can_save_empty|by rewrite Hs2| |by rewrite Hs2].
    intros path _. rewrite Hempty. apply not_elem_of_empty.
Qed.

Lemma process_batches_run sched batches : ∀ k w,
  schedule sched →
  save_interval (self w) ≠ 0%Z →
  denied w = ∅ →
  ∃ w', process_batches env cfg sched k batches w = (Ok tt, w')
    ∧ advanced env cfg (concat batches) w w'
    ∧ (batches ≠ [] →
       is_Some (output_file (self w)) → is_Some (checkpoint_file (self w)) →
       checkpointed w').
Proof.
  induction batches as [|batch batches IH]; intros k w Hsched Hi Hden.
  - exists w. split; [done|]. split; [apply advanced_refl|done].
  - destruct (batch_run (sched k (length batch)) batch w) as (w1 & Hrun & Hadv & Hck);
      [apply Hsched | done | done |].
    destruct (IH (S k) w1) as (w2 & Hrun2 & Hadv2 & Hck2);
      [done | by rewrite (adv_save_interval _ _ _ _ _ Hadv)
      | by rewrite (adv_denied _ _ _ _ _ Hadv) |].
    exists w2. split; [|split].
    + simpl. revert Hrun. run_M.
      destruct (gather env cfg _ batch w) as [[outcomes|e] wg]; [|done].
      destruct (record_results env outcomes wg) as [[[]|e] wr]; [|done].
      destruct (save_intermediate_results env cfg wr) as [[[]|e] ws]; [|done].
      intros [= ->]. exact Hrun2.
    + simpl. by apply (advanced_app _ _ w w1 w2).
    + intros _ Hout Hckf. destruct batches as [|batch' batches].
      * simpl in Hrun2. injection Hrun2 as <-. by apply Hck.
      * apply Hck2; [done| |].
        -- by rewrite (adv_output_file _ _ _ _ _ Hadv).
        -- by rewrite (adv_checkpoint_file _ _ _ _ _ Hadv).
Qed.
Lemma range_step_cover n size :
  size ≠ 0%nat → (n <= (n + size - 1) / size * size)%nat.
Proof.
  intros Hs.
  pose proof (Nat.div_mod_eq (n + size - 1) size) as Hd.
  pose proof (Nat.mod_upper_bound (n + size - 1) size Hs) as Hm.
  nia.
Qed.

Lemma chunks_concat {A} (size : nat) : ∀ m (l : list A),
  (length l <= m * size)%nat →
  concat ((fun i => slice i (i + size) l) <$> ((fun k => k * size)%nat <$> seq 0 m))
  = l.
Proof.
  induction m as [|m IH]; intros l Hl.
  - destruct l; [done | simpl in Hl; lia].
  - change (seq 0 (S m)) with (0%nat :: seq 1 m). rewrite !fmap_cons.
    change (concat (?x :: ?xs)) with (x ++ concat xs).
    transitivity (take size l ++ drop size l); [|apply take_drop].
    f_equal.
    + unfold slice. rewrite drop_0. f_equal. lia.
    + rewrite <- (IH (drop size l)) by (rewrite length_drop; lia).
      f_equal. rewrite <- fmap_S_seq, <- !list_fmap_compose.
      apply list_fmap_ext. intros _ k _. simpl. unfold slice.
      rewrite drop_drop. f_equal. lia.
Qed.

Lemma batches_of_run size infos :
  size ≠ 0%nat →
  ∃ batches, batches_of size infos = Ok batches
    ∧ concat batches = infos
    ∧ (length batches <= length infos)%nat.
Proof.
  intros Hs. unfold batches_of, range_step.
  destruct (Nat.eqb_spec size 0); [done|].
  eexists. split; [done|]. split.
  - apply chunks_concat. by apply range_step_cover.
  - rewrite !length_fmap, length_seq.
    destruct (length infos) as [|n'] eqn:Hn.
    + rewrite Nat.div_small; lia.
    + apply Nat.Div0.div_le_upper_bound. nia.
Qed.

Lemma remove_duplicates_from_sublist infos : ∀ seen,
  remove_duplicates_from seen infos `sublist_of` infos.
Proof.
  induction infos as [|info infos IH]; intros seen; simpl; [done|].
  case_bool_decide; [by apply sublist_cons | by apply sublist_skip].
Qed.

Lemma remove_duplicates_from_fresh infos : ∀ seen info,
  info ∈ remove_duplicates_from seen infos → ui_url info ∉ seen.
Proof.
  induction infos as [|i infos IH]; intros seen info; simpl.
  - by intros ?%elem_of_nil.
  - case_bool_decide as Hs; [by apply IH|].
    intros [-> | Hin]%elem_of_cons; [done|].
    apply IH in Hin. set_solver.
Qed.

Lemma remove_duplicates_from_NoDup infos : ∀ seen,
  NoDup (ui_url <$> remove_duplicates_from seen infos).
Proof.
  induction infos as [|i infos IH]; intros seen; simpl; [constructor|].
  case_bool_decide as Hs; [by apply IH|].
  rewrite fmap_cons. constructor; [|by apply IH].
  intros (info & Hu & Hin)%list_elem_of_fmap.
  apply remove_duplicates_from_fresh in Hin. set_solver.
Qed.

Lemma remove_duplicates_from_first infos : ∀ seen url,
  url ∉ seen →
  first_with url (remove_duplicates_from seen infos) = first_with url infos.
Proof.
  induction infos as [|i infos IH]; intros seen url Hu; [done|].
  unfold first_with in *. simpl.
  case_bool_decide as Hs; simpl.
  - case_bool_decide as Hi; [by subst|]. by apply IH.
  - case_bool_decide as Hi; [done|]. apply IH.
    intros [Heq%elem_of_singleton | Hin]%elem_of_union; [by subst | done].
Qed.
Lemma start_run_run out all_url_infos w :
  denied w = ∅ →
  ∃ plan w1,
    start_run env cfg out all_url_infos w = (Ok plan, w1)
    ∧ probed w1 = probed w
    ∧ denied w1 = denied w
    ∧ save_interval (self w1) = save_interval (self w)
    ∧ concurrency (self w1) = concurrency (self w)
    ∧ checkpoint_file (self w1) = checkpoint_file (self w)
    ∧ output_file (self w1) = out
    ∧ (to_probe env cfg all_url_infos w = [] →
       ∃ r, plan = Finished r
         ∧ disk w1
           = match out, remove_duplicates all_url_infos with
             | Some output_file, _ :: _ =>
                 results_written env cfg output_file (total_urls (self w1))
                   (results (self w1)) (disk w)
             | _, _ => disk w
             end)
    ∧ (to_probe env cfg all_url_infos w ≠ [] →
       plan = Drain (to_probe env cfg all_url_infos w)
       ∧ disk w1 = disk w
       ∧ processed_url_hashes (self w1)
         = match resumed_from cfg w with
           | Some data => cp_processed_url_hashes data
           | None => processed_url_hashes (self w)
           end)
    ∧ (counter_matches (self w) →
       (∀ data, resumed_from cfg w = Some data →
          cp_processed_urls data = Z.of_nat (recorded (cp_results data))) →
       counter_matches (self w1)).
Proof.
  intros Hden.
  unfold start_run, to_probe, resumed_from, load_checkpoint, counter_matches.
  run_M.
  destruct (remove_duplicates all_url_infos) as [|info unique] eqn:Hu.
  { simpl. eexists _, _. split; [done|]. repeat (split; [done|]).
    split; [|split; [|done]].
    - intros _. eexists. split; [done|]. by destruct out.
    - destruct (checkpoint_file (self w)) as [ck|]; [|done]. simpl.
      destruct (disk w !! ck) as [[]|]; try done;
        by destruct (ENABLE_CHECKPOINT cfg). }
  destruct (Z.eqb_spec (Z.of_nat (length (info :: unique))) 0) as [He|_];
    [simpl in He; lia|].
  destruct (checkpoint_file (self w)) as [ck|] eqn:Hck; simpl;
    [destruct (disk w !! ck) as [[]|] eqn:Hd;
     destruct (ENABLE_CHECKPOINT cfg) eqn:Hen|];
    do 3 (run_M; rewrite ?Hck; simpl; rewrite ?Hd);
    try (eexists _, _; (split; [done|]); simpl; rewrite ?Hck; simpl; rewrite ?Hd;
         repeat (split; [done|]); done).
  destruct (filter _ (info :: unique)) as [|info' todo] eqn:Hf.
  - destruct out as [path|]; run_M.
    + rewrite save_results_ok
        by (intros ? _; simpl; rewrite Hden; apply not_elem_of_empty).
      simpl. eexists _, _. split; [done|]. simpl. rewrite ?Hck; simpl; rewrite ?Hd.
      repeat (split; [done|]).
      split; [eauto|]. split; [done|].
      intros _ Hdata; by apply Hdata.
    + eexists _, _. split; [done|]. simpl. rewrite ?Hck; simpl; rewrite ?Hd.
      repeat (split; [done|]).
      split; [eauto|]. split; [done|].
      intros _ Hdata; by apply Hdata.
  - eexists _, _. split; [done|]. simpl. rewrite ?Hck; simpl; rewrite ?Hd.
    repeat (split; [done|]).
    intros _ Hdata. by apply Hdata.
Qed.

Lemma finish_run_run w :
  denied w = ∅ →
  ∃ w', finish_run env cfg w = (Ok (results (self w)), w')
    ∧ self w' = self w
    ∧ probed w' = probed w
    ∧ denied w' = denied w
    ∧ disk w' = finished_disk env cfg (self w) (disk w).
Proof.
  intros Hden. unfold finish_run, finished_disk. run_M.
  destruct (output_file (self w)) as [out|]; run_M.
  - rewrite save_results_ok by (intros ? _; rewrite Hden; apply not_elem_of_empty).
    simpl. destruct (checkpoint_file (self w)) as [ck|]; run_M.
    + case_bool_decide as Hex; run_M; eexists; (split; [done|]); simpl;
        repeat (split; [done|]); [done|].
      symmetry. apply delete_id. by apply eq_None_not_Some.
    + eexists. split; [done|]. simpl. repeat (split; [done|]). done.
  - destruct (checkpoint_file (self w)) as [ck|]; run_M.
    + case_bool_decide as Hex; run_M; eexists; (split; [done|]); simpl;
        repeat (split; [done|]); [done|].
      symmetry. apply delete_id. by apply eq_None_not_Some.
    + eexists. split; [done|]. simpl. repeat (split; [done|]). by destruct w.
Qed.

(** No checkpoint is left when a run that drained its records
    returns. *)
Lemma finished_disk_checkpoint (c : StreamChecker) (d : Disk) :
  checkpoint_at (checkpoint_file c) (finished_disk env cfg c d) = None.
Proof.
  unfold finished_disk. destruct (checkpoint_file c) as [ck|]; [|done].
  simpl. apply lookup_delete_eq.
Qed.

Lemma to_probe_sublist all_url_infos w :
  to_probe env cfg all_url_infos w `sublist_of` all_url_infos.
Proof.
  unfold to_probe. destruct (resumed_from cfg w).
  - etrans; [apply sublist_filter|]. apply remove_duplicates_from_sublist.
  - apply remove_duplicates_from_sublist.
Qed.

Lemma counter_advanced infos w w' :
  advanced env cfg infos w w' →
  (∀ info, info ∈ infos → falls_through env cfg info = true) →
  counter_matches (self w) →
  counter_matches (self w').
Proof.
  intros Hadv Hall Hc. unfold counter_matches in *.
  rewrite (adv_processed_urls _ _ _ _ _ Hadv), (adv_results _ _ _ _ _ Hadv).
  rewrite record_all_recorded, length_fmap, counted_all by done. lia.
Qed.

Lemma to_probe_of_none all_url_infos w :
  remove_duplicates all_url_infos = [] → to_probe env cfg all_url_infos w = [].
Proof.
  intros Hu. unfold to_probe. rewrite Hu. by destruct (resumed_from cfg w).
Qed.

Lemma process_files_run sched out all_url_infos w :
  schedule sched →
  save_interval (self w) ≠ 0%Z →
  concurrency (self w) ≠ 0%nat →
  denied w = ∅ →
  ∃ r w',
    process_files env cfg sched out all_url_infos w = (Ok r, w')
    ∧ probed w' ≡ₚ probed w ++ (ui_url <$> to_probe env cfg all_url_infos w)
    ∧ (to_probe env cfg all_url_infos w ≠ [] →
       checkpoint_at (checkpoint_file (self w)) (disk w') = None)
    ∧ (remove_duplicates all_url_infos = [] → disk w' = disk w)
    ∧ (counter_matches (self w) →
       (∀ data, resumed_from cfg w = Some data →
          cp_processed_urls data = Z.of_nat (recorded (cp_results data))) →
       (∀ info, info ∈ all_url_infos → falls_through env cfg info = true) →
       counter_matches (self w')).
Proof.
  intros Hsched Hi Hc Hden. unfold process_files. run_M.
  destruct (start_run_run out all_url_infos w Hden)
    as (plan & w1 & -> & Hp1 & Hden1 & Hi1 & Hc1 & Hck1 & Hout1 & Hnil & Hcons & Hcnt).
  destruct (to_probe env cfg all_url_infos w) as [|info todo] eqn:Htodo.
  - destruct Hnil as (r & -> & Hd); [done|].
    eexists _, _. split; [done|]. rewrite Hp1. simpl. rewrite app_nil_r.
    split; [done|]. split; [done|]. split; [|by auto].
    intros Hu. rewrite Hd, Hu. by destruct out.
  - destruct Hcons as (-> & Hd & _); [done|].
    destruct (batches_of_run (concurrency (self w1)) (info :: todo))
      as (batches & -> & Hconcat & _); [by rewrite Hc1|].
    destruct (process_batches_run sched batches 0 w1) as (w2 & -> & Hadv & _);
      [done | by rewrite Hi1 | by rewrite Hden1 |].
    destruct (finish_run_run w2) as (w3 & -> & Hs3 & Hp3 & Hden3 & Hd3);
      [by rewrite (adv_denied _ _ _ _ _ Hadv), Hden1|].
    eexists _, _. split; [done|]. rewrite Hconcat in Hadv.
    split; [|split; [|split]].
    + rewrite Hp3, (adv_probed _ _ _ _ _ Hadv), Hp1. done.
    + intros _. simpl. rewrite Hd3, <- Hck1, <- (adv_checkpoint_file _ _ _ _ _ Hadv).
      apply finished_disk_checkpoint.
    + intros Hu. by rewrite (to_probe_of_none all_url_infos w Hu) in Htodo.
    + intros Hm Hdata Hall. rewrite Hs3.
      apply (counter_advanced (info :: todo) w1 w2); [done| |by apply Hcnt].
      intros i Hin. apply Hall. rewrite <- Htodo in Hin.
      eapply elem_of_sublist; [done | apply to_probe_sublist].
Qed.

Lemma concat_take_prefix {A} k (batches : list (list A)) :
  concat (take k batches) `prefix_of` concat batches.
Proof.
  rewrite <- (take_drop k batches) at 2. rewrite concat_app. by eexists.
Qed.

Lemma process_files_killed_run k sched out all_url_infos w :
  schedule sched →
  save_interval (self w) ≠ 0%Z →
  concurrency (self w) ≠ 0%nat →
  denied w = ∅ →
  ∃ w' recorded_infos,
    process_files_killed env cfg k sched out all_url_infos w = (Ok tt, w')
    ∧ recorded_infos `prefix_of` to_probe env cfg all_url_infos w
    ∧ probed w' ≡ₚ probed w ++ (ui_url <$> recorded_infos)
    ∧ (remove_duplicates all_url_infos = [] → disk w' = disk w)
    ∧ ((length all_url_infos <= k)%nat →
       to_probe env cfg all_url_infos w ≠ [] →
       is_Some out →
       is_Some (checkpoint_file (self w)) →
       ∃ data, checkpoint_at (checkpoint_file (self w)) (disk w')
               = Some (Pickled data)
         ∧ hashes_of env (to_probe env cfg all_url_infos w)
           ⊆ cp_processed_url_hashes data)
    ∧ (counter_matches (self w) →
       (∀ data, resumed_from cfg w = Some data →
          cp_processed_urls data = Z.of_nat (recorded (cp_results data))) →
       (∀ info, info ∈ all_url_infos → falls_through env cfg info = true) →
       counter_matches (self w')).
Proof.
  intros Hsched Hi Hc Hden. unfold process_files_killed. run_M.
  destruct (start_run_run out all_url_infos w Hden)
    as (plan & w1 & -> & Hp1 & Hden1 & Hi1 & Hc1 & Hck1 & Hout1 & Hnil & Hcons & Hcnt).
  destruct (to_probe env cfg all_url_infos w) as [|info todo] eqn:Htodo.
  - destruct Hnil as (r & -> & Hd); [done|].
    exists w1, []. split; [done|]. split; [done|]. rewrite Hp1. simpl.
    rewrite app_nil_r. split; [done|]. split; [|split; [done|by auto]].
    intros Hu. rewrite Hd, Hu. by destruct out.
  - destruct Hcons as (-> & Hd & Hh); [done|].
    destruct (batches_of_run (concurrency (self w1)) (info :: todo))
      as (batches & -> & Hconcat & Hlen); [by rewrite Hc1|].
    destruct (process_batches_run sched (take k batches) 0 w1)
      as (w2 & -> & Hadv & Hsaved); [done | by rewrite Hi1 | by rewrite Hden1 |].
    exists w2, (concat (take k batches)). split; [done|].
    split; [rewrite <- Hconcat; apply concat_take_prefix|].
    split; [by rewrite (adv_probed _ _ _ _ _ Hadv), Hp1|].
    split; [|split].
    + intros Hu. by rewrite (to_probe_of_none all_url_infos w Hu) in Htodo.
    + intros Hk _ Hout Hck.
      assert (take k batches = batches) as Htake.
      { apply take_ge. etrans; [apply Hlen|]. etrans; [|apply Hk].
        rewrite <- Htodo. apply sublist_length, to_probe_sublist. }
      rewrite Htake, Hconcat in *.
      eexists. split.
      * rewrite <- Hck1, <- (adv_checkpoint_file _ _ _ _ _ Hadv).
        apply Hsaved; [|by rewrite Hout1|by rewrite Hck1].
        intros ->. done.
      * simpl. rewrite (adv_hashes _ _ _ _ _ Hadv). apply union_subseteq_l.
    + intros Hm Hdata Hall.
      apply (counter_advanced (concat (take k batches)) w1 w2);
        [done| |by apply Hcnt].
      intros i Hin. apply Hall.
      eapply elem_of_sublist; [|apply (to_probe_sublist all_url_infos w)].
      rewrite Htodo, <- Hconcat.
      eapply elem_of_prefix; [done | apply concat_take_prefix].
Qed.

Lemma to_probe_NoDup all_url_infos w :
  NoDup (ui_url <$> to_probe env cfg all_url_infos w).
Proof.
  assert (ui_url <$> to_probe env cfg all_url_infos w
          `sublist_of` ui_url <$> remove_duplicates all_url_infos) as Hsub.
  { apply fmap_sublist. unfold to_probe.
    destruct (resumed_from cfg w); [apply sublist_filter|done]. }
  eapply sublist_NoDup in Hsub; [done|].
  apply (remove_duplicates_from_NoDup all_url_infos ∅).
Qed.

Lemma to_probe_covered all_url_infos w data :
  resumed_from cfg w = Some data →
  hashes_of env (remove_duplicates all_url_infos) ⊆ cp_processed_url_hashes data →
  to_probe env cfg all_url_infos w = [].
Proof.
  intros Hr Hcover. unfold to_probe. rewrite Hr.
  induction (remove_duplicates all_url_infos) as [|info infos IH]; [done|].
  unfold hashes_of in *. rewrite fmap_cons, list_to_set_cons in Hcover.
  rewrite filter_cons_False.
  - apply IH. etrans; [|apply Hcover]. apply union_subseteq_r.
  - intros Hnot. apply Hnot, Hcover. apply elem_of_union_l. by apply elem_of_singleton.
Qed.

Lemma to_probe_fresh all_url_infos w :
  resumed_from cfg w = None →
  to_probe env cfg all_url_infos w = remove_duplicates all_url_infos.
Proof. intros Hr. unfold to_probe. by rewrite Hr. Qed.

Lemma to_probe_unseen all_url_infos w data info :
  resumed_from cfg w = Some data →
  info ∈ to_probe env cfg all_url_infos w →
  url_hash env (ui_url info) ∉ cp_processed_url_hashes data.
Proof.
  intros Hr. unfold to_probe. rewrite Hr.
  by intros [? _]%list_elem_of_filter.
Qed.
End SchedulerFacts.

(** C8, as it holds.  With a save interval other than zero and result
    files that can be written, [check_url] returns one tuple for the
    record it was given and raises nothing.  The failures of a probe end
    up in the status and error message of that tuple: a URL without
    scheme or host, a URL that cannot be parsed, an HTTP status of 400 or
    more, a timeout, any other exception of the request.  So [gather]
    probes every record of the batch once and returns the outcome of each,
    in the order of the batch, whatever the order of completion. *)
Theorem check_url_captures_failures (env : Env) (cfg : Config) (info : url_info)
    (w : World) :
  save_interval (self w) ≠ 0%Z →
  can_save env w →
  let url := ui_url info in
  let o := outcome_of env cfg info in
  (check_url env cfg info w = (Ok o, probe_effect env cfg info w)
   ∧ out_info o = info
   ∧ probed (probe_effect env cfg info w) = probed w ++ [url])
  ∧ (∀ scheme netloc,
       urlparse env url = Ok (scheme, netloc) → scheme = [] ∨ netloc = [] →
       out_status o = invalid ∧ out_error o = Some (lit "Invalid URL format"))
  ∧ (∀ e, urlparse env url = Raise e →
       out_status o = error ∧ out_error o = Some (exn_str e))
  ∧ (uses_session env cfg url →
       (∀ response,
          session_get env url = Ok response → (400 <= status response)%Z →
          out_status o = invalid
          ∧ out_error o = Some (lit "HTTP status: " ++ str_of_int (status response)))
       ∧ (∀ e, session_get env url = Raise e → exn_timeout e = true →
            out_status o = timeout ∧ out_error o = Some (lit "Request timed out"))
       ∧ (∀ e, session_get env url = Raise e → exn_timeout e = false →
            out_status o = error ∧ out_error o = Some (exn_str e))
       ∧ (∀ response e,
            session_get env url = Ok response →
            classify_response env cfg url (is_likely_stream env url) response = Raise e →
            (out_status o, out_error o) = caught e))
  ∧ (∀ order batch,
       order ≡ₚ seq 0 (length batch) →
       gather env cfg order batch w
       = (Ok (outcome_of env cfg <$> batch), effects env cfg (tasks_of order batch) w)
       ∧ out_info <$> (outcome_of env cfg <$> batch) = batch
       ∧ probed (effects env cfg (tasks_of order batch) w)
         ≡ₚ probed w ++ (ui_url <$> batch)).
Proof.
  intros Hi Hsave url o. split; [|split; [|split; [|split]]].
  - split; [by apply check_url_run|].
    split; [apply outcome_of_info | apply probe_effect_probed].
  - intros scheme netloc Hp Hempty. unfold o, outcome_of.
    by rewrite (attempt_malformed env cfg info scheme netloc Hp Hempty).
  - intros e Hp. unfold o, outcome_of, attempt. fold url. by rewrite Hp.
  - intros Hs. destruct (outcome_of_session env cfg info Hs) as [Hst Herr].
    fold o url in Hst, Herr. rewrite Hst, Herr. split; [|split; [|split]].
    + intros response Hg Hge. unfold request. rewrite Hg. simpl.
      unfold classify_response.
      destruct (Z.ltb_spec (status response) 400); [lia|]. done.
    + intros e Hg Ht. rewrite (request_get_raises env cfg url _ e Hg).
      unfold caught. by rewrite Ht.
    + intros e Hg Ht. rewrite (request_get_raises env cfg url _ e Hg).
      unfold caught. by rewrite Ht.
    + intros response e Hg Hc. rewrite <- surjective_pairing.
      by rewrite (request_classified env cfg url _ response Hg), Hc.
  - intros order batch Ho. split; [by apply gather_run|]. split.
    + rewrite <- list_fmap_compose. rewrite <- (list_fmap_id batch) at 2.
      apply list_fmap_ext. intros _ i _. simpl. apply outcome_of_info.
    + rewrite effects_probed. apply Permutation_app_head.
      by rewrite (tasks_of_schedule order batch Ho).
Qed.

Lemma check_url_captures_failures_witness :
  ∃ w', check_url (Script.env Script.offline) default_config Scenario.one
          (boot 200 100 None empty_disk)
        = (Ok (Scenario.one, error, Float 0.25, Some (lit "Cannot connect to host")), w').
Proof.
  pose proof (check_url_captures_failures (Script.env Script.offline) default_config
                Scenario.one (boot 200 100 None empty_disk)) as H.
  destruct H as ((Hrun & _) & _).
  - by vm_compute.
  - intros out path Hout. by vm_compute in Hout.
  - eexists. exact Hrun.
Defined.

(** C8, as stated, fails: the statements of [check_url] that follow its
    [try] statement are not protected.  With a save interval of 0 the
    modulo raises [ZeroDivisionError]; when a save is due and the output
    file cannot be opened for writing, [open] raises out of
    [save_results], and [gather] raises with it, so that the outcomes of
    the batch are lost. *)
Lemma check_url_raises :
  let env := Script.env Scenario.two_videos in
  (check_url env default_config Scenario.one (boot 1 0 None empty_disk)).1
  = Raise ZeroDivisionError
  ∧ save_interval (self Scenario.locked) = 1%Z
  ∧ (check_url env default_config Scenario.one Scenario.locked).1
    = Raise (PermissionError Scenario.out_json)
  ∧ (gather env default_config [0; 1]%nat [Scenario.one; Scenario.two]
       Scenario.locked).1
    = Raise (PermissionError Scenario.out_json).
Proof. by vm_compute. Qed.

Lemma in_order_schedule : schedule in_order.
Proof. by intros k n. Qed.

Lemma last_first_schedule : schedule last_first.
Proof. intros k n. unfold last_first. symmetry. apply Permutation_rev. Qed.

(** C1, as it holds.  Between batches the counter of processed URLs
    equals the number of recorded outcomes: in a run over records that all
    reach the end of [check_url], started by a new process on files whose
    checkpoint, if there is one, has that property, this holds whenever
    the run is cut off after some batch, and when it completes, for every
    schedule of completions.  The save interval and the batch size are
    taken to be other than zero: with a zero, Python raises when the
    interval divides or when the batches are cut. *)
Theorem counter_matches_between_batches (env : Env) (cfg : Config)
    (sched : nat → nat → list nat) (size : nat) (interval : Z)
    (ck out : option str) (d : Disk) (all_url_infos : list url_info) (k : nat) :
  schedule sched →
  interval ≠ 0%Z →
  size ≠ 0%nat →
  (∀ info, info ∈ all_url_infos → falls_through env cfg info = true) →
  (∀ data, checkpoint_at ck d = Some (Pickled data) →
     cp_processed_urls data = Z.of_nat (recorded (cp_results data))) →
  (∃ w', process_files_killed env cfg k sched out all_url_infos
           (boot size interval ck d) = (Ok tt, w')
         ∧ processed_urls (self w') = Z.of_nat (recorded (results (self w'))))
  ∧ (∃ r w', process_files env cfg sched out all_url_infos
               (boot size interval ck d) = (Ok r, w')
             ∧ processed_urls (self w') = Z.of_nat (recorded (results (self w')))).
Proof.
  intros Hsched Hi Hc Hall Hdisk.
  assert (∀ data, resumed_from cfg (boot size interval ck d) = Some data →
            cp_processed_urls data = Z.of_nat (recorded (cp_results data))) as Hres.
  { intros data. unfold resumed_from. simpl.
    destruct (checkpoint_at ck d) as [[]|] eqn:Hd; try done.
    destruct (ENABLE_CHECKPOINT cfg); [|done]. intros [= ->]. by apply Hdisk. }
  split.
  - destruct (process_files_killed_run env cfg k sched out all_url_infos
                (boot size interval ck d)) as (w' & infos & Hrun & _ & _ & _ & _ & Hcnt);
      [done..|].
    exists w'. split; [done|]. by apply Hcnt.
  - destruct (process_files_run env cfg sched out all_url_infos
                (boot size interval ck d)) as (r & w' & Hrun & _ & _ & _ & Hcnt);
      [done..|].
    exists r, w'. split; [done|]. by apply Hcnt.
Qed.

Lemma counter_matches_between_batches_witness :
  ∃ r w', process_files (Script.env Scenario.two_videos) default_config last_first
            (Some Scenario.out_json) [Scenario.one; Scenario.two]
            (boot 200 100 (Some Scenario.checkpoint_pkl) empty_disk) = (Ok r, w')
          ∧ processed_urls (self w') = Z.of_nat (recorded (results (self w'))).
Proof.
  apply (counter_matches_between_batches (Script.env Scenario.two_videos)
           default_config last_first 200 100 (Some Scenario.checkpoint_pkl)
           (Some Scenario.out_json) empty_disk [Scenario.one; Scenario.two] 0).
  - apply last_first_schedule.
  - done.
  - done.
  - intros info [-> | [-> | []%elem_of_nil]%elem_of_cons]%elem_of_cons;
      by vm_compute.
  - done.
Defined.

(** C1, as stated, fails: in a batch of two records both probes have
    completed, and so the counter stands at 2, when the first of the two
    outcomes is recorded. *)
Lemma counter_ahead_of_buckets :
  let env := Script.env Scenario.two_videos in
  let batch := [Scenario.one; Scenario.two] in
  let w0 := (start_run env default_config (Some Scenario.out_json) batch
               (boot 200 100 (Some Scenario.checkpoint_pkl) empty_disk)).2 in
  let gathered := gather env default_config [1; 0]%nat batch w0 in
  let o := (Scenario.one, valid, Float 0.25, None) in
  let w2 := (record_result env o gathered.2).2 in
  gathered.1 = Ok [o; (Scenario.two, valid, Float 0.25, None)]
  ∧ processed_urls (self w2) = 2%Z
  ∧ recorded (results (self w2)) = 1%nat.
Proof. by vm_compute. Qed.

(** C2, as it holds.  With checkpointing enabled and no checkpoint at the
    start, a second run over the same records probes nothing when the
    first run was cut off after its last batch was saved, for then the
    checkpoint holds every identity.  A first run that completes deletes
    the checkpoint, and the second run probes every distinct URL again, as
    the first did.  Save intervals and batch sizes are other than zero. *)
Theorem second_run_probes (env : Env) (cfg : Config)
    (sched sched' : nat → nat → list nat) (size size' : nat) (interval interval' : Z)
    (ck out out' : str) (d : Disk) (all_url_infos : list url_info) (k : nat) :
  schedule sched → schedule sched' →
  interval ≠ 0%Z → interval' ≠ 0%Z →
  size ≠ 0%nat → size' ≠ 0%nat →
  ENABLE_CHECKPOINT cfg = true →
  d !! ck = None →
  (length all_url_infos <= k)%nat →
  (∃ w1 r w2,
     process_files_killed env cfg k sched (Some out) all_url_infos
       (boot size interval (Some ck) d) = (Ok tt, w1)
     ∧ process_files env cfg sched' (Some out') all_url_infos
         (boot size' interval' (Some ck) (disk w1)) = (Ok r, w2)
     ∧ probed w2 = [])
  ∧ (∃ r1 w1 r2 w2,
       process_files env cfg sched (Some out) all_url_infos
         (boot size interval (Some ck) d) = (Ok r1, w1)
       ∧ disk w1 !! ck = None
       ∧ process_files env cfg sched' (Some out') all_url_infos
           (boot size' interval' (Some ck) (disk w1)) = (Ok r2, w2)
       ∧ probed w1 ≡ₚ ui_url <$> remove_duplicates all_url_infos
       ∧ probed w2 ≡ₚ ui_url <$> remove_duplicates all_url_infos).
Proof.
  intros Hsched Hsched' Hi Hi' Hc Hc' Hen Hd Hk.
  assert (resumed_from cfg (boot size interval (Some ck) d) = None) as Hfresh.
  { unfold resumed_from. simpl. by rewrite Hd. }
  pose proof (to_probe_fresh env cfg all_url_infos _ Hfresh) as Htodo.
  split.
  - destruct (process_files_killed_run env cfg k sched (Some out) all_url_infos
                (boot size interval (Some ck) d))
      as (w1 & infos & Hrun & _ & _ & _ & Hsaved & _); [done..|].
    assert (to_probe env cfg all_url_infos (boot size' interval' (Some ck) (disk w1))
            = []) as Hnone.
    { destruct (remove_duplicates all_url_infos) as [|info unique] eqn:Hu.
      - unfold to_probe. rewrite Hu.
        by destruct (resumed_from cfg (boot size' interval' (Some ck) (disk w1))).
      - destruct Hsaved as (data & Hfile & Hcover);
          [done | by rewrite Htodo | by eexists | by eexists |].
        apply (to_probe_covered env cfg all_url_infos _ data).
        + unfold resumed_from. simpl. simpl in Hfile. by rewrite Hfile, Hen.
        + by rewrite Hu, <- Htodo. }
    destruct (process_files_run env cfg sched' (Some out') all_url_infos
                (boot size' interval' (Some ck) (disk w1)))
      as (r & w2 & Hrun2 & Hp & _); [done..|].
    exists w1, r, w2. split; [done|]. split; [done|].
    rewrite Hnone in Hp. simpl in Hp. by apply Permutation_nil_r in Hp.
  - destruct (process_files_run env cfg sched (Some out) all_url_infos
                (boot size interval (Some ck) d))
      as (r1 & w1 & Hrun1 & Hp1 & Hdel & Hkeep & _); [done..|].
    assert (disk w1 !! ck = None) as Hd1.
    { destruct (to_probe env cfg all_url_infos (boot size interval (Some ck) d))
        as [|info todo] eqn:Ht.
      - rewrite Hkeep; [done|]. by rewrite <- Htodo.
      - by apply Hdel. }
    destruct (process_files_run env cfg sched' (Some out') all_url_infos
                (boot size' interval' (Some ck) (disk w1)))
      as (r2 & w2 & Hrun2 & Hp2 & _); [done..|].
    exists r1, w1, r2, w2. split; [done|]. split; [done|]. split; [done|].
    rewrite Htodo in Hp1. split; [done|].
    rewrite to_probe_fresh in Hp2; [done|].
    unfold resumed_from. simpl. by rewrite Hd1.
Qed.

Lemma second_run_probes_witness :
  ∃ w1 r w2,
    process_files_killed (Script.env Scenario.two_videos) default_config 2 in_order
      (Some Scenario.out_json) [Scenario.one; Scenario.two]
      (boot 200 100 (Some Scenario.checkpoint_pkl) empty_disk) = (Ok tt, w1)
    ∧ process_files (Script.env Scenario.two_videos) default_config in_order
        (Some Scenario.out_json) [Scenario.one; Scenario.two]
        (boot 200 100 (Some Scenario.checkpoint_pkl) (disk w1)) = (Ok r, w2)
    ∧ probed w2 = [].
Proof.
  apply (second_run_probes (Script.env Scenario.two_videos) default_config
           in_order in_order 200 200 100 100 Scenario.checkpoint_pkl
           Scenario.out_json Scenario.out_json empty_disk
           [Scenario.one; Scenario.two] 2); try done; apply in_order_schedule.
Defined.

(** C2, as stated, fails: the first run completes and deletes the
    checkpoint, and the second run probes the record again. *)
Lemma second_run_probes_again :
  let env := Script.env Scenario.two_videos in
  let first := process_files env default_config in_order
                 (Some Scenario.out_json) [Scenario.one]
                 (boot 200 100 (Some Scenario.checkpoint_pkl) empty_disk) in
  let second := process_files env default_config in_order
                  (Some Scenario.out_json) [Scenario.one]
                  (boot 200 100 (Some Scenario.checkpoint_pkl) (disk first.2)) in
  ENABLE_CHECKPOINT default_config = true
  ∧ (∃ r, first.1 = Ok r)
  ∧ probed first.2 = [ui_url Scenario.one]
  ∧ disk first.2 !! Scenario.checkpoint_pkl = None
  ∧ (∃ r, second.1 = Ok r)
  ∧ probed second.2 = [ui_url Scenario.one].
Proof. vm_compute. repeat split; eauto. Qed.

(** C9.  In every run each URL identity is probed at most once.  The set
    of seen identities has no duplicates.  The deduplication keeps, for
    every URL, the first record that bears it and no other.  No URL is
    handed to [check_url] twice, and when a checkpoint is resumed no
    record whose identity is among the seen ones is handed to it at all.
    As long as distinct URLs of the input have distinct digests, no
    identity is probed twice.  The run returns, for every schedule of
    completions, when its save interval and batch size are other than
    zero. *)
Theorem probed_at_most_once (env : Env) (cfg : Config)
    (sched : nat → nat → list nat) (size : nat) (interval : Z)
    (ck out : option str) (d : Disk) (all_url_infos : list url_info) :
  schedule sched →
  interval ≠ 0%Z →
  size ≠ 0%nat →
  ∃ r w',
    process_files env cfg sched out all_url_infos (boot size interval ck d)
    = (Ok r, w')
    ∧ NoDup (elements (processed_url_hashes (self w')))
    ∧ NoDup (ui_url <$> remove_duplicates all_url_infos)
    ∧ (∀ url, first_with url (remove_duplicates all_url_infos)
              = first_with url all_url_infos)
    ∧ NoDup (probed w')
    ∧ (∀ data info,
         resumed_from cfg (boot size interval ck d) = Some data →
         info ∈ all_url_infos →
         url_hash env (ui_url info) ∈ cp_processed_url_hashes data →
         ui_url info ∉ probed w')
    ∧ ((∀ i j, i ∈ all_url_infos → j ∈ all_url_infos →
          url_hash env (ui_url i) = url_hash env (ui_url j) →
          ui_url i = ui_url j) →
       NoDup (url_hash env <$> probed w')).
Proof.
  intros Hsched Hi Hc.
  destruct (process_files_run env cfg sched out all_url_infos (boot size interval ck d))
    as (r & w' & Hrun & Hp & _); [done..|].
  simpl in Hp.
  exists r, w'. split; [done|]. split; [apply NoDup_elements|].
  split; [apply (remove_duplicates_from_NoDup all_url_infos ∅)|].
  split; [intros url; by apply remove_duplicates_from_first|].
  split; [|split].
  - rewrite Hp. apply to_probe_NoDup.
  - intros data info Hres Hin Hseen. rewrite Hp.
    intros (info' & Hurl & Hin')%list_elem_of_fmap.
    apply (to_probe_unseen env cfg all_url_infos _ data info' Hres) in Hin'.
    by rewrite <- Hurl in Hin'.
  - intros Hinj. rewrite Hp, <- list_fmap_compose.
    apply NoDup_fmap_2_strong; [|apply (NoDup_fmap_1 ui_url), to_probe_NoDup].
    intros i j Hin_i Hin_j Hh. simpl in Hh.
    assert (ui_url i = ui_url j) as Hu.
    { apply Hinj; [| |done];
        (eapply elem_of_sublist; [|apply (to_probe_sublist env cfg all_url_infos
                                           (boot size interval ck d))]); done. }
    pose proof (to_probe_NoDup env cfg all_url_infos (boot size interval ck d)) as Hnd.
    apply list_elem_of_lookup in Hin_i as [a Ha], Hin_j as [b Hb].
    assert (a = b) as ->.
    { eapply NoDup_lookup; [exact Hnd| |]; rewrite list_lookup_fmap.
      - by rewrite Ha.
      - rewrite Hb. simpl. by rewrite Hu. }
    congruence.
Qed.

Lemma probed_at_most_once_witness :
  ∃ r w',
    process_files (Script.env Scenario.two_videos) default_config last_first
      (Some Scenario.out_json) [Scenario.one; Scenario.two; Scenario.one]
      (boot 200 100 (Some Scenario.checkpoint_pkl) empty_disk) = (Ok r, w')
    ∧ NoDup (probed w').
Proof.
  pose proof (probed_at_most_once (Script.env Scenario.two_videos) default_config
                last_first 200 100 (Some Scenario.checkpoint_pkl)
                (Some Scenario.out_json) empty_disk
                [Scenario.one; Scenario.two; Scenario.one] last_first_schedule)
    as Hrun.
  destruct Hrun as (r & w' & Hrun & _ & _ & _ & Hnd & _); [done | done |].
  exists r, w'. split; [exact Hrun | exact Hnd].
Defined.

(** * Further properties of the code *)

Section RunFacts.
Variable env : Env.
Variable cfg : Config.

Lemma start_run_state out all_url_infos w :
  self (start_run env cfg out all_url_infos w).2 = started cfg out all_url_infos w.
Proof.
  unfold start_run, started, resumed_from, load_checkpoint.
  run_M.
  destruct (remove_duplicates all_url_infos) as [|info unique] eqn:Hu.
  { simpl. destruct (checkpoint_file (self w)) as [ck|]; [|done]. simpl.
    destruct (disk w !! ck) as [[]|]; try done;
      by destruct (ENABLE_CHECKPOINT cfg). }
  destruct (Z.eqb_spec (Z.of_nat (length (info :: unique))) 0) as [He|_];
    [simpl in He; lia|].
  destruct (checkpoint_file (self w)) as [ck|] eqn:Hck; simpl;
    [destruct (disk w !! ck) as [[]|] eqn:Hd;
     destruct (ENABLE_CHECKPOINT cfg) eqn:Hen|];
    do 3 (run_M; rewrite ?Hck; simpl; rewrite ?Hd); try done.
  destruct (filter _ (info :: unique)) as [|info' todo] eqn:Hf.
  - destruct out as [path|]; run_M; unfold restored; simpl; rewrite ?Hck; [|done].
    match goal with |- context [save_results env cfg path ?w1] =>
      destruct (save_results_frame env cfg path w1) as (Hs & _);
      destruct (save_results env cfg path w1) as [[[]|e] w2] end;
      simpl in *; by rewrite Hs.
  - unfold restored. simpl. by rewrite ?Hck.
Qed.

Lemma start_run_finished out all_url_infos w r w1 :
  start_run env cfg out all_url_infos w = (Ok (Finished r), w1) →
  r = results (self w1).
Proof.
  unfold start_run, load_checkpoint. run_M.
  destruct (remove_duplicates all_url_infos) as [|info unique] eqn:Hu.
  { simpl. by intros [= <- <-]. }
  destruct (Z.eqb_spec (Z.of_nat (length (info :: unique))) 0) as [He|_];
    [simpl in He; lia|].
  destruct (checkpoint_file (self w)) as [ck|] eqn:Hck; simpl;
    [destruct (disk w !! ck) as [[]|] eqn:Hd;
     destruct (ENABLE_CHECKPOINT cfg) eqn:Hen|];
    do 3 (run_M; rewrite ?Hck; simpl; rewrite ?Hd); try done.
  destruct (filter _ (info :: unique)) as [|info' todo] eqn:Hf; [|done].
  destruct out as [path|]; run_M; [|by intros [= <- <-]].
  match goal with |- context [save_results env cfg path ?w1] =>
    destruct (save_results env cfg path w1) as [[[]|e] w2] end;
    simpl; [by intros [= <- <-]|done].
Qed.

Lemma process_files_state sched out all_url_infos w :
  schedule sched →
  save_interval (self w) ≠ 0%Z →
  concurrency (self w) ≠ 0%nat →
  denied w = ∅ →
  ∃ r w',
    process_files env cfg sched out all_url_infos w = (Ok r, w')
    ∧ r = results (self w')
    ∧ advanced env cfg (to_probe env cfg all_url_infos w)
        (start_run env cfg out all_url_infos w).2 w'.
Proof.
  intros Hsched Hi Hc Hden. unfold process_files. run_M.
  destruct (start_run_run env cfg out all_url_infos w Hden)
    as (plan & w1 & Hstart & Hp1 & Hden1 & Hi1 & Hc1 & Hck1 & Hout1 & Hnil & Hcons & Hcnt).
  rewrite Hstart. simpl.
  destruct (to_probe env cfg all_url_infos w) as [|info todo] eqn:Htodo.
  - destruct Hnil as (r & -> & Hd); [done|].
    eexists _, _. split; [done|]. split; [|apply advanced_refl].
    by apply (start_run_finished out all_url_infos w).
  - destruct Hcons as (-> & Hd & _); [done|].
    destruct (batches_of_run (concurrency (self w1)) (info :: todo))
      as (batches & -> & Hconcat & _); [by rewrite Hc1|].
    destruct (process_batches_run env cfg sched batches 0 w1) as (w2 & -> & Hadv & _);
      [done | by rewrite Hi1 | by rewrite Hden1 |].
    destruct (finish_run_run env cfg w2) as (w3 & -> & Hs3 & Hp3 & Hden3 & Hd3);
      [by rewrite (adv_denied _ _ _ _ _ Hadv), Hden1|].
    eexists _, _. split; [done|]. rewrite Hconcat in Hadv.
    split; [by rewrite Hs3|].
    destruct Hadv. split; rewrite ?Hs3, ?Hp3, ?Hden3; done.
Qed.
Lemma snoc_moves {A} (e : A) (l k : list A) : (l ++ [e]) ++ k ≡ₚ (l ++ k) ++ [e].
Proof.
  rewrite <- !app_assoc. apply Permutation_app_head. apply Permutation_app_comm.
Qed.

Lemma entries_append_to st e r :
  entries (append_to st e r) ≡ₚ entries r ++ [e].
Proof.
  unfold entries. destruct st; simpl.
  - apply snoc_moves.
  - rewrite <- (app_assoc (r_valid r)). apply Permutation_app_head, snoc_moves.
  - rewrite <- (app_assoc (r_valid r)), <- (app_assoc (r_invalid r)).
    do 2 apply Permutation_app_head. apply snoc_moves.
  - by rewrite !app_assoc.
Qed.

Lemma entries_record_all outcomes : ∀ r,
  entries (record_all env outcomes r) ≡ₚ entries r ++ (entry_of env <$> outcomes).
Proof.
  induction outcomes as [|o outcomes IH]; intros r.
  - simpl. by rewrite app_nil_r.
  - change (record_all env (o :: outcomes) r)
      with (record_all env outcomes (append_to (out_status o) (entry_of env o) r)).
    rewrite IH, entries_append_to, <- app_assoc. done.
Qed.

Lemma bucket_record_all_keeps outcomes : ∀ r st e,
  e ∈ bucket st r → e ∈ bucket st (record_all env outcomes r).
Proof.
  induction outcomes as [|o outcomes IH]; intros r st e He; [done|].
  change (record_all env (o :: outcomes) r)
    with (record_all env outcomes (append_to (out_status o) (entry_of env o) r)).
  apply IH. destruct (out_status o), st; simpl; rewrite ?elem_of_app; auto.
Qed.

Lemma bucket_record_all outcomes : ∀ r o,
  o ∈ outcomes →
  entry_of env o ∈ bucket (out_status o) (record_all env outcomes r).
Proof.
  induction outcomes as [|o' outcomes IH]; intros r o Ho.
  - by apply elem_of_nil in Ho.
  - change (record_all env (o' :: outcomes) r)
      with (record_all env outcomes (append_to (out_status o') (entry_of env o') r)).
    apply elem_of_cons in Ho as [-> | Ho]; [|by apply IH].
    apply bucket_record_all_keeps. rewrite append_to_bucket.
    apply elem_of_app. right. by apply list_elem_of_singleton.
Qed.

Lemma entry_of_url o : e_url (entry_of env o) = ui_url (out_info o).
Proof. by destruct o as [[[info st] t] msg]. Qed.
Lemma batches_nonempty size (infos : list url_info) batches :
  batches_of size infos = Ok batches →
  ∀ i batch, batches !! i = Some batch →
    batch = take size (drop (i * size) infos) ∧ (i * size < length infos)%nat.
Proof.
  unfold batches_of, range_step. destruct (Nat.eqb_spec size 0) as [|Hs]; [done|].
  intros [= <-] i batch. rewrite !list_lookup_fmap.
  destruct (seq 0 ((length infos + size - 1) / size) !! i) as [k|] eqn:Hk; [|done].
  apply lookup_seq in Hk as [-> Hlt]. simpl. intros [= <-]. split.
  - unfold slice. f_equal. lia.
  - pose proof (Nat.div_mod_eq (length infos + size - 1) size) as Hd.
    pose proof (Nat.mod_upper_bound (length infos + size - 1) size Hs) as Hm.
    nia.
Qed.

Lemma process_files_killed_state k sched out all_url_infos w :
  schedule sched →
  save_interval (self w) ≠ 0%Z →
  concurrency (self w) ≠ 0%nat →
  denied w = ∅ →
  ∃ w' recorded_infos,
    process_files_killed env cfg k sched out all_url_infos w = (Ok tt, w')
    ∧ recorded_infos `prefix_of` to_probe env cfg all_url_infos w
    ∧ advanced env cfg recorded_infos (start_run env cfg out all_url_infos w).2 w'
    ∧ ((recorded_infos = [] ∧ w' = (start_run env cfg out all_url_infos w).2)
       ∨ (recorded_infos ≠ []
          ∧ (is_Some out → is_Some (checkpoint_file (self w)) → checkpointed w'))).
Proof.
  intros Hsched Hi Hc Hden. unfold process_files_killed. run_M.
  destruct (start_run_run env cfg out all_url_infos w Hden)
    as (plan & w1 & Hstart & Hp1 & Hden1 & Hi1 & Hc1 & Hck1 & Hout1 & Hnil & Hcons & Hcnt).
  rewrite Hstart. simpl.
  destruct (to_probe env cfg all_url_infos w) as [|info todo] eqn:Htodo.
  - destruct Hnil as (r & -> & Hd); [done|].
    exists w1, []. split; [done|]. split; [done|]. split; [apply advanced_refl|].
    by left.
  - destruct Hcons as (-> & Hd & Hh); [done|].
    destruct (batches_of_run (concurrency (self w1)) (info :: todo))
      as (batches & Hb & Hconcat & Hlen); [by rewrite Hc1|].
    rewrite Hb. simpl.
    destruct (process_batches_run env cfg sched (take k batches) 0 w1)
      as (w2 & Hrun & Hadv & Hsaved); [done | by rewrite Hi1 | by rewrite Hden1 |].
    rewrite Hrun.
    exists w2, (concat (take k batches)). split; [done|].
    split; [rewrite <- Hconcat; apply concat_take_prefix|].
    split; [done|].
    destruct (take k batches) as [|batch rest] eqn:Htake.
    + left. split; [done|]. simpl in Hrun. by injection Hrun.
    + right. split.
      * assert (batches !! 0%nat = Some batch) as Hfirst.
        { rewrite <- (take_drop k batches), Htake. done. }
        destruct (batches_nonempty _ _ _ Hb 0%nat batch Hfirst) as [-> Hlt].
        simpl. destruct (concurrency (self w1)) as [|c]; [by rewrite Hc1 in Hc|].
        simpl. done.
      * intros Hout Hck. apply Hsaved; [done|by rewrite Hout1|by rewrite Hck1].
Qed.
End RunFacts.

(** X1.  The buckets [process_files] returns do not depend on the order
    in which the probes of a batch complete: for every schedule they are
    the buckets the run started from, with the outcomes of the records
    to probe appended in the order of the input. *)
Theorem results_follow_input_order (env : Env) (cfg : Config)
    (sched sched' : nat → nat → list nat) (size : nat) (interval : Z)
    (ck out : option str) (d : Disk) (all_url_infos : list url_info) :
  schedule sched → schedule sched' →
  interval ≠ 0%Z → size ≠ 0%nat →
  ∃ r w1 w2,
    process_files env cfg sched out all_url_infos (boot size interval ck d) = (Ok r, w1)
    ∧ process_files env cfg sched' out all_url_infos (boot size interval ck d) = (Ok r, w2)
    ∧ r = record_all env
            (outcome_of env cfg <$> to_probe env cfg all_url_infos (boot size interval ck d))
            match resumed_from cfg (boot size interval ck d),
                  remove_duplicates all_url_infos with
            | Some data, _ :: _ => cp_results data
            | _, _ => empty_results
            end.
Proof.
  intros Hs Hs' Hi Hc.
  destruct (process_files_state env cfg sched out all_url_infos (boot size interval ck d))
    as (r & w1 & Hrun & -> & Hadv); [done..|].
  destruct (process_files_state env cfg sched' out all_url_infos (boot size interval ck d))
    as (r' & w2 & Hrun' & -> & Hadv'); [done..|].
  assert (results (self w1)
          = record_all env
              (outcome_of env cfg <$> to_probe env cfg all_url_infos (boot size interval ck d))
              match resumed_from cfg (boot size interval ck d),
                    remove_duplicates all_url_infos with
              | Some data, _ :: _ => cp_results data
              | _, _ => empty_results
              end) as Hr.
  { rewrite (adv_results _ _ _ _ _ Hadv), start_run_state. f_equal.
    unfold started.
    destruct (resumed_from cfg (boot size interval ck d)) as [data|]; [|done].
    by destruct (remove_duplicates all_url_infos). }
  exists (results (self w1)), w1, w2. split; [done|]. split; [|done].
  rewrite Hrun'. f_equal. f_equal.
  rewrite (adv_results _ _ _ _ _ Hadv'), (adv_results _ _ _ _ _ Hadv). done.
Qed.

Lemma results_follow_input_order_witness :
  ∃ r w1 w2,
    process_files (Script.env Scenario.two_videos) default_config in_order
      (Some Scenario.out_json) [Scenario.one; Scenario.two]
      (boot 200 100 (Some Scenario.checkpoint_pkl) empty_disk) = (Ok r, w1)
    ∧ process_files (Script.env Scenario.two_videos) default_config last_first
        (Some Scenario.out_json) [Scenario.one; Scenario.two]
        (boot 200 100 (Some Scenario.checkpoint_pkl) empty_disk) = (Ok r, w2).
Proof.
  pose proof (results_follow_input_order (Script.env Scenario.two_videos) default_config
                in_order last_first 200 100 (Some Scenario.checkpoint_pkl)
                (Some Scenario.out_json) empty_disk [Scenario.one; Scenario.two]
                in_order_schedule last_first_schedule) as H.
  destruct H as (r & w1 & w2 & H1 & H2 & _); [done | done |].
  exists r, w1, w2. split; [exact H1 | exact H2].
Defined.

(** X2.  A run that resumes no checkpoint records exactly one entry for
    every distinct URL of its input, in the bucket of the status
    [check_url] returned for it.  When it returns, the seen identities are
    the digests of the distinct URLs and [total_urls] is their number. *)
Theorem fresh_run_entries (env : Env) (cfg : Config)
    (sched : nat → nat → list nat) (size : nat) (interval : Z)
    (ck out : option str) (d : Disk) (all_url_infos : list url_info) :
  schedule sched →
  interval ≠ 0%Z → size ≠ 0%nat →
  resumed_from cfg (boot size interval ck d) = None →
  ∃ r w',
    process_files env cfg sched out all_url_infos (boot size interval ck d) = (Ok r, w')
    ∧ e_url <$> entries r ≡ₚ ui_url <$> remove_duplicates all_url_infos
    ∧ (∀ info, info ∈ remove_duplicates all_url_infos →
         entry_of env (outcome_of env cfg info)
         ∈ bucket (out_status (outcome_of env cfg info)) r)
    ∧ processed_url_hashes (self w') = hashes_of env (remove_duplicates all_url_infos)
    ∧ total_urls (self w') = Z.of_nat (length (remove_duplicates all_url_infos)).
Proof.
  intros Hs Hi Hc Hfresh.
  destruct (process_files_state env cfg sched out all_url_infos (boot size interval ck d))
    as (r & w' & Hrun & -> & Hadv); [done..|].
  rewrite (to_probe_fresh env cfg all_url_infos _ Hfresh) in Hadv.
  pose proof (start_run_state env cfg out all_url_infos (boot size interval ck d)) as Hst.
  unfold started in Hst. rewrite Hfresh in Hst.
  exists (results (self w')), w'. split; [done|].
  rewrite (adv_results _ _ _ _ _ Hadv), (adv_hashes _ _ _ _ _ Hadv),
    (adv_total_urls _ _ _ _ _ Hadv), Hst. simpl.
  split; [|split; [|split; [|done]]].
  - rewrite entries_record_all. simpl. rewrite <- !list_fmap_compose.
    assert ((e_url ∘ entry_of env ∘ outcome_of env cfg <$> remove_duplicates all_url_infos)
            = ui_url <$> remove_duplicates all_url_infos) as ->; [|done].
    apply list_fmap_ext. intros _ info _. simpl.
    by rewrite entry_of_url, outcome_of_info.
  - intros info Hin. apply bucket_record_all. by apply list_elem_of_fmap_2.
  - apply (right_id_L ∅ (∪)).
Qed.

Lemma fresh_run_entries_witness :
  ∃ r w',
    process_files (Script.env Scenario.two_videos) default_config in_order
      (Some Scenario.out_json) [Scenario.one; Scenario.two; Scenario.one]
      (boot 200 100 (Some Scenario.checkpoint_pkl) empty_disk) = (Ok r, w')
    ∧ total_urls (self w') = 2%Z.
Proof.
  pose proof (fresh_run_entries (Script.env Scenario.two_videos) default_config
                in_order 200 100 (Some Scenario.checkpoint_pkl)
                (Some Scenario.out_json) empty_disk
                [Scenario.one; Scenario.two; Scenario.one] in_order_schedule) as H.
  destruct H as (r & w' & Hrun & _ & _ & _ & Htotal); [done | done | done |].
  exists r, w'. split; [exact Hrun | exact Htotal].
Defined.

Section ResumeFacts.
Variable env : Env.
Variable cfg : Config.

Lemma filter_none {A} (P : A → Prop) `{!∀ x, Decision (P x)} (l : list A) :
  (∀ x, x ∈ l → ¬ P x) → filter P l = [].
Proof.
  induction l as [|x l IH]; intros Hl; [done|].
  rewrite filter_cons. destruct (decide (P x)) as [Hx|_].
  - destruct (Hl x); [by left | done].
  - apply IH. intros y Hy. apply Hl. by right.
Qed.

Lemma filter_all {A} (P : A → Prop) `{!∀ x, Decision (P x)} (l : list A) :
  (∀ x, x ∈ l → P x) → filter P l = l.
Proof.
  induction l as [|x l IH]; intros Hl; [done|].
  rewrite filter_cons. destruct (decide (P x)) as [_|Hx].
  - f_equal. apply IH. intros y Hy. apply Hl. by right.
  - destruct Hx. apply Hl. by left.
Qed.

Lemma hashes_of_elem info infos :
  info ∈ infos → url_hash env (ui_url info) ∈ hashes_of env infos.
Proof.
  intros Hin. unfold hashes_of. rewrite elem_of_list_to_set.
  apply list_elem_of_fmap. by exists info.
Qed.

Lemma hashes_of_inv h infos :
  h ∈ hashes_of env infos → ∃ info, info ∈ infos ∧ h = url_hash env (ui_url info).
Proof.
  unfold hashes_of. rewrite elem_of_list_to_set.
  intros (info & -> & Hin)%list_elem_of_fmap. by exists info.
Qed.

(** The records whose digest a prefix of a duplicate-free list has
    produced are the records of that prefix. *)
Lemma filter_unseen_suffix (done_infos rest : list url_info) :
  NoDup (ui_url <$> done_infos ++ rest) →
  (∀ info info', info ∈ done_infos ++ rest → info' ∈ done_infos ++ rest →
     url_hash env (ui_url info) = url_hash env (ui_url info') →
     ui_url info = ui_url info') →
  filter (fun info => url_hash env (ui_url info) ∉ hashes_of env done_infos)
    (done_infos ++ rest) = rest.
Proof.
  intros Hnd Hinj. rewrite filter_app.
  rewrite (filter_none _ done_infos), (filter_all _ rest); [done| |].
  - intros info Hin (info' & Hin' & Hh)%hashes_of_inv.
    rewrite fmap_app in Hnd. apply NoDup_app in Hnd as (_ & Hdisj & _).
    apply (Hdisj (ui_url info')); [by apply list_elem_of_fmap_2|].
    rewrite <- (Hinj info info'); [by apply list_elem_of_fmap_2| | |done];
      rewrite elem_of_app; auto.
  - intros info Hin Hno. by apply Hno, hashes_of_elem.
Qed.
End ResumeFacts.

(** X3.  A run killed after any number of batches and then started again
    on the same input, with an output file and a checkpoint file, probes
    between the two runs every distinct URL exactly once, and the buckets
    the second run returns hold exactly one entry per distinct URL, when
    no two URLs of the input share a digest. *)
Theorem interrupted_then_resumed (env : Env) (cfg : Config)
    (sched sched' : nat → nat → list nat) (k size : nat) (interval : Z)
    (ck out : str) (all_url_infos : list url_info) :
  schedule sched → schedule sched' →
  interval ≠ 0%Z → size ≠ 0%nat →
  ENABLE_CHECKPOINT cfg = true →
  (∀ info info', info ∈ all_url_infos → info' ∈ all_url_infos →
     url_hash env (ui_url info) = url_hash env (ui_url info') →
     ui_url info = ui_url info') →
  ∃ w1 r w2,
    process_files_killed env cfg k sched (Some out) all_url_infos
      (boot size interval (Some ck) empty_disk) = (Ok tt, w1)
    ∧ process_files env cfg sched' (Some out) all_url_infos
        (boot size interval (Some ck) (disk w1)) = (Ok r, w2)
    ∧ probed w1 ++ probed w2 ≡ₚ ui_url <$> remove_duplicates all_url_infos
    ∧ e_url <$> entries r ≡ₚ ui_url <$> remove_duplicates all_url_infos.
Proof.
  intros Hs Hs' Hi Hc Hen Hinj.
  set (w := boot size interval (Some ck) empty_disk).
  assert (resumed_from cfg w = None) as Hfresh by done.
  destruct (process_files_killed_state env cfg k sched (Some out) all_url_infos w)
    as (w1 & recorded_infos & Hrun1 & [rest Hsplit] & Hadv1 & Hcase); [done..|].
  rewrite (to_probe_fresh env cfg all_url_infos w Hfresh) in Hsplit.
  pose proof (start_run_state env cfg (Some out) all_url_infos w) as Hst1.
  unfold started in Hst1. rewrite Hfresh in Hst1.
  destruct (start_run_run env cfg (Some out) all_url_infos w eq_refl)
    as (plan & w0 & Hstart & Hp0 & _ & _ & _ & Hck0 & _ & Hnil & Hcons & _).
  rewrite Hstart in Hadv1, Hst1, Hcase. simpl in Hadv1, Hst1, Hcase.
  assert (disk w0 !! ck = None) as Hd0.
  { destruct (to_probe env cfg all_url_infos w) eqn:Htodo.
    - destruct Hnil as (? & _ & ->); [done|].
      by rewrite <- (to_probe_fresh env cfg all_url_infos w Hfresh), Htodo.
    - by destruct Hcons as (_ & -> & _). }
  set (w' := boot size interval (Some ck) (disk w1)).
  destruct (process_files_state env cfg sched' (Some out) all_url_infos w')
    as (r & w2 & Hrun2 & -> & Hadv2); [done..|].
  pose proof (start_run_state env cfg (Some out) all_url_infos w') as Hst2.
  destruct (start_run_run env cfg (Some out) all_url_infos w' eq_refl)
    as (plan' & w0' & Hstart' & Hp0' & _).
  rewrite Hstart' in Hadv2, Hst2. simpl in Hadv2, Hst2.
  exists w1, (results (self w2)), w2. split; [done|]. split; [done|].
  pose proof (adv_probed _ _ _ _ _ Hadv1) as Hprobed1.
  pose proof (adv_probed _ _ _ _ _ Hadv2) as Hprobed2.
  rewrite Hp0 in Hprobed1. rewrite Hp0' in Hprobed2. simpl in Hprobed1, Hprobed2.
  destruct Hcase as [[-> ->] | [Hne Hsaved]].
  - (* killed before the first batch was saved *)
    simpl in Hsplit.
    assert (resumed_from cfg w' = None) as Hfresh'.
    { unfold resumed_from. simpl. by rewrite Hd0. }
    rewrite (to_probe_fresh env cfg all_url_infos w' Hfresh') in Hadv2, Hprobed2.
    unfold started in Hst2. rewrite Hfresh' in Hst2.
    split; [by rewrite Hprobed1, Hprobed2|].
    rewrite (adv_results _ _ _ _ _ Hadv2), Hst2. simpl.
    rewrite entries_record_all. simpl. rewrite <- !list_fmap_compose.
    assert ((e_url ∘ entry_of env ∘ outcome_of env cfg <$> remove_duplicates all_url_infos)
            = ui_url <$> remove_duplicates all_url_infos) as ->; [|done].
    apply list_fmap_ext. intros _ info _. simpl.
    by rewrite entry_of_url, outcome_of_info.
  - (* killed after a batch was saved *)
    specialize (Hsaved ltac:(by eexists) ltac:(by eexists)).
    unfold checkpointed in Hsaved.
    rewrite (adv_checkpoint_file _ _ _ _ _ Hadv1), Hck0 in Hsaved.
    simpl in Hsaved.
    assert (processed_url_hashes (self w1) = hashes_of env recorded_infos) as Hh1.
    { rewrite (adv_hashes _ _ _ _ _ Hadv1), Hst1. simpl. apply (right_id_L ∅ (∪)). }
    assert (results (self w1)
            = record_all env (outcome_of env cfg <$> recorded_infos) empty_results) as Hr1.
    { by rewrite (adv_results _ _ _ _ _ Hadv1), Hst1. }
    rewrite Hh1, Hr1 in Hsaved.
    assert (resumed_from cfg w' = Some {|
              cp_processed_url_hashes := hashes_of env recorded_infos;
              cp_results := record_all env (outcome_of env cfg <$> recorded_infos)
                              empty_results;
              cp_total_urls := total_urls (self w1);
              cp_processed_urls := processed_urls (self w1) |}) as Hres.
    { unfold resumed_from. simpl. by rewrite Hsaved, Hen. }
    assert (to_probe env cfg all_url_infos w' = rest) as Htodo.
    { unfold to_probe. rewrite Hres. simpl. rewrite Hsplit.
      apply filter_unseen_suffix.
      - rewrite <- Hsplit. apply remove_duplicates_from_NoDup.
      - intros info info' Hin Hin'. rewrite <- Hsplit in Hin, Hin'.
        apply Hinj; eapply elem_of_sublist; try done;
          apply remove_duplicates_from_sublist. }
    rewrite Htodo in Hadv2, Hprobed2.
    split.
    { rewrite Hprobed1, Hprobed2, Hsplit, fmap_app. done. }
    rewrite (adv_results _ _ _ _ _ Hadv2), Hst2. unfold started. rewrite Hres.
    rewrite Hsplit.
    destruct (recorded_infos ++ rest) as [|first others] eqn:Happ;
      [by destruct recorded_infos|].
    rewrite <- Happ. simpl. rewrite !entries_record_all.
    change (entries empty_results) with (@nil Entry). simpl.
    assert (∀ l : list url_info,
              e_url <$> (entry_of env <$> (outcome_of env cfg <$> l)) = ui_url <$> l)
      as Hurl.
    { intros l. rewrite <- !list_fmap_compose. apply list_fmap_ext.
      intros _ i _. simpl. by rewrite entry_of_url, outcome_of_info. }
    by rewrite !fmap_app, !Hurl.
Qed.

Lemma interrupted_then_resumed_witness :
  ∃ w1 r w2,
    process_files_killed (Script.env Scenario.two_videos) default_config 1 in_order
      (Some Scenario.out_json) [Scenario.one; Scenario.two; Scenario.one]
      (boot 1 100 (Some Scenario.checkpoint_pkl) empty_disk) = (Ok tt, w1)
    ∧ process_files (Script.env Scenario.two_videos) default_config last_first
        (Some Scenario.out_json) [Scenario.one; Scenario.two; Scenario.one]
        (boot 1 100 (Some Scenario.checkpoint_pkl) (disk w1)) = (Ok r, w2)
    ∧ probed w1 ++ probed w2
      ≡ₚ [lit "http://a.example/one"; lit "http://b.example/two"].
Proof.
  pose proof (interrupted_then_resumed (Script.env Scenario.two_videos) default_config
                in_order last_first 1 1 100 Scenario.checkpoint_pkl Scenario.out_json
                [Scenario.one; Scenario.two; Scenario.one]
                in_order_schedule last_first_schedule) as H.
  destruct H as (w1 & r & w2 & H1 & H2 & H3 & _);
    [done | done | done | intros info info' _ _ Hh; exact Hh |].
  exists w1, r, w2. split; [exact H1|]. split; [exact H2 | exact H3].
Defined.

Section DiskFacts.
Variable env : Env.
Variable cfg : Config.

Lemma progress_no_output w :
  output_file (self w) = None → disk (progress env cfg w) = disk w.
Proof.
  intros Hout. unfold progress, update_progress, py_mod. run_M.
  destruct (Z.eqb_spec (save_interval (self w)) 0); simpl; [done|].
  destruct (_ && _); [|done].
  unfold save_intermediate_results. run_M. by rewrite Hout.
Qed.

Lemma probe_effect_no_output info w :
  output_file (self w) = None →
  disk (probe_effect env cfg info w) = disk w
  ∧ output_file (self (probe_effect env cfg info w)) = None.
Proof.
  intros Hout. split.
  - unfold probe_effect. destruct (falls_through env cfg info); [|done].
    by rewrite progress_no_output.
  - destruct (probe_effect_self env cfg info w) as [n ->]. done.
Qed.

Lemma effects_no_output infos : ∀ w,
  output_file (self w) = None → disk (effects env cfg infos w) = disk w.
Proof.
  induction infos as [|info infos IH]; intros w Hout; [done|].
  destruct (probe_effect_no_output info w Hout) as [Hd Ho].
  by rewrite effects_cons, IH, Hd.
Qed.

Lemma process_batches_no_output sched batches : ∀ k w,
  schedule sched →
  save_interval (self w) ≠ 0%Z →
  denied w = ∅ →
  output_file (self w) = None →
  disk (process_batches env cfg sched k batches w).2 = disk w.
Proof.
  induction batches as [|batch batches IH]; intros k w Hsched Hi Hden Hout; [done|].
  destruct (batch_run env cfg (sched k (length batch)) batch w)
    as (w1 & Hrun & Hadv & _); [apply Hsched | done | done |].
  assert (disk w1 = disk w) as Hd1.
  { revert Hrun. run_M.
    rewrite gather_run by (done || apply Hsched || by apply can_save_empty).
    destruct (record_results_run env (outcome_of env cfg <$> batch)
                (effects env cfg (tasks_of (sched k (length batch)) batch) w))
      as (w2 & -> & Hd2 & _ & Hden2 & Hs2).
    assert (output_file (self w2) = None) as Hout2.
    { rewrite Hs2. simpl.
      destruct (effects_self env cfg (tasks_of (sched k (length batch)) batch) w)
        as [n ->]. done. }
    rewrite save_intermediate_results_ok
      by (intros out path Ho; by rewrite Hout2 in Ho).
    intros [= <-].
    rewrite saved_no_output by done. by rewrite Hd2, effects_no_output. }
  rewrite <- Hd1, <- (IH (S k) w1);
    [| done | by rewrite (adv_save_interval _ _ _ _ _ Hadv)
     | by rewrite (adv_denied _ _ _ _ _ Hadv)
     | by rewrite (adv_output_file _ _ _ _ _ Hadv)].
  simpl. revert Hrun. run_M.
  destruct (gather env cfg _ batch w) as [[outcomes|e] wg]; [|done].
  destruct (record_results env outcomes wg) as [[[]|e] wr]; [|done].
  destruct (save_intermediate_results env cfg wr) as [[[]|e] ws]; [|done].
  by intros [= ->].
Qed.

Lemma start_run_no_output all_url_infos w :
  disk (start_run env cfg None all_url_infos w).2 = disk w.
Proof.
  unfold start_run, load_checkpoint. run_M.
  destruct (remove_duplicates all_url_infos) as [|info unique] eqn:Hu; [done|].
  destruct (Z.eqb_spec (Z.of_nat (length (info :: unique))) 0) as [He|_];
    [simpl in He; lia|].
  destruct (checkpoint_file (self w)) as [ck|] eqn:Hck; simpl;
    [destruct (disk w !! ck) as [[]|] eqn:Hd;
     destruct (ENABLE_CHECKPOINT cfg) eqn:Hen|];
    do 3 (run_M; rewrite ?Hck; simpl; rewrite ?Hd); try done.
  by destruct (filter _ (info :: unique)).
Qed.
End DiskFacts.

(** X4.  Without an output file a run writes nothing: however many
    batches of probes have been recorded when the process is killed, the
    disk is as it was, also when a checkpoint file is configured, so that
    nothing of the run can be resumed. *)
Theorem no_output_no_checkpoint (env : Env) (cfg : Config)
    (sched : nat → nat → list nat) (k size : nat) (interval : Z)
    (ck : option str) (d : Disk) (all_url_infos : list url_info) :
  schedule sched →
  interval ≠ 0%Z → size ≠ 0%nat →
  ∃ w',
    process_files_killed env cfg k sched None all_url_infos (boot size interval ck d)
    = (Ok tt, w')
    ∧ disk w' = d.
Proof.
  intros Hs Hi Hc. set (w := boot size interval ck d).
  destruct (process_files_killed_state env cfg k sched None all_url_infos w)
    as (w' & recorded_infos & Hrun & _ & _ & _); [done..|].
  exists w'. split; [done|].
  revert Hrun. unfold process_files_killed. run_M.
  destruct (start_run_run env cfg None all_url_infos w eq_refl)
    as (plan & w1 & Hstart & _ & Hden1 & Hi1 & Hc1 & _ & Hout1 & Hnil & Hcons & _).
  rewrite Hstart. simpl.
  assert (disk w1 = d) as Hd1.
  { pose proof (start_run_no_output env cfg all_url_infos w) as Hd.
    by rewrite Hstart in Hd. }
  destruct (to_probe env cfg all_url_infos w) as [|info todo] eqn:Htodo.
  - destruct Hnil as (r & -> & _); [done|]. by intros [= <-].
  - destruct Hcons as (-> & _ & _); [done|].
    destruct (batches_of_run (concurrency (self w1)) (info :: todo))
      as (batches & -> & _ & _); [by rewrite Hc1|].
    simpl.
    pose proof (process_batches_no_output env cfg sched (take k batches) 0 w1 Hs) as Hd.
    destruct (process_batches env cfg sched 0 (take k batches) w1) as [res w2].
    simpl in Hd. destruct res as [[]|e]; [|done]. intros [= <-].
    rewrite Hd; [done | by rewrite Hi1 | by rewrite Hden1 | done].
Qed.

Lemma no_output_no_checkpoint_witness :
  ∃ w',
    process_files_killed (Script.env Scenario.two_videos) default_config 1 in_order
      None [Scenario.one; Scenario.two]
      (boot 1 1 (Some Scenario.checkpoint_pkl) empty_disk) = (Ok tt, w')
    ∧ disk w' = empty_disk.
Proof.
  pose proof (no_output_no_checkpoint (Script.env Scenario.two_videos) default_config
                in_order 1 1 1 (Some Scenario.checkpoint_pkl) empty_disk
                [Scenario.one; Scenario.two] in_order_schedule) as H.
  destruct H as (w' & Hrun & Hd); [done | done |].
  exists w'. split; [exact Hrun | exact Hd].
Defined.

Section EndFacts.
Variable env : Env.
Variable cfg : Config.

Lemma process_files_nothing_left sched out all_url_infos w :
  denied w = ∅ →
  to_probe env cfg all_url_infos w = [] →
  process_files env cfg sched out all_url_infos w
  = (Ok (results (self (start_run env cfg out all_url_infos w).2)),
     (start_run env cfg out all_url_infos w).2)
  ∧ disk (start_run env cfg out all_url_infos w).2
    = match out, remove_duplicates all_url_infos with
      | Some output_file, _ :: _ =>
          results_written env cfg output_file
            (total_urls (self (start_run env cfg out all_url_infos w).2))
            (results (self (start_run env cfg out all_url_infos w).2)) (disk w)
      | _, _ => disk w
      end
  ∧ probed (start_run env cfg out all_url_infos w).2 = probed w.
Proof.
  intros Hden Htodo. unfold process_files. run_M.
  destruct (start_run_run env cfg out all_url_infos w Hden)
    as (plan & w1 & Hstart & Hp1 & _ & _ & _ & _ & _ & Hnil & _).
  destruct (Hnil Htodo) as (r & -> & Hd).
  rewrite Hstart. simpl.
  by rewrite (start_run_finished env cfg out all_url_infos w r w1 Hstart).
Qed.

Lemma process_files_drain sched out all_url_infos w :
  schedule sched →
  save_interval (self w) ≠ 0%Z →
  concurrency (self w) ≠ 0%nat →
  denied w = ∅ →
  to_probe env cfg all_url_infos w ≠ [] →
  ∃ w2 w3,
    advanced env cfg (to_probe env cfg all_url_infos w)
      (start_run env cfg out all_url_infos w).2 w2
    ∧ process_files env cfg sched out all_url_infos w = (Ok (results (self w2)), w3)
    ∧ self w3 = self w2
    ∧ disk w3 = finished_disk env cfg (self w2) (disk w2)
    ∧ output_file (self w2) = out
    ∧ checkpoint_file (self w2) = checkpoint_file (self w).
Proof.
  intros Hsched Hi Hc Hden Htodo. unfold process_files. run_M.
  destruct (start_run_run env cfg out all_url_infos w Hden)
    as (plan & w1 & Hstart & _ & Hden1 & Hi1 & Hc1 & Hck1 & Hout1 & _ & Hcons & _).
  destruct (Hcons Htodo) as (-> & Hd & _).
  rewrite Hstart. simpl.
  destruct (batches_of_run (concurrency (self w1)) (to_probe env cfg all_url_infos w))
    as (batches & -> & Hconcat & _); [by rewrite Hc1|].
  destruct (process_batches_run env cfg sched batches 0 w1) as (w2 & -> & Hadv & _);
    [done | by rewrite Hi1 | by rewrite Hden1 |].
  destruct (finish_run_run env cfg w2) as (w3 & -> & Hs3 & _ & _ & Hd3);
    [by rewrite (adv_denied _ _ _ _ _ Hadv), Hden1|].
  exists w2, w3. rewrite Hconcat in Hadv.
  split; [done|]. split; [done|]. split; [done|]. split; [done|].
  split.
  - by rewrite (adv_output_file _ _ _ _ _ Hadv).
  - by rewrite (adv_checkpoint_file _ _ _ _ _ Hadv).
Qed.
End EndFacts.

(** X5.  With an output file, a run over a non-empty input ends with the
    final list of the valid bucket it returns on the disk, also when a
    checkpoint left nothing to probe.  With [KEEP_ONLY_FINAL_FILE], the
    shipped setting, the JSON document, the valid list and the grouped
    list are gone again when the run returns; without it the JSON document
    holds the total and the buckets the run returns.  Over an empty input
    the run returns the empty buckets and writes nothing.  The four files
    of results are taken to bear four paths, none of which is the
    checkpoint file. *)
Theorem output_written_unless_empty (env : Env) (cfg : Config)
    (sched : nat → nat → list nat) (size : nat) (interval : Z)
    (ck : option str) (out : str) (d : Disk) (all_url_infos : list url_info) :
  schedule sched →
  interval ≠ 0%Z → size ≠ 0%nat →
  NoDup (result_files env out) →
  (∀ path, ck = Some path → path ∉ result_files env out) →
  ∃ r w',
    process_files env cfg sched (Some out) all_url_infos (boot size interval ck d)
    = (Ok r, w')
    ∧ match all_url_infos with
      | [] => r = empty_results ∧ disk w' = d
      | _ :: _ =>
          disk w' !! final_file env out
          = Some (FinalList (INCLUDE_AGGREGATED_SECTION cfg) (r_valid r))
          ∧ (KEEP_ONLY_FINAL_FILE cfg = true →
             ∀ path, path ∈ [out; valid_file env out; grouped_file env out] →
                     disk w' !! path = None)
          ∧ (KEEP_ONLY_FINAL_FILE cfg = false →
             disk w' !! out = Some (ResultsJson (total_urls (self w')) r))
      end.
Proof.
  intros Hs Hi Hc Hfour Hck. set (w := boot size interval ck d).
  destruct all_url_infos as [|info all_url_infos]; [by eexists _, _|].
  set (all := info :: all_url_infos).
  assert ((final_file env out ∉ [out; valid_file env out; grouped_file env out])
          ∧ (out ∉ [valid_file env out; grouped_file env out; final_file env out]))
    as [Hfinal Hjson].
  { unfold result_files in Hfour.
    apply NoDup_cons in Hfour as [H1 Hfour]. apply NoDup_cons in Hfour as [H2 Hfour].
    apply NoDup_cons in Hfour as [H3 _].
    split; [|exact H1]. intros Hin.
    apply elem_of_cons in Hin as [Heq|Hin].
    { apply H1. do 2 (apply elem_of_cons; right). apply elem_of_cons. by left. }
    apply elem_of_cons in Hin as [Heq|Hin].
    { apply H2. apply elem_of_cons; right. apply elem_of_cons. by left. }
    apply elem_of_cons in Hin as [Heq|Hin]; [|by apply elem_of_nil in Hin].
    apply H3. apply elem_of_cons. by left. }
  destruct (decide (to_probe env cfg all w = [])) as [Htodo|Htodo].
  - destruct (process_files_nothing_left env cfg sched (Some out) all w eq_refl Htodo)
      as (Hrun & Hd & _).
    eexists _, _. split; [exact Hrun|].
    change (remove_duplicates all)
      with (info :: remove_duplicates_from ({[ui_url info]} ∪ ∅) all_url_infos) in Hd.
    rewrite Hd. split; [by apply results_written_final|].
    split; [intros Hkeep path Hp; by apply results_written_removed|].
    intros Hkeep. by apply results_written_json.
  - destruct (process_files_drain env cfg sched (Some out) all w)
      as (w2 & w3 & Hadv & Hrun & Hs3 & Hd3 & Hout2 & Hck2); [done..|].
    exists (results (self w2)), w3. split; [exact Hrun|].
    rewrite Hd3, Hs3. unfold finished_disk. rewrite Hout2, Hck2. simpl.
    destruct ck as [path|].
    + specialize (Hck path eq_refl). unfold result_files in Hck.
      split; [|split].
      * rewrite lookup_delete_ne by set_solver. by apply results_written_final.
      * intros Hkeep p Hp. destruct (decide (path = p)) as [->|Hne].
        -- apply lookup_delete_eq.
        -- rewrite lookup_delete_ne by done. by apply results_written_removed.
      * intros Hkeep. rewrite lookup_delete_ne by set_solver.
        by apply results_written_json.
    + split; [by apply results_written_final|].
      split; [intros Hkeep p Hp; by apply results_written_removed|].
      intros Hkeep. by apply results_written_json.
Qed.

Lemma output_written_unless_empty_witness :
  ∃ r w',
    process_files (Script.env Scenario.two_videos) default_config in_order
      (Some Scenario.out_json) [Scenario.one; Scenario.two]
      (boot 200 100 None empty_disk) = (Ok r, w')
    ∧ disk w' !! lit "out_final.txt" = Some (FinalList false (r_valid r))
    ∧ disk w' !! lit "out.json" = None.
Proof.
  pose proof (output_written_unless_empty (Script.env Scenario.two_videos)
                default_config in_order 200 100 None Scenario.out_json empty_disk
                [Scenario.one; Scenario.two] in_order_schedule) as H.
  destruct H as (r & w' & Hrun & Hfinal & Hgone & _).
  - done.
  - done.
  - apply (bool_decide_unpack _). by vm_compute.
  - done.
  - exists r, w'. split; [exact Hrun|]. split; [exact Hfinal|].
    apply Hgone; [done|]. apply elem_of_cons. by left.
Defined.

(** X6.  A run that resumes a checkpoint goes on from the checkpoint's
    state: it returns the checkpoint's buckets with the new outcomes
    appended, the completed counter goes on from the checkpoint's, the
    seen identities are the checkpoint's and those of the records probed,
    and [total_urls] is the total stored in the checkpoint, not the number
    of distinct URLs of the present input. *)
Theorem resumed_run_continues (env : Env) (cfg : Config)
    (sched : nat → nat → list nat) (size : nat) (interval : Z)
    (ck out : option str) (d : Disk) (all_url_infos : list url_info)
    (data : CheckpointData) :
  schedule sched →
  interval ≠ 0%Z → size ≠ 0%nat →
  resumed_from cfg (boot size interval ck d) = Some data →
  all_url_infos ≠ [] →
  ∃ r w',
    process_files env cfg sched out all_url_infos (boot size interval ck d) = (Ok r, w')
    ∧ (∀ st e, e ∈ bucket st (cp_results data) → e ∈ bucket st r)
    ∧ e_url <$> entries r
      ≡ₚ (e_url <$> entries (cp_results data))
         ++ (ui_url <$> to_probe env cfg all_url_infos (boot size interval ck d))
    ∧ total_urls (self w') = cp_total_urls data
    ∧ processed_urls (self w')
      = (cp_processed_urls data
         + Z.of_nat (counted env cfg
                       (to_probe env cfg all_url_infos (boot size interval ck d))))%Z
    ∧ processed_url_hashes (self w')
      = hashes_of env (to_probe env cfg all_url_infos (boot size interval ck d))
        ∪ cp_processed_url_hashes data.
Proof.
  intros Hs Hi Hc Hres Hne. set (w := boot size interval ck d).
  destruct (process_files_state env cfg sched out all_url_infos w)
    as (r & w' & Hrun & -> & Hadv); [done..|].
  pose proof (start_run_state env cfg out all_url_infos w) as Hst.
  unfold started in Hst. fold w in Hres. rewrite Hres in Hst.
  destruct all_url_infos as [|info all_url_infos]; [done|].
  change (remove_duplicates (info :: all_url_infos))
    with (info :: remove_duplicates_from ({[ui_url info]} ∪ ∅) all_url_infos) in Hst.
  exists (results (self w')), w'. split; [done|].
  rewrite (adv_results _ _ _ _ _ Hadv), (adv_total_urls _ _ _ _ _ Hadv),
    (adv_processed_urls _ _ _ _ _ Hadv), (adv_hashes _ _ _ _ _ Hadv), Hst.
  simpl. split; [|split; [|done]].
  - intros st e He. by apply bucket_record_all_keeps.
  - rewrite entries_record_all, fmap_app. apply Permutation_app_head.
    rewrite <- !list_fmap_compose.
    assert (∀ l : list url_info,
              e_url ∘ entry_of env ∘ outcome_of env cfg <$> l = ui_url <$> l) as ->;
      [|done].
    intros l. apply list_fmap_ext. intros _ i _. simpl.
    by rewrite entry_of_url, outcome_of_info.
Qed.

Lemma resumed_run_continues_witness :
  ∃ r w',
    process_files (Script.env Scenario.two_videos) default_config in_order
      (Some Scenario.out_json) [Scenario.one; Scenario.two]
      (boot 200 100 (Some Scenario.checkpoint_pkl) Cases.disk_one_done) = (Ok r, w')
    ∧ total_urls (self w') = 3%Z.
Proof.
  pose proof (resumed_run_continues (Script.env Scenario.two_videos) default_config
                in_order 200 100 (Some Scenario.checkpoint_pkl)
                (Some Scenario.out_json) Cases.disk_one_done
                [Scenario.one; Scenario.two] Cases.one_done in_order_schedule) as H.
  destruct H as (r & w' & Hrun & _ & _ & Htotal & _); [done | done | done | done |].
  exists r, w'. split; [exact Hrun | exact Htotal].
Defined.

(** X7.  When the checkpoint a run resumes already holds the digest of
    every distinct URL of the input, the run probes nothing and returns
    the checkpoint's buckets.  All it does to the disk is to save these
    buckets, if it has an output file; it does not remove the checkpoint
    file, which is still there with its content when it is none of the
    files of results. *)
Theorem nothing_left_keeps_checkpoint (env : Env) (cfg : Config)
    (sched : nat → nat → list nat) (size : nat) (interval : Z)
    (ck out : option str) (d : Disk) (all_url_infos : list url_info)
    (data : CheckpointData) :
  resumed_from cfg (boot size interval ck d) = Some data →
  all_url_infos ≠ [] →
  hashes_of env (remove_duplicates all_url_infos) ⊆ cp_processed_url_hashes data →
  ∃ w',
    process_files env cfg sched out all_url_infos (boot size interval ck d)
    = (Ok (cp_results data), w')
    ∧ probed w' = []
    ∧ disk w'
      = match out with
        | Some output_file =>
            results_written env cfg output_file (cp_total_urls data)
              (cp_results data) d
        | None => d
        end
    ∧ ((∀ path output_file, ck = Some path → out = Some output_file →
          path ∉ result_files env output_file) →
       checkpoint_at ck (disk w') = Some (Pickled data)).
Proof.
  intros Hres Hne Hcov. set (w := boot size interval ck d). fold w in Hres.
  pose proof (to_probe_covered env cfg all_url_infos w data Hres Hcov) as Htodo.
  destruct (process_files_nothing_left env cfg sched out all_url_infos w eq_refl Htodo)
    as (Hrun & Hd & Hp).
  pose proof (start_run_state env cfg out all_url_infos w) as Hst.
  unfold started in Hst. rewrite Hres in Hst.
  destruct (remove_duplicates all_url_infos) as [|first others] eqn:Hunique;
    [by destruct all_url_infos|].
  exists (start_run env cfg out all_url_infos w).2.
  rewrite Hrun, Hp, Hd, Hst. simpl.
  split; [done|]. split; [done|]. split; [done|].
  assert (checkpoint_at ck d = Some (Pickled data)) as Hfile.
  { unfold resumed_from in Hres. simpl in Hres.
    destruct (checkpoint_at ck d) as [[]|]; try done.
    destruct (ENABLE_CHECKPOINT cfg); [|done]. by injection Hres as ->. }
  intros Hother. destruct ck as [path|]; [|done]. simpl in *.
  destruct out as [output_file|]; [|done].
  rewrite results_written_other; [done|]. by apply Hother.
Qed.

Lemma nothing_left_keeps_checkpoint_witness :
  ∃ w',
    process_files (Script.env Scenario.two_videos) default_config in_order
      (Some Scenario.out_json) [Scenario.one; Scenario.one]
      (boot 200 100 (Some Scenario.checkpoint_pkl) Cases.disk_one_done)
    = (Ok (cp_results Cases.one_done), w')
    ∧ probed w' = [].
Proof.
  pose proof (nothing_left_keeps_checkpoint (Script.env Scenario.two_videos)
                default_config in_order 200 100 (Some Scenario.checkpoint_pkl)
                (Some Scenario.out_json) Cases.disk_one_done
                [Scenario.one; Scenario.one] Cases.one_done) as H.
  destruct H as (w' & Hrun & Hp & _); [done | done | |].
  - vm_compute. intros x Hx. exact Hx.
  - exists w'. split; [exact Hrun | exact Hp].
Defined.

(** A checkpoint file that is one of the files of results is lost in
    such a run: the final list takes its place. *)
Lemma checkpoint_overwritten_by_final_list :
  let d : Disk := {[ lit "out_final.txt" := Pickled Cases.one_done ]} in
  let run := process_files (Script.env Scenario.two_videos) default_config in_order
               (Some Scenario.out_json) [Scenario.one; Scenario.one]
               (boot 200 100 (Some (lit "out_final.txt")) d) in
  run.1 = Ok (cp_results Cases.one_done)
  ∧ probed run.2 = []
  ∧ disk run.2 !! lit "out_final.txt"
    = Some (FinalList false (r_valid (cp_results Cases.one_done))).
Proof. by vm_compute. Qed.

(** X8.  The batches of a run are consecutive slices of the records to
    probe that cover them in order; every batch holds at least one and at
    most [concurrency] records, and every batch but the last holds
    exactly [concurrency]. *)
Theorem batches_bounded (size : nat) (url_infos : list url_info) :
  size ≠ 0%nat →
  ∃ batches,
    batches_of size url_infos = Ok batches
    ∧ concat batches = url_infos
    ∧ ∀ i batch, batches !! i = Some batch →
        batch = take size (drop (i * size) url_infos)
        ∧ (0 < length batch <= size)%nat
        ∧ ((S i < length batches)%nat → length batch = size).
Proof.
  intros Hs.
  destruct (batches_of_run size url_infos Hs) as (batches & Hb & Hconcat & _).
  exists batches. split; [done|]. split; [done|].
  intros i batch Hi.
  destruct (batches_nonempty size url_infos batches Hb i batch Hi) as [-> Hlt].
  split; [done|]. rewrite length_take, length_drop. split; [lia|].
  intros Hnext. destruct (lookup_lt_is_Some_2 batches (S i) Hnext) as [next Hn].
  destruct (batches_nonempty size url_infos batches Hb (S i) next Hn) as [_ Hlt'].
  simpl in Hlt'. lia.
Qed.

Lemma batches_bounded_witness :
  ∃ batches,
    batches_of 2 [Scenario.one; Scenario.two; Scenario.channel] = Ok batches
    ∧ concat batches = [Scenario.one; Scenario.two; Scenario.channel].
Proof.
  pose proof (batches_bounded 2 [Scenario.one; Scenario.two; Scenario.channel]) as H.
  destruct H as (batches & Hb & Hc & _); [done|].
  exists batches. split; [exact Hb | exact Hc].
Defined.

(** X9.  A checker built with concurrency 0 cannot probe: as soon as a
    record is left to probe, [process_files] raises the [ValueError] of
    [range] with a zero step, before any probe is made and before
    anything is written. *)
Theorem zero_concurrency_raises (env : Env) (cfg : Config)
    (sched : nat → nat → list nat) (interval : Z)
    (ck out : option str) (d : Disk) (all_url_infos : list url_info) :
  to_probe env cfg all_url_infos (boot 0 interval ck d) ≠ [] →
  ∃ w',
    process_files env cfg sched out all_url_infos (boot 0 interval ck d)
    = (Raise ValueError_range, w')
    ∧ probed w' = []
    ∧ disk w' = d.
Proof.
  intros Htodo. set (w := boot 0 interval ck d).
  destruct (start_run_run env cfg out all_url_infos w eq_refl)
    as (plan & w1 & Hstart & Hp1 & _ & _ & Hc1 & _ & _ & _ & Hcons & _).
  destruct (Hcons Htodo) as (-> & Hd & _).
  exists w1. unfold process_files. run_M. rewrite Hstart. simpl.
  unfold batches_of. rewrite Hc1. simpl. by rewrite Hp1, Hd.
Qed.

Lemma zero_concurrency_raises_witness :
  ∃ w',
    process_files (Script.env Scenario.two_videos) default_config in_order None
      [Scenario.one] (boot 0 100 None empty_disk)
    = (Raise ValueError_range, w').
Proof.
  pose proof (zero_concurrency_raises (Script.env Scenario.two_videos) default_config
                in_order 100 None None empty_disk [Scenario.one]) as H.
  destruct H as (w' & Hrun & _); [done|].
  exists w'. exact Hrun.
Defined.

(** X10.  With a save interval of 0, [check_url] raises
    [ZeroDivisionError] for every record that reaches the end of its
    [try] statement, after it has counted the record; a record that
    returns early (a URL without scheme or host, or one handed to
    ffprobe) still returns its tuple. *)
Theorem zero_save_interval_raises (env : Env) (cfg : Config)
    (info : url_info) (w : World) :
  save_interval (self w) = 0%Z →
  if falls_through env cfg info then
    ∃ w', check_url env cfg info w = (Raise ZeroDivisionError, w')
          ∧ processed_urls (self w') = (processed_urls (self w) + 1)%Z
          ∧ disk w' = disk w
  else
    ∃ w', check_url env cfg info w = (Ok (outcome_of env cfg info), w')
          ∧ self w' = self w ∧ disk w' = disk w.
Proof.
  intros Hi. unfold falls_through, outcome_of, check_url, update_progress, py_mod.
  run_M. destruct (attempt env cfg info) as [o|st msg]; run_M.
  - by eexists.
  - rewrite Hi. simpl. by eexists.
Qed.

Lemma zero_save_interval_raises_witness :
  ∃ w',
    check_url (Script.env Scenario.two_videos) default_config Scenario.one
      (boot 1 0 None empty_disk) = (Raise ZeroDivisionError, w').
Proof.
  pose proof (zero_save_interval_raises (Script.env Scenario.two_videos)
                default_config Scenario.one (boot 1 0 None empty_disk)) as H.
  destruct H as (w' & Hrun & _); [done|].
  exists w'. exact Hrun.
Defined.

Section VerdictFacts.
Variable env : Env.
Variable cfg : Config.

Lemma validate_flv_total b : ∃ r, _validate_flv b = Ok r.
Proof.
  unfold _validate_flv.
  destruct (length b <? 9)%nat eqn:Hlen; [by eauto|].
  apply Nat.ltb_ge in Hlen.
  destruct b as [|b0 [|b1 [|b2 [|b3 [|b4 rest]]]]]; simpl in Hlen; try lia.
  destruct (startswith _ (blit "FLV")); simpl; [|by eauto].
  destruct (Byte.to_N b3 =? 1); simpl; [|by eauto].
  destruct (member _ _); simpl; [|by eauto].
  destruct (from_bytes_big _ =? 9); simpl; by eauto.
Qed.

Lemma check_segments_verdict segments : ∀ i,
  (check_segments env i segments).2 = None
  ↔ (check_segments env i segments).1 = true.
Proof.
  induction segments as [|segment segments IH]; intros i; simpl; [done|].
  destruct (session_head env segment) as [st|e]; [|done].
  destruct (400 <=? st)%Z; [done|]. apply IH.
Qed.

Lemma validate_media_playlist_verdict url content verdict :
  _validate_media_playlist env cfg url content = Ok verdict →
  verdict.2 = None ↔ verdict.1 = true.
Proof.
  unfold _validate_media_playlist. run_M.
  destruct (media_segments env url (splitlines content)) as [segments|e]; [|done].
  simpl. destruct segments as [|segment segments]; intros [= <-]; [done|].
  apply check_segments_verdict.
Qed.

Lemma validate_m3u8_verdict url content verdict :
  _validate_m3u8 env cfg url content = Ok verdict →
  verdict.2 = None ↔ verdict.1 = true.
Proof.
  unfold _validate_m3u8.
  destruct (VALIDATE_M3U8_CONTENT cfg && negb (startswith content (lit "#EXTM3U")));
    [by intros [= <-]|].
  destruct (contains content (lit "#EXT-X-STREAM-INF"));
    [|apply validate_media_playlist_verdict].
  run_M. destruct (variant_urls env url (splitlines content)) as [variants|e]; [|done].
  simpl. destruct variants as [|variant variants]; [by intros [= <-]|].
  destruct (session_get env variant) as [response|e]; simpl; [|by intros [= <-]].
  destruct (400 <=? status response)%Z; [by intros [= <-]|].
  destruct (text response) as [body|e]; simpl; [|by intros [= <-]].
  destruct (_validate_media_playlist env cfg variant body) as [v|e] eqn:Hv;
    intros [= <-]; [|done].
  by apply (validate_media_playlist_verdict variant body).
Qed.

Lemma validate_with_ffprobe_verdict url :
  (_validate_with_ffprobe env url).2 = None
  ↔ (_validate_with_ffprobe env url).1 = true.
Proof.
  unfold _validate_with_ffprobe.
  destruct (run_ffprobe env url) as [e| |returncode stderr stdout]; try done.
  destruct (negb (returncode =? 0)%Z); [done|].
  destruct stdout as [|e|[|codec codecs]]; try done.
  by destruct (_ || _).
Qed.

Lemma check_stream_content_total content_bytes url :
  ∃ b, _check_stream_content env content_bytes url = Ok b.
Proof.
  unfold _check_stream_content, any_signature.
  destruct (validate_flv_total content_bytes) as [flv Hflv].
  repeat (destruct (endswith _ _); [by (eauto || destruct (decode_utf8 _); eauto)|]).
  rewrite Hflv. run_M.
  by destruct (contains _ _), (startswith content_bytes (blit "#EXTM3U")),
    (startswith content_bytes [x47]), (contains content_bytes (blit "ftyp")), flv;
    eauto.
Qed.

Lemma classify_response_verdict url likely response st msg :
  classify_response env cfg url likely response = Ok (st, msg) →
  msg = None ↔ st = valid.
Proof.
  unfold classify_response.
  destruct (status response <? 400)%Z; [|by intros [= <- <-]].
  destruct (_ && DEEP_VALIDATION cfg).
  { run_M. destruct (text response) as [content|e]; [|done]. simpl.
    destruct (_validate_m3u8 env cfg url content) as [verdict|e] eqn:Hv; [|done].
    simpl. pose proof (validate_m3u8_verdict url content verdict Hv) as Hiff.
    destruct verdict as [[] detail]; intros [= <- <-]; [done|].
    simpl in Hiff. split; [|done]. intros Hd. by apply Hiff in Hd. }
  destruct (_ && VALIDATE_OTHER_STREAMS cfg).
  { run_M. destruct (read response 12) as [preview|e]; [|done]. simpl.
    destruct (_validate_flv preview) as [[]|e]; by intros [= <- <-]. }
  destruct (existsb _ stream_content_types); [by intros [= <- <-]|].
  destruct (VALIDATE_OTHER_STREAMS cfg).
  { run_M. destruct (read response 1024) as [preview|e]; [|done]. simpl.
    destruct (_check_stream_content env preview url) as [[]|e]; [| |done];
      [by intros [= <- <-]|].
    simpl. by destruct likely; intros [= <- <-]. }
  by destruct likely; intros [= <- <-].
Qed.

Lemma request_verdict url likely :
  (request env cfg url likely).2 = None ↔ (request env cfg url likely).1 = valid.
Proof.
  unfold request. run_M.
  destruct (session_get env url) as [response|e]; simpl.
  - destruct (classify_response env cfg url likely response) as [[st msg]|e] eqn:Hc.
    + by apply (classify_response_verdict url likely response).
    + unfold caught. by destruct (exn_timeout e).
  - unfold caught. by destruct (exn_timeout e).
Qed.
End VerdictFacts.

(** X11.  The tuple [check_url] returns carries an error text exactly
    when its status is not "valid": the error message is [None] if and
    only if the status is "valid", whatever the network answers. *)
Theorem error_unless_valid (env : Env) (cfg : Config) (info : url_info) :
  out_error (outcome_of env cfg info) = None
  ↔ out_status (outcome_of env cfg info) = valid.
Proof.
  unfold outcome_of, attempt.
  destruct (urlparse env (ui_url info)) as [[scheme netloc]|e]; [|done].
  destruct (negb (truthy scheme) || negb (truthy netloc)); [done|].
  destruct (startswith _ _ && USE_FFPROBE cfg).
  - pose proof (validate_with_ffprobe_verdict env (ui_url info)) as Hiff.
    unfold out_error, out_status. simpl.
    destruct (_validate_with_ffprobe env (ui_url info)) as [[] detail]; [done|].
    simpl in *. split; [|done]. intros Hd. by apply Hiff in Hd.
  - apply request_verdict.
Qed.

(** X12.  [_validate_with_ffprobe] accepts a URL exactly when ffprobe
    exits with code 0 and its JSON output lists a stream of type video or
    audio; in every other case (the subprocess fails to start, times
    out, exits with another code, prints no JSON or no such stream) it
    returns [False] with an error text. *)
Theorem ffprobe_accepts (env : Env) (url : str) :
  ((_validate_with_ffprobe env url).1 = true
   ↔ ∃ stderr codec_types,
       run_ffprobe env url = FfExited 0 stderr (JsonStreams codec_types)
       ∧ (Some (lit "video") ∈ codec_types ∨ Some (lit "audio") ∈ codec_types))
  ∧ ((_validate_with_ffprobe env url).1 = false
     → ∃ detail, (_validate_with_ffprobe env url).2 = Some detail).
Proof.
  unfold _validate_with_ffprobe.
  destruct (run_ffprobe env url) as [e| |returncode stderr stdout].
  - split; [|by eauto]. split; [done|]. by intros (? & ? & ? & _).
  - split; [|by eauto]. split; [done|]. by intros (? & ? & ? & _).
  - destruct (Z.eqb_spec returncode 0) as [->|Hrc]; simpl.
    2:{ split; [|by eauto]. split; [done|]. intros (? & ? & [= ? _] & _). done. }
    destruct stdout as [|e|codec_types].
    + split; [|by eauto]. split; [done|]. by intros (? & ? & ? & _).
    + split; [|by eauto]. split; [done|]. by intros (? & ? & ? & _).
    + destruct codec_types as [|codec codec_types].
      { split; [|by eauto]. split; [done|].
        intros (? & ? & [= _ <-] & [H|H]); by apply elem_of_nil in H. }
      unfold member.
      destruct (bool_decide (Some (lit "video") ∈ codec :: codec_types)) eqn:Hv;
        simpl.
      { apply bool_decide_eq_true in Hv. split; [|done]. split; [|done].
        intros _. eauto. }
      destruct (bool_decide (Some (lit "audio") ∈ codec :: codec_types)) eqn:Ha;
        simpl.
      { apply bool_decide_eq_true in Ha. split; [|done]. split; [|done].
        intros _. eauto. }
      apply bool_decide_eq_false in Hv, Ha.
      split; [|by eauto]. split; [done|].
      intros (? & ? & [= _ <-] & [H|H]); done.
Qed.

(** X13.  An rtmp:// URL, when ffprobe is switched on, is decided by
    ffprobe alone, and [check_url] returns without counting it: the
    checker's state, [processed_urls] included, and the disk are as
    before the call. *)
Theorem rtmp_not_counted (env : Env) (cfg : Config) (info : url_info) (w : World) :
  uses_ffprobe env cfg (ui_url info) →
  ∃ o w',
    check_url env cfg info w = (Ok o, w')
    ∧ self w' = self w ∧ disk w' = disk w
    ∧ (out_status o = valid ↔ (_validate_with_ffprobe env (ui_url info)).1 = true)
    ∧ (out_status o = valid ∨ out_status o = invalid).
Proof.
  intros Hff. unfold check_url. rewrite (attempt_ffprobe env cfg info Hff). run_M.
  eexists _, _. split; [done|]. split; [done|]. split; [done|].
  unfold out_status. simpl.
  destruct (_validate_with_ffprobe env (ui_url info)).1; split; auto; done.
Qed.

Lemma rtmp_not_counted_witness :
  ∃ o w',
    check_url (Script.env Cases.camera) Cases.with_ffprobe Cases.camera_record
      (boot 1 1 None empty_disk) = (Ok o, w')
    ∧ processed_urls (self w') = 0%Z
    ∧ out_status o = valid.
Proof.
  pose proof (rtmp_not_counted (Script.env Cases.camera) Cases.with_ffprobe
                Cases.camera_record (boot 1 1 None empty_disk)) as H.
  destruct H as (o & w' & Hrun & Hself & _ & Hvalid & _).
  - split; [|reflexivity]. exists (lit "rtmp"), (lit "c.example").
    split; [reflexivity|]. split; discriminate.
  - exists o, w'. split; [exact Hrun|]. split; [by rewrite Hself|].
    apply Hvalid. reflexivity.
Defined.

Section PlaylistFacts.
Variable env : Env.
Variable cfg : Config.

Lemma check_segments_accepts segments : ∀ i detail,
  check_segments env i segments = (true, detail) →
  detail = None
  ∧ ∀ segment, segment ∈ segments →
      ∃ st, session_head env segment = Ok st ∧ (st < 400)%Z.
Proof.
  induction segments as [|segment segments IH]; intros i detail; simpl.
  - intros [= <-]. split; [done|]. by intros ? ?%elem_of_nil.
  - destruct (session_head env segment) as [st|e] eqn:Hhead; [|done].
    destruct (Z.leb_spec 400 st) as [|Hst]; [done|].
    intros [Hd Hall]%IH. split; [done|].
    intros s [->|Hin]%elem_of_cons; [by eauto | by apply Hall].
Qed.

Lemma validate_media_playlist_accepts url content detail :
  (1 <= M3U8_SEGMENTS_TO_CHECK cfg)%Z →
  _validate_media_playlist env cfg url content = Ok (true, detail) →
  detail = None
  ∧ ∃ segment segments st,
      media_segments env url (splitlines content) = Ok (segment :: segments)
      ∧ session_head env segment = Ok st ∧ (st < 400)%Z.
Proof.
  intros Hk Hv.
  destruct (media_segments env url (splitlines content)) as [segments|e] eqn:Hseg.
  2:{ unfold _validate_media_playlist in Hv. rewrite Hseg in Hv. done. }
  destruct segments as [|segment segments].
  { unfold _validate_media_playlist in Hv. rewrite Hseg in Hv. done. }
  rewrite (validate_media_playlist_checks env cfg url content _ Hseg) in Hv by done.
  injection Hv as Hcheck. apply check_segments_accepts in Hcheck as [Hd Hall].
  split; [done|]. exists segment, segments.
  destruct (Hall segment) as (st & Hhead & Hst); [|by eauto].
  unfold checked_segments.
  destruct (Z.to_nat _) as [|n] eqn:Hn; [|by left].
  change (length (segment :: segments)) with (S (length segments)) in Hn. lia.
Qed.
End PlaylistFacts.

(** X14.  [_validate_m3u8] never accepts a playlist on its text alone:
    when at least one segment is to be checked, a positive verdict means
    that a media playlist (the one given, or the first variant of a
    master playlist) listed a segment and that the HEAD request for its
    first segment was answered with a status below 400. *)
Theorem accepted_playlist_has_live_segment (env : Env) (cfg : Config)
    (url content : str) (detail : option str) :
  (1 <= M3U8_SEGMENTS_TO_CHECK cfg)%Z →
  _validate_m3u8 env cfg url content = Ok (true, detail) →
  detail = None
  ∧ ∃ playlist body segment segments st,
      media_segments env playlist (splitlines body) = Ok (segment :: segments)
      ∧ session_head env segment = Ok st ∧ (st < 400)%Z
      ∧ (contains content (lit "#EXT-X-STREAM-INF") = false →
         playlist = url ∧ body = content)
      ∧ (contains content (lit "#EXT-X-STREAM-INF") = true →
         ∃ variants response,
           variant_urls env url (splitlines content) = Ok (playlist :: variants)
           ∧ session_get env playlist = Ok response
           ∧ (status response < 400)%Z
           ∧ text response = Ok body).
Proof.
  intros Hk. unfold _validate_m3u8.
  destruct (VALIDATE_M3U8_CONTENT cfg && negb (startswith content (lit "#EXTM3U")));
    [done|].
  destruct (contains content (lit "#EXT-X-STREAM-INF")).
  - run_M.
    destruct (variant_urls env url (splitlines content)) as [variants|e] eqn:Hvar;
      [|done].
    simpl. destruct variants as [|variant variants]; [done|].
    destruct (session_get env variant) as [response|e] eqn:Hget; simpl; [|done].
    destruct (Z.leb_spec 400 (status response)) as [|Hst]; [done|].
    destruct (text response) as [body|e] eqn:Hbody; simpl; [|done].
    destruct (_validate_media_playlist env cfg variant body) as [v|e] eqn:Hv; [|done].
    intros [= ->].
    destruct (validate_media_playlist_accepts env cfg variant body detail Hk Hv)
      as (Hd & segment & segments & st & Hseg & Hhead & Hlt).
    split; [done|]. exists variant, body, segment, segments, st.
    split; [done|]. split; [done|]. split; [done|]. split; [done|].
    intros _. by exists variants, response.
  - intros Hv.
    destruct (validate_media_playlist_accepts env cfg url content detail Hk Hv)
      as (Hd & segment & segments & st & Hseg & Hhead & Hlt).
    split; [done|]. exists url, content, segment, segments, st.
    split; [done|]. split; [done|]. split; [done|]. split; done.
Qed.

Lemma accepted_playlist_has_live_segment_witness :
  ∃ segment st,
    session_head (Script.env Scenario.short_playlist) segment = Ok st ∧ (st < 400)%Z.
Proof.
  pose proof (accepted_playlist_has_live_segment (Script.env Scenario.short_playlist)
                default_config (lit "http://x/a.m3u8")
                (lit "#EXTM3U
#EXTINF
seg1.ts
") None) as H.
  destruct H as (_ & _ & _ & segment & _ & st & _ & Hhead & Hst & _);
    [done | reflexivity |].
  exists segment, st. split; [exact Hhead | exact Hst].
Defined.

(** X15.  [_check_stream_content] never raises.  For a URL that ends in
    none of .m3u8, .ts, .mp4 and .flv it accepts the sample exactly when
    one of five signatures is found: the bytes start with #EXTM3U, start
    with 0x47, contain "ftyp", form an FLV header, or contain "<?xml";
    ".php" in the URL makes no difference. *)
Theorem check_stream_content_signatures (env : Env) (content_bytes : bytes) (url : str) :
  (∃ b, _check_stream_content env content_bytes url = Ok b)
  ∧ (endswith (str_lower env url) (lit ".m3u8") = false →
     endswith (str_lower env url) (lit ".ts") = false →
     endswith (str_lower env url) (lit ".mp4") = false →
     endswith (str_lower env url) (lit ".flv") = false →
     (_check_stream_content env content_bytes url = Ok true
      ↔ blit "#EXTM3U" `prefix_of` content_bytes
        ∨ [x47] `prefix_of` content_bytes
        ∨ occurs_in (blit "ftyp") content_bytes
        ∨ _validate_flv content_bytes = Ok true
        ∨ occurs_in (blit "<?xml") content_bytes)).
Proof.
  split; [apply check_stream_content_total|].
  intros Hm Ht Hp Hf. unfold _check_stream_content. rewrite Hm, Ht, Hp, Hf.
  assert (any_signature content_bytes = Ok true
          ↔ blit "#EXTM3U" `prefix_of` content_bytes
            ∨ [x47] `prefix_of` content_bytes
            ∨ occurs_in (blit "ftyp") content_bytes
            ∨ _validate_flv content_bytes = Ok true
            ∨ occurs_in (blit "<?xml") content_bytes) as Hany.
  { unfold any_signature.
    destruct (startswith content_bytes (blit "#EXTM3U")) eqn:H1.
    { apply startswith_prefix in H1. split; auto. }
    destruct (startswith content_bytes [x47]) eqn:H2.
    { apply startswith_prefix in H2. split; auto. }
    destruct (contains content_bytes (blit "ftyp")) eqn:H3.
    { apply contains_occurs in H3. split; auto. }
    destruct (validate_flv_total content_bytes) as [flv Hflv]. rewrite Hflv. run_M.
    destruct flv; [split; auto|].
    destruct (contains content_bytes (blit "<?xml")) eqn:H5.
    { apply contains_occurs in H5. split; auto 6. }
    split; [done|].
    intros [H|[H|[H|[H|H]]]].
    - apply startswith_prefix in H. congruence.
    - apply startswith_prefix in H. congruence.
    - apply contains_occurs in H. congruence.
    - done.
    - apply contains_occurs in H. congruence. }
  by destruct (contains (str_lower env url) (lit ".php")).
Qed.

Lemma check_stream_content_signatures_witness :
  _check_stream_content (Script.env Script.offline) (blit "<?xml version=1>")
    (lit "http://a.example/manifest") = Ok true.
Proof.
  pose proof (check_stream_content_signatures (Script.env Script.offline)
                (blit "<?xml version=1>") (lit "http://a.example/manifest")) as H.
  destruct H as [_ H].
  apply H; [reflexivity | reflexivity | reflexivity | reflexivity |].
  do 4 right. exists [], (blit " version=1>"). reflexivity.
Defined.

(** X16.  A GET answered with a status of 400 or more makes the record
    "invalid" with the text "HTTP status: N", whatever the URL looks like
    and whatever the content type says; no validator is run. *)
Theorem http_error_is_invalid (env : Env) (cfg : Config) (info : url_info)
    (response : Response) :
  uses_session env cfg (ui_url info) →
  session_get env (ui_url info) = Ok response →
  (400 <= status response)%Z →
  outcome_of env cfg info
  = (info, invalid, Float (elapsed env (ui_url info)),
     Some (lit "HTTP status: " ++ str_of_int (status response))).
Proof.
  intros Hs Hget Hst. unfold outcome_of.
  rewrite (attempt_session env cfg info Hs).
  rewrite (request_classified env cfg _ _ response Hget).
  unfold classify_response.
  destruct (Z.ltb_spec (status response) 400) as [|_]; [lia|]. done.
Qed.

Lemma http_error_is_invalid_witness :
  out_status (outcome_of (Script.env Cases.pages) default_config Cases.gone_record)
  = invalid.
Proof.
  pose proof (http_error_is_invalid (Script.env Cases.pages) default_config
                Cases.gone_record (Script.response 404 "video/mp4" "")) as H.
  rewrite H; [reflexivity | | reflexivity | done].
  split; [|reflexivity]. exists (lit "http"), (lit "a.example").
  split; [reflexivity|]. split; discriminate.
Defined.

(** X17.  A URL that matches one of the stream URL patterns is accepted
    on any answer below 400 that is taken neither for a playlist nor for
    an FLV stream, whatever the body holds: the content check cannot
    reject it. *)
Theorem stream_pattern_accepts (env : Env) (cfg : Config) (info : url_info)
    (response : Response) :
  uses_session env cfg (ui_url info) →
  session_get env (ui_url info) = Ok response →
  (status response < 400)%Z →
  is_playlist_response env cfg (ui_url info) response = false →
  is_flv_response env cfg (ui_url info) response = false →
  is_likely_stream env (ui_url info) = true →
  (∃ content_preview, read response 1024 = Ok content_preview) →
  outcome_of env cfg info
  = (info, valid, Float (elapsed env (ui_url info)), None).
Proof.
  intros Hs Hget Hst Hpl Hflv Hlikely [preview Hread]. unfold outcome_of.
  rewrite (attempt_session env cfg info Hs).
  rewrite (request_classified env cfg _ _ response Hget).
  unfold classify_response. unfold is_playlist_response in Hpl.
  unfold is_flv_response in Hflv. rewrite Hpl, Hflv, Hlikely.
  destruct (Z.ltb_spec (status response) 400) as [_|]; [|lia].
  destruct (existsb _ stream_content_types); [done|].
  destruct (VALIDATE_OTHER_STREAMS cfg); [|done].
  run_M. rewrite Hread. simpl.
  destruct (check_stream_content_total env preview (ui_url info)) as [b ->].
  by destruct b.
Qed.

Lemma stream_pattern_accepts_witness :
  out_status (outcome_of (Script.env Cases.pages) default_config Cases.page_record)
  = valid.
Proof.
  pose proof (stream_pattern_accepts (Script.env Cases.pages) default_config
                Cases.page_record (Script.response 200 "text/html" "<html></html>")) as H.
  rewrite H; [reflexivity | | reflexivity | done | reflexivity | reflexivity
              | reflexivity | by eexists].
  split; [|reflexivity]. exists (lit "http"), (lit "a.example").
  split; [reflexivity|]. split; discriminate.
Defined.

(** X18.  [save_checkpoint] never raises and leaves the checker alone.
    Unless the temporary file beside the checkpoint file cannot be
    written, in which case nothing is written, the checkpoint file then
    holds the pickle of the state, the temporary file is gone and every
    other file is as it was.  A checker whose checkpoint file is this
    file loads it: it takes over the buckets, seen identities, total and
    completed counter, and keeps its own settings; the last-save count is
    not part of the checkpoint.  A checker whose checkpoint file is
    another path, at which no file is, loads nothing and stays as it
    is. *)
Theorem checkpoint_round_trip (w : World) (c : StreamChecker) (log : list str)
    (path : str) :
  path ≠ [] →
  checkpoint_file (self w) = Some path →
  ∃ w1,
    save_checkpoint w = (Ok tt, w1)
    ∧ self w1 = self w
    ∧ (path ++ lit ".tmp" ∈ denied w → disk w1 = disk w)
    ∧ (path ++ lit ".tmp" ∉ denied w →
       disk w1 !! path = Some (Pickled (checkpoint_data (self w)))
       ∧ disk w1 !! (path ++ lit ".tmp") = None
       ∧ (∀ other, other ≠ path → other ≠ path ++ lit ".tmp" →
            disk w1 !! other = disk w !! other)
       ∧ (checkpoint_file c = Some path →
          ∃ w2,
            load_checkpoint {| self := c; disk := disk w1; denied := denied w;
                               probed := log |} = (Ok true, w2)
            ∧ results (self w2) = results (self w)
            ∧ processed_url_hashes (self w2) = processed_url_hashes (self w)
            ∧ total_urls (self w2) = total_urls (self w)
            ∧ processed_urls (self w2) = processed_urls (self w)
            ∧ concurrency (self w2) = concurrency c
            ∧ save_interval (self w2) = save_interval c
            ∧ checkpoint_file (self w2) = checkpoint_file c
            ∧ output_file (self w2) = output_file c
            ∧ last_save_count (self w2) = last_save_count c
            ∧ disk w2 = disk w1)
       ∧ (∀ other, checkpoint_file c = Some other →
            other ≠ path → other ≠ path ++ lit ".tmp" →
            disk w !! other = None →
            load_checkpoint {| self := c; disk := disk w1; denied := denied w;
                               probed := log |}
            = (Ok false, {| self := c; disk := disk w1; denied := denied w;
                            probed := log |}))).
Proof.
  intros _ Hpath. rewrite save_checkpoint_run. eexists. split; [done|]. simpl.
  split; [done|]. unfold checkpoint_written. rewrite Hpath.
  split; [intros Hden; by rewrite bool_decide_true|].
  intros Hden. rewrite bool_decide_false by done.
  split; [apply replace_checkpoint_lookup|].
  split; [apply replace_checkpoint_temp|].
  split; [intros other H1 H2; by apply replace_checkpoint_other|].
  split.
  - intros Hc. unfold load_checkpoint. run_M. rewrite Hc. simpl.
    rewrite replace_checkpoint_lookup. run_M.
    eexists. split; [done|]. simpl. by repeat split.
  - intros other Hc H1 H2 Hnone. unfold load_checkpoint. run_M. rewrite Hc. simpl.
    by rewrite replace_checkpoint_other, Hnone.
Qed.

Lemma checkpoint_round_trip_witness :
  ∃ w1,
    save_checkpoint Scenario.eager = (Ok tt, w1)
    ∧ disk w1 !! Scenario.checkpoint_pkl
      = Some (Pickled (checkpoint_data (self Scenario.eager))).
Proof.
  pose proof (checkpoint_round_trip Scenario.eager
                (__init__ 5 10 (Some Scenario.checkpoint_pkl)) []
                Scenario.checkpoint_pkl) as H.
  destruct H as (w1 & Hsave & _ & _ & Hdisk); [done | done |].
  destruct Hdisk as (Hfile & _); [by vm_compute|].
  exists w1. split; [exact Hsave | exact Hfile].
Defined.

(** ** Extraction of the records *)

Lemma before_without sep s : sep ∉ before sep s.
Proof.
  induction s as [|c s IH]; simpl; [by intros ?%elem_of_nil|].
  destruct (N.eqb_spec c sep) as [|Hc]; [by intros ?%elem_of_nil|].
  intros [<-|Hin]%elem_of_cons; done.
Qed.

Lemma cut_fragment_without url : 0x23 ∉ cut_fragment url.
Proof.
  unfold cut_fragment, member. case_bool_decide; [apply before_without | done].
Qed.

Lemma starts_http_inv s :
  starts_http s = true → ∃ t, s = lit "http://" ++ t ∨ s = lit "https://" ++ t.
Proof.
  unfold starts_http. intros [H|H]%orb_true_iff;
    apply startswith_prefix in H as [t ->]; eauto.
Qed.

Lemma starts_http_intro t :
  starts_http (lit "http://" ++ t) = true ∧ starts_http (lit "https://" ++ t) = true.
Proof.
  unfold starts_http. split; apply orb_true_iff; [left | right];
    apply startswith_prefix; by exists t.
Qed.

Lemma before_starts_http s :
  starts_http s = true → starts_http (before 0x23 s) = true.
Proof.
  intros [t [-> | ->]]%starts_http_inv.
  - change (before 0x23 (lit "http://" ++ t)) with (lit "http://" ++ before 0x23 t).
    apply starts_http_intro.
  - change (before 0x23 (lit "https://" ++ t)) with (lit "https://" ++ before 0x23 t).
    apply starts_http_intro.
Qed.

Lemma cut_fragment_starts_http url :
  starts_http url = true → starts_http (cut_fragment url) = true.
Proof.
  intros Hu. unfold cut_fragment. destruct (member 0x23 url); [|done].
  by apply before_starts_http.
Qed.

Lemma span_url_le s : (span_url s <= length s)%nat.
Proof.
  induction s as [|c s IH]; simpl; [done|]. destruct (url_char c); simpl; lia.
Qed.

Lemma span_url_chars s : forallb url_char (take (span_url s) s) = true.
Proof.
  induction s as [|c s IH]; simpl; [done|].
  destruct (url_char c) eqn:Hc; simpl; [by rewrite Hc|done].
Qed.

Lemma match_url_found s n :
  match_url s = Some n →
  starts_http (take n s) = true
  ∧ forallb url_char (take n s) = true
  ∧ (8 <= n <= length s)%nat.
Proof.
  unfold match_url.
  destruct (startswith s (lit "http://")) eqn:H1.
  { apply startswith_prefix in H1 as [t ->].
    change (drop 7 (lit "http://" ++ t)) with t.
    pose proof (span_url_le t) as Hle. pose proof (span_url_chars t) as Hch.
    destruct (span_url t) as [|k] eqn:Hk; [done|]. intros [= <-].
    rewrite length_app.
    change (take (7 + S k) (lit "http://" ++ t)) with (lit "http://" ++ take (S k) t).
    split; [apply starts_http_intro|]. split; [|simpl; lia].
    exact Hch. }
  destruct (startswith s (lit "https://")) eqn:H2; [|done].
  apply startswith_prefix in H2 as [t ->].
  change (drop 8 (lit "https://" ++ t)) with t.
  pose proof (span_url_le t) as Hle. pose proof (span_url_chars t) as Hch.
  destruct (span_url t) as [|k] eqn:Hk; [done|]. intros [= <-].
  rewrite length_app.
  change (take (8 + S k) (lit "https://" ++ t)) with (lit "https://" ++ take (S k) t).
  split; [apply starts_http_intro|]. split; [|simpl; lia].
  exact Hch.
Qed.

Lemma occurs_in_cons {A} (u s : list A) c : occurs_in u s → occurs_in u (c :: s).
Proof. intros (a & b & ->). by exists (c :: a), b. Qed.

Lemma findall_from_found s : ∀ skip u,
  u ∈ findall_from skip s →
  starts_http u = true ∧ forallb url_char u = true ∧ (8 <= length u)%nat
  ∧ occurs_in u s.
Proof.
  induction s as [|c s IH]; intros skip u; [by intros ?%elem_of_nil|].
  simpl. destruct skip as [|k].
  - destruct (match_url (c :: s)) as [n|] eqn:Hm.
    + intros [->|Hin]%elem_of_cons.
      * destruct (match_url_found _ _ Hm) as (Hh & Hc & Hlen).
        split; [done|]. split; [done|]. split; [rewrite length_take; lia|].
        exists [], (drop n (c :: s)). simpl. by rewrite take_drop.
      * destruct (IH _ _ Hin) as (? & ? & ? & ?).
        repeat split; try done. by apply occurs_in_cons.
    + intros Hin. destruct (IH _ _ Hin) as (? & ? & ? & ?).
      repeat split; try done. by apply occurs_in_cons.
  - intros Hin. destruct (IH _ _ Hin) as (? & ? & ? & ?).
    repeat split; try done. by apply occurs_in_cons.
Qed.

(** X19.  Every string [URL_PATTERN.findall] returns starts with http://
    or https://, goes on with at least one more character, contains no
    white space, no quote and no angle bracket, and occurs in the text
    searched. *)
Theorem findall_urls (s u : str) :
  u ∈ findall s →
  starts_http u = true
  ∧ (8 <= length u)%nat
  ∧ (∀ c, c ∈ u → is_space c = false ∧ c ∉ [0x22; 0x27; 0x3C; 0x3E])
  ∧ occurs_in u s.
Proof.
  intros (Hh & Hc & Hlen & Hocc)%findall_from_found.
  split; [done|]. split; [done|]. split; [|done].
  intros c Hin. rewrite forallb_forall in Hc.
  assert (url_char c = true) as Hu.
  { apply Hc. by apply list_elem_of_In. }
  unfold url_char, member in Hu. apply andb_true_iff in Hu as [Hs Hq].
  apply negb_true_iff in Hs, Hq. split; [done|]. by apply bool_decide_eq_false in Hq.
Qed.

Lemma findall_urls_witness :
  starts_http (lit "https://b.example/y#z") = true.
Proof.
  pose proof (findall_urls (lit "see <http://a.example/x> and https://b.example/y#z now")
                (lit "https://b.example/y#z")) as H.
  destruct H as (Hh & _).
  - vm_compute. apply list_elem_of_further, list_elem_of_here.
  - exact Hh.
Defined.

Lemma appended_refl P l : appended P l l.
Proof. exists []. by rewrite app_nil_r. Qed.

Lemma appended_trans P l1 l2 l3 :
  appended P l1 l2 → appended P l2 l3 → appended P l1 l3.
Proof.
  intros (a & -> & Ha) (b & -> & Hb). exists (a ++ b).
  split; [by rewrite app_assoc | by apply Forall_app].
Qed.

Lemma appended_snoc (P : url_info → Prop) l info : P info → appended P l (l ++ [info]).
Proof. intros Hp. exists [info]. split; [done|]. by constructor. Qed.

Lemma appended_weaken (P Q : url_info → Prop) l l' :
  (∀ info, P info → Q info) → appended P l l' → appended Q l l'.
Proof.
  intros Hpq (a & -> & Ha). exists a. split; [done|].
  eapply Forall_impl; [exact Ha | exact Hpq].
Qed.

Lemma findall_http s : Forall (fun u => starts_http u = true) (findall s).
Proof.
  apply Forall_forall. intros u Hu. by apply findall_from_found in Hu as (? & _).
Qed.

Lemma stream_name_nonempty url_infos : stream_name url_infos ≠ [].
Proof. done. Qed.

Lemma or_else_nonempty x y : y ≠ [] → or_else x y ≠ [].
Proof. intros Hy. by destruct x as [[|c s]|]. Qed.

Section ParserFacts.
Variable env : Env.

Lemma m3u_found_appended urls : ∀ state,
  Forall (fun u => starts_http u = true) urls →
  appended m3u_record state.2 (m3u_found urls state).2.
Proof.
  induction urls as [|url urls IH]; intros state Hurls; [apply appended_refl|].
  apply Forall_cons in Hurls as [Hu Hurls]. simpl.
  eapply appended_trans; [|by apply IH]. simpl.
  apply appended_snoc. split; [by apply cut_fragment_starts_http|].
  split; [apply cut_fragment_without|]. split; [|done].
  eexists. split; [done|]. apply or_else_nonempty, stream_name_nonempty.
Qed.

Lemma m3u_line_appended state line :
  appended m3u_record state.2 (m3u_line state line).2.
Proof.
  unfold m3u_line.
  destruct (negb (truthy (strip line))); [apply appended_refl|].
  destruct (startswith (strip line) (lit "#EXTINF:")).
  { destruct (search_tvg_name (strip line)); [apply appended_refl|].
    destruct (split_once 0x2C (strip line)) as [[? ?]|]; apply appended_refl. }
  destruct (starts_http (strip line)) eqn:Hh.
  - simpl. apply appended_snoc. split; [by apply cut_fragment_starts_http|].
    split; [apply cut_fragment_without|]. split; [|done].
    eexists. split; [done|]. apply or_else_nonempty, stream_name_nonempty.
  - apply m3u_found_appended, findall_http.
Qed.

Lemma m3u_lines_appended lines : ∀ state,
  appended m3u_record state.2 (foldl m3u_line state lines).2.
Proof.
  induction lines as [|line lines IH]; intros state; [apply appended_refl|].
  simpl. eapply appended_trans; [apply m3u_line_appended | apply IH].
Qed.

Lemma text_found_in_part_appended name category urls : ∀ url_infos,
  Forall (fun u => starts_http u = true) urls →
  appended text_record url_infos
    (text_found_in_part env name category urls url_infos).
Proof.
  induction urls as [|url urls IH]; intros url_infos Hurls; [apply appended_refl|].
  apply Forall_cons in Hurls as [Hu Hurls]. simpl.
  destruct (mentions_jar env url); [by apply IH|].
  eapply appended_trans; [|by apply IH].
  apply appended_snoc. split; [by apply cut_fragment_starts_http|].
  split; [apply cut_fragment_without|]. by split.
Qed.

Lemma text_found_in_line_appended line category urls : ∀ url_infos,
  Forall (fun u => starts_http u = true) urls →
  appended text_record url_infos
    (text_found_in_line env line category urls url_infos).
Proof.
  induction urls as [|url urls IH]; intros url_infos Hurls; [apply appended_refl|].
  apply Forall_cons in Hurls as [Hu Hurls]. simpl.
  destruct (mentions_jar env url); [by apply IH|].
  eapply appended_trans; [|by apply IH].
  apply appended_snoc. split; [by apply cut_fragment_starts_http|].
  split; [apply cut_fragment_without|]. by split.
Qed.

Lemma text_line_appended state line :
  appended text_record state.2 (text_line env state line).2.
Proof.
  unfold text_line.
  destruct (negb (truthy (strip line))); [apply appended_refl|].
  destruct (_ || _); [apply appended_refl|].
  destruct (split_once 0x2C (strip line)) as [[name url_part]|].
  - destruct (starts_http (strip url_part)) eqn:Hh.
    + destruct (mentions_jar env (strip url_part)); [apply appended_refl|].
      simpl. apply appended_snoc. split; [by apply cut_fragment_starts_http|].
      split; [apply cut_fragment_without|]. by split.
    + apply text_found_in_part_appended, findall_http.
  - apply text_found_in_line_appended, findall_http.
Qed.

Lemma text_lines_appended lines : ∀ state,
  appended text_record state.2 (foldl (text_line env) state lines).2.
Proof.
  induction lines as [|line lines IH]; intros state; [apply appended_refl|].
  simpl. eapply appended_trans; [apply text_line_appended | apply IH].
Qed.

Lemma find_url_http keys items : ∀ url u,
  (∀ v, url = Some v → starts_http v = true) →
  find_url env keys items url = Some u → starts_http u = true.
Proof.
  induction keys as [|key keys IH]; intros url u Hurl; simpl; [by apply Hurl|].
  destruct (dict_get key items) as [[| |s|]|]; try by apply IH.
  destruct (starts_http s) eqn:Hs; [|by apply IH].
  destruct (mentions_jar env s).
  - apply IH. by intros v [= <-].
  - intros [= <-]. by apply cut_fragment_starts_http.
Qed.

Lemma json_pair_appended name url url_infos :
  (∀ u, url = Some u → starts_http u = true) →
  appended listed url_infos (json_pair name url url_infos).
Proof.
  intros Hurl. unfold json_pair. destruct url as [[|c u]|]; try apply appended_refl.
  specialize (Hurl _ eq_refl).
  destruct name as [[|d n]|]; by apply appended_snoc.
Qed.

Lemma json_item_appended key value url_infos :
  appended listed url_infos (json_item env key value url_infos).
Proof.
  unfold json_item. destruct (starts_http value) eqn:Hv; [|apply appended_refl].
  destruct (mentions_jar env value); [apply appended_refl|].
  destruct (_ && _); apply appended_snoc;
    (split; [by apply cut_fragment_starts_http | done]).
Qed.

Lemma Json_induction (P : Json → Prop) :
  (∀ items, Forall (fun item => P item.2) items → P (JDict items)) →
  (∀ items, Forall P items → P (JList items)) →
  (∀ s, P (JStr s)) →
  P JOther →
  ∀ data, P data.
Proof.
  intros Hdict Hlist Hstr Hother. fix IH 1. intros [items|items|s|].
  - apply Hdict. induction items as [|[key value] items IHitems]; constructor.
    + apply IH.
    + apply IHitems.
  - apply Hlist. induction items as [|item items IHitems]; constructor.
    + apply IH.
    + apply IHitems.
  - apply Hstr.
  - apply Hother.
Qed.

Lemma over_items_appended recurse items :
  Forall (fun item : str * Json =>
            ∀ url_infos, appended listed url_infos (recurse item.2 url_infos)) items →
  ∀ url_infos, appended listed url_infos (over_items env recurse items url_infos).
Proof.
  induction 1 as [|[key value] rest Hvalue _ IHrest]; intros url_infos;
    [apply appended_refl|].
  destruct value as [sub|sub|s|]; simpl.
  - eapply appended_trans; [apply Hvalue | apply IHrest].
  - eapply appended_trans; [apply Hvalue | apply IHrest].
  - eapply appended_trans; [apply json_item_appended | apply IHrest].
  - apply IHrest.
Qed.

Lemma over_list_appended recurse items :
  Forall (fun item : Json =>
            ∀ url_infos, appended listed url_infos (recurse item url_infos)) items →
  ∀ url_infos, appended listed url_infos (over_list recurse items url_infos).
Proof.
  induction 1 as [|item rest Hitem _ IHrest]; intros url_infos;
    [apply appended_refl|].
  simpl. eapply appended_trans; [apply Hitem | apply IHrest].
Qed.

Lemma json_appended data : ∀ url_infos,
  appended listed url_infos (_extract_urls_from_json env data url_infos).
Proof.
  induction data as [items IH|items IH|s|] using Json_induction; intros url_infos;
    try apply appended_refl.
  - cbn [_extract_urls_from_json]. eapply appended_trans.
    { apply (json_pair_appended (find_name name_keys items)
               (find_url env url_keys items None) url_infos).
      intros u. by apply find_url_http. }
    by apply over_items_appended.
  - cbn [_extract_urls_from_json]. by apply over_list_appended.
Qed.

Lemma find_url_jar keys items : ∀ url,
  (∀ k s, k ∈ keys → dict_get k items = Some (JStr s) →
     starts_http s = true → mentions_jar env s = true) →
  (∃ v, url = Some v ∧ starts_http v = true ∧ mentions_jar env v = true)
  ∨ (∃ k s, k ∈ keys ∧ dict_get k items = Some (JStr s) ∧ starts_http s = true) →
  ∃ link, find_url env keys items url = Some link
          ∧ starts_http link = true ∧ mentions_jar env link = true.
Proof.
  induction keys as [|key keys IH]; intros url Hall Hsome; simpl.
  - destruct Hsome as [(v & -> & Hh & Hj)|(k & s & Hk & _)]; [by eauto|].
    by apply elem_of_nil in Hk.
  - assert (∀ k s, k ∈ keys → dict_get k items = Some (JStr s) →
              starts_http s = true → mentions_jar env s = true) as Hall'.
    { intros k s Hk. apply Hall. by right. }
    destruct (dict_get key items) as [[sub|sub|s|]|] eqn:Hget.
    1,2,4,5: apply IH; [done|];
      destruct Hsome as [?|(k & s' & [->|Hk]%elem_of_cons & Hg & Hh)];
      [by left | congruence | by right; eauto].
    destruct (starts_http s) eqn:Hs.
    + rewrite (Hall key s); [|by left|done|done].
      apply IH; [done|]. left. exists s. split; [done|]. split; [done|].
      apply (Hall key s); [by left|done|done].
    + apply IH; [done|].
      destruct Hsome as [?|(k & s' & [->|Hk]%elem_of_cons & Hg & Hh)];
        [by left | congruence | by right; eauto].
Qed.
End ParserFacts.

(** X20.  Every record [_extract_urls_from_m3u] adds has a name that is
    not empty, a URL that starts with http:// or https:// and contains no
    '#', and no category; the records already in the list are kept, in
    their order, before the new ones. *)
Theorem m3u_records_named (content : str) (url_infos : list url_info) :
  ∃ added,
    _extract_urls_from_m3u content url_infos = url_infos ++ added
    ∧ Forall m3u_record added.
Proof. apply (m3u_lines_appended (splitlines content) (None, url_infos)). Qed.

Section FileFacts.
Variable env : Env.
Variable fs : Files.

Lemma read_records_listed file_path : Forall listed (read_records env fs file_path).
Proof.
  assert (∀ l, appended listed [] l → Forall listed l) as Hl.
  { by intros l (added & -> & Ha). }
  assert (∀ info, text_record info → listed info) as Ht.
  { intros info (? & _ & ? & _). by split. }
  assert (∀ info, m3u_record info → listed info) as Hm.
  { intros info (? & _ & (name & Hname & _) & _). split; [done | by exists name]. }
  unfold read_records. destruct (read_text fs file_path) as [content|]; [|done].
  destruct (endswith file_path (lit ".json")).
  - destruct (json_loads fs content) as [data| |e]; [| |done]; apply Hl.
    + apply json_appended.
    + eapply appended_weaken; [exact Ht|].
      apply (text_lines_appended env (splitlines content) (_, [])).
  - destruct (_ || _); apply Hl.
    + eapply appended_weaken; [exact Hm|].
      apply (m3u_lines_appended (splitlines content) (None, [])).
    + eapply appended_weaken; [exact Ht|].
      apply (text_lines_appended env (splitlines content) (_, [])).
Qed.

Lemma tidy_url info :
  starts_http (ui_url info) = true →
  starts_http (ui_url (tidy fs info)) = true ∧ 0x23 ∉ ui_url (tidy fs info).
Proof.
  intros Hh.
  assert (startswith (ui_url info) (lit "http") = true) as Hp.
  { apply starts_http_inv in Hh as [t [-> | ->]]; apply startswith_prefix.
    - by exists (lit "://" ++ t).
    - by exists (lit "s://" ++ t). }
  assert (ui_url (tidy fs info) = cut_fragment (ui_url info)) as ->.
  { unfold tidy, cut_fragment. rewrite Hp, andb_true_r.
    by destruct (CONVERT_TO_SIMPLIFIED fs && HAS_OPENCC fs). }
  split; [by apply cut_fragment_starts_http | apply cut_fragment_without].
Qed.
End FileFacts.

(** X21.  Whatever the file holds and whatever its extension,
    [extract_urls_from_file] returns records with a name and with pairwise
    distinct URLs, each of which starts with http:// or https:// and
    contains no '#'.  A file that cannot be opened gives no record. *)
Theorem extracted_urls_wellformed (env : Env) (fs : Files) (file_path : str) :
  NoDup (ui_url <$> extract_urls_from_file env fs file_path)
  ∧ (∀ info, info ∈ extract_urls_from_file env fs file_path →
       starts_http (ui_url info) = true
       ∧ (0x23 ∉ ui_url info)
       ∧ is_Some (ui_name info))
  ∧ (read_text fs file_path = None → extract_urls_from_file env fs file_path = []).
Proof.
  unfold extract_urls_from_file. split; [apply remove_duplicates_from_NoDup|].
  split.
  - intros info Hin.
    assert (info ∈ tidy fs <$> read_records env fs file_path) as Hin'.
    { eapply elem_of_sublist; [exact Hin | apply remove_duplicates_from_sublist]. }
    apply list_elem_of_fmap in Hin' as (raw & -> & Hraw).
    pose proof (read_records_listed env fs file_path) as Hl.
    rewrite Forall_forall in Hl. destruct (Hl raw Hraw) as [Hh Hn].
    destruct (tidy_url fs raw Hh) as [Hh' Hf]. split; [done|]. split; [done|].
    unfold tidy. destruct (_ && _); [|done]. simpl. by apply fmap_is_Some.
  - intros Hread. unfold read_records. by rewrite Hread.
Qed.

(** X22.  The jar filter of [_extract_urls_from_json] does not hold for
    the links under the URL keys of a dict: when the only links there
    have jar in them, the dict still gives a record, the first it
    appends, whose URL is one of these links. *)
Theorem json_jar_link_kept (env : Env) (items : list (str * Json))
    (url_infos : list url_info) (key link : str) :
  key ∈ url_keys →
  dict_get key items = Some (JStr link) →
  starts_http link = true →
  (∀ k s, k ∈ url_keys → dict_get k items = Some (JStr s) →
     starts_http s = true → mentions_jar env s = true) →
  ∃ info more,
    _extract_urls_from_json env (JDict items) url_infos = url_infos ++ info :: more
    ∧ starts_http (ui_url info) = true
    ∧ mentions_jar env (ui_url info) = true
    ∧ (∃ k, k ∈ url_keys ∧ dict_get k items = Some (JStr (ui_url info))).
Proof.
  intros Hkey Hget Hh Hall.
  assert (∀ keys url,
            (∀ v, url = Some v → ∃ k, k ∈ url_keys ∧ dict_get k items = Some (JStr v)) →
            (∀ k, k ∈ keys → k ∈ url_keys) →
            ∀ v, find_url env keys items url = Some v →
                 mentions_jar env v = true →
                 ∃ k, k ∈ url_keys ∧ dict_get k items = Some (JStr v)) as Hfrom.
  { induction keys as [|k keys IH]; intros url Hurl Hsub v; simpl; [by eauto|].
    assert (∀ k', k' ∈ keys → k' ∈ url_keys) as Hsub'.
    { intros k' Hk'. apply Hsub. by right. }
    destruct (dict_get k items) as [[sub|sub|s|]|] eqn:Hg; try by apply IH.
    destruct (starts_http s) eqn:Hs; [|by apply IH].
    destruct (mentions_jar env s) eqn:Hj.
    - apply IH; [|done]. intros v' [= <-]. exists k. split; [|done].
      apply Hsub. by left.
    - intros [= <-] Hjar. exfalso.
      pose proof (Hall k s (Hsub k ltac:(by left)) Hg Hs). congruence. }
  destruct (find_url_jar env url_keys items None Hall) as (found & Hfind & Hfh & Hfj).
  { right. by exists key, link. }
  destruct (Hfrom url_keys None ltac:(done) ltac:(done) found Hfind Hfj) as [k Hk].
  cbn [_extract_urls_from_json]. rewrite Hfind.
  assert (∃ info, json_pair (find_name name_keys items) (Some found) url_infos
                  = url_infos ++ [info] ∧ ui_url info = found) as (info & -> & Hurl).
  { unfold json_pair. apply starts_http_inv in Hfh as [t [-> | ->]];
      destruct (find_name name_keys items) as [[|d n]|]; by eexists. }
  destruct (over_items_appended env (_extract_urls_from_json env) items)
    with (url_infos := url_infos ++ [info]) as (more & -> & _).
  { apply Forall_forall. intros item _ l. apply json_appended. }
  exists info, more. rewrite <- app_assoc. split; [done|]. rewrite Hurl.
  split; [done|]. split; [done|]. by exists k.
Qed.

Lemma json_jar_link_kept_witness :
  ∃ info more,
    _extract_urls_from_json (Script.env Script.offline)
      (JDict [(lit "name", JStr (lit "Box")); (lit "url", JStr (lit "http://a.example/box.jar"))])
      [] = info :: more
    ∧ ui_url info = lit "http://a.example/box.jar".
Proof.
  pose proof (json_jar_link_kept (Script.env Script.offline)
                [(lit "name", JStr (lit "Box"));
                 (lit "url", JStr (lit "http://a.example/box.jar"))]
                [] (lit "url") (lit "http://a.example/box.jar")) as H.
  destruct H as (info & more & Hrun & _).
  - vm_compute. apply list_elem_of_here.
  - reflexivity.
  - reflexivity.
  - intros k s Hk Hget Hs. vm_compute in Hk.
    repeat (apply elem_of_cons in Hk as [->|Hk]; [by vm_compute in Hget; try injection Hget as <-|]).
    by apply elem_of_nil in Hk.
  - exists info, more. split; [exact Hrun|].
    vm_compute in Hrun. injection Hrun as <- _. reflexivity.
Defined.

(** ** Reading back the lists the checker writes *)

Lemma splitlines_from_line l : ∀ cur rest,
  forallb (fun c => negb (is_linebreak c)) l = true →
  splitlines_from cur (l ++ 0x0A :: rest) = rev (rev l ++ cur) :: splitlines_from [] rest.
Proof.
  induction l as [|c l IH]; intros cur rest Hl.
  - simpl. by destruct rest.
  - simpl in Hl. apply andb_true_iff in Hl as [Hc Hl]. apply negb_true_iff in Hc.
    simpl. rewrite Hc, IH by done. by rewrite <- app_assoc.
Qed.

Lemma splitlines_line l rest :
  forallb (fun c => negb (is_linebreak c)) l = true →
  splitlines (l ++ 0x0A :: rest) = l :: splitlines rest.
Proof.
  intros Hl. unfold splitlines. rewrite splitlines_from_line by done.
  by rewrite app_nil_r, rev_involutive.
Qed.

Lemma edge_lstrip s : edge s = true → lstrip s = s.
Proof.
  destruct s as [|c s]; [done|]. simpl. intros Hc%negb_true_iff. by rewrite Hc.
Qed.

Lemma edge_strip s : edge s = true → edge (rev s) = true → strip s = s.
Proof.
  intros H1 H2. unfold strip. rewrite (edge_lstrip s H1), (edge_lstrip _ H2).
  apply rev_involutive.
Qed.

Lemma edge_app s t : s ≠ [] → edge s = true → edge (s ++ t) = true.
Proof. by destruct s. Qed.

Lemma split_once_at sep a b :
  sep ∉ a → split_once sep (a ++ sep :: b) = Some (a, b).
Proof.
  induction a as [|c a IH]; intros Ha; simpl.
  - by rewrite N.eqb_refl.
  - apply not_elem_of_cons in Ha as [Hc Ha].
    destruct (N.eqb_spec c sep) as [->|_]; [done|]. by rewrite IH.
Qed.

Lemma before_at sep a b : sep ∉ a → before sep (a ++ sep :: b) = a.
Proof.
  induction a as [|c a IH]; intros Ha; simpl.
  - by rewrite N.eqb_refl.
  - apply not_elem_of_cons in Ha as [Hc Ha].
    destruct (N.eqb_spec c sep) as [->|_]; [done|]. by rewrite IH.
Qed.

Lemma plain_inv s :
  plain s = true →
  s ≠ [] ∧ (0x2C ∉ s)
  ∧ forallb (fun c => negb (is_linebreak c)) s = true
  ∧ edge s = true ∧ edge (rev s) = true.
Proof.
  unfold plain, member. rewrite !andb_true_iff.
  intros ((((Ht & Hc) & Hl) & He) & Hr).
  apply negb_true_iff, bool_decide_eq_false in Hc.
  split; [by destruct s|done].
Qed.

Lemma plain_link_inv env url :
  plain_link env url = true →
  starts_http url = true ∧ (0x23 ∉ url)
  ∧ forallb (fun c => negb (is_linebreak c)) url = true
  ∧ edge (rev url) = true ∧ mentions_jar env url = false.
Proof.
  unfold plain_link, member. rewrite !andb_true_iff.
  intros ((((Hh & Hc) & Hl) & Hr) & Hj).
  apply negb_true_iff, bool_decide_eq_false in Hc. apply negb_true_iff in Hj. done.
Qed.

Lemma starts_http_edge url : starts_http url = true → url ≠ [] ∧ edge url = true.
Proof. by intros [t [-> | ->]]%starts_http_inv. Qed.

Section ReadFacts.
Variable env : Env.

Lemma reads_refl st : reads env [] st st.
Proof. by intros rest. Qed.

Lemma reads_trans t1 t2 a b c :
  reads env t1 a b → reads env t2 b c → reads env (t1 ++ t2) a c.
Proof. intros H1 H2 rest. by rewrite <- app_assoc, H1, H2. Qed.

Lemma reads_line l st :
  forallb (fun c => negb (is_linebreak c)) l = true →
  reads env (l ++ [0x0A]) st (text_line env st l).
Proof.
  intros Hl rest. rewrite <- app_assoc. simpl. by rewrite splitlines_line.
Qed.

Lemma text_line_channel name url category url_infos :
  plain name = true → plain_link env url = true →
  text_line env (category, url_infos) (name ++ lit "," ++ url)
  = (category,
     url_infos ++ [{| ui_name := Some name; ui_url := url;
                      ui_category := Some category |}]).
Proof.
  intros (Hn & Hcomma & _ & Hen & Hrn)%plain_inv
         (Hh & Hhash & _ & Hru & Hjar)%plain_link_inv.
  destruct (starts_http_edge url Hh) as [Hu Heu].
  assert (strip (name ++ lit "," ++ url) = name ++ lit "," ++ url) as Hline.
  { apply edge_strip; [by apply edge_app|].
    rewrite !rev_app_distr, <- app_assoc. apply edge_app; [|done].
    destruct url; [done|]. simpl. by destruct (rev url). }
  unfold text_line. rewrite Hline.
  assert (truthy (name ++ lit "," ++ url) = true) as -> by (by destruct name).
  simpl negb. cbv iota.
  change (lit ",#genre#") with (lit ",#genre" ++ [0x23]).
  change (lit "#type#") with (lit "#type" ++ [0x23]).
  assert (∀ p, endswith (name ++ lit "," ++ url) (p ++ [0x23]) = false) as Hend.
  { intros p. unfold endswith. rewrite !rev_app_distr, <- !app_assoc. simpl.
    destruct (rev url) as [|d r] eqn:Hr.
    { destruct url; [done|]. simpl in Hr. by destruct (rev url). }
    simpl. rewrite bool_decide_false; [done|]. intros <-. apply Hhash.
    apply list_elem_of_In, in_rev. rewrite Hr. by left. }
  rewrite !Hend. simpl orb. cbv iota.
  change (name ++ lit "," ++ url) with (name ++ 0x2C :: url).
  rewrite split_once_at by done.
  rewrite (edge_strip name Hen Hrn), (edge_strip url Heu Hru), Hh, Hjar.
  unfold cut_fragment, member. by rewrite bool_decide_false.
Qed.

Lemma text_line_genre category state :
  plain category = true →
  text_line env state (category ++ lit ",#genre#") = (category, state.2).
Proof.
  intros (Hn & Hcomma & _ & Hen & Hrn)%plain_inv.
  assert (strip (category ++ lit ",#genre#") = category ++ lit ",#genre#") as Hline.
  { apply edge_strip; [by apply edge_app|]. by rewrite rev_app_distr. }
  unfold text_line. rewrite Hline.
  assert (truthy (category ++ lit ",#genre#") = true) as -> by (by destruct category).
  simpl negb. cbv iota.
  assert (endswith (category ++ lit ",#genre#") (lit ",#genre#") = true) as ->.
  { unfold endswith. rewrite rev_app_distr. apply startswith_prefix. by eexists. }
  simpl orb. cbv iota.
  change (category ++ lit ",#genre#") with (category ++ 0x2C :: lit "#genre#").
  by rewrite before_at, (edge_strip category Hen Hrn).
Qed.

Lemma reads_channel name url category url_infos :
  plain name = true → plain_link env url = true →
  reads env (channel_line name url) (category, url_infos)
    (category,
     url_infos ++ [{| ui_name := Some name; ui_url := url;
                      ui_category := Some category |}]).
Proof.
  intros Hname Hurl. unfold channel_line.
  rewrite <- (text_line_channel name url category url_infos Hname Hurl).
  rewrite !app_assoc. rewrite <- (app_assoc name). apply reads_line.
  apply plain_inv in Hname as (_ & _ & Hl & _).
  apply plain_link_inv in Hurl as (_ & _ & Hl' & _).
  rewrite !forallb_app, Hl, Hl'. done.
Qed.
End ReadFacts.

Lemma plain_intro s :
  s ≠ [] → 0x2C ∉ s →
  forallb (fun c => negb (is_linebreak c)) s = true →
  edge s = true → edge (rev s) = true →
  plain s = true.
Proof.
  intros Hs Hc Hl He Hr. unfold plain, member.
  rewrite Hl, He, Hr, bool_decide_false by done. by destruct s.
Qed.

Lemma digit_facts c :
  (48 <= c <= 57)%N → c ≠ 0x2C ∧ is_linebreak c = false ∧ is_space c = false.
Proof.
  intros Hc.
  assert (c ∈ [48; 49; 50; 51; 52; 53; 54; 55; 56; 57]) as Hin.
  { assert (c = 48 ∨ c = 49 ∨ c = 50 ∨ c = 51 ∨ c = 52 ∨ c = 53 ∨ c = 54
            ∨ c = 55 ∨ c = 56 ∨ c = 57) as Hcases by lia.
    repeat (destruct Hcases as [->|Hcases];
            [repeat first [apply list_elem_of_here | apply list_elem_of_further]|]).
    subst. repeat first [apply list_elem_of_here | apply list_elem_of_further]. }
  repeat (apply elem_of_cons in Hin as [->|Hin]; [done|]).
  by apply elem_of_nil in Hin.
Qed.

Lemma string_of_uint_digits d :
  Forall (fun c => (48 <= c <= 57)%N) (lit (NilEmpty.string_of_uint d)).
Proof.
  induction d as [|d IH|d IH|d IH|d IH|d IH|d IH|d IH|d IH|d IH|d IH];
    [constructor|..]; (constructor; [by vm_compute | exact IH]).
Qed.

Lemma string_of_uint_nonempty d :
  lit (NilZero.string_of_uint d) ≠ []
  ∧ Forall (fun c => (48 <= c <= 57)%N) (lit (NilZero.string_of_uint d)).
Proof.
  destruct d; (split; [done|]); try apply (string_of_uint_digits (_ _)).
  constructor; [by vm_compute | constructor].
Qed.

Lemma str_of_int_digits i :
  str_of_int (Z.of_nat i + 1) ≠ []
  ∧ Forall (fun c => (48 <= c <= 57)%N) (str_of_int (Z.of_nat i + 1)).
Proof.
  assert (Z.of_nat i + 1 = Z.pos (Pos.of_succ_nat i))%Z as -> by lia.
  unfold str_of_int.
  change (Z.to_int (Z.pos (Pos.of_succ_nat i)))
    with (Decimal.Pos (Pos.to_uint (Pos.of_succ_nat i))).
  apply string_of_uint_nonempty.
Qed.

Lemma numbered_plain name i : plain name = true → plain (numbered name i) = true.
Proof.
  intros (Hn & Hcomma & Hl & Hen & Hrn)%plain_inv.
  destruct (str_of_int_digits i) as [Hne Hdigits]. unfold numbered.
  rewrite Forall_forall in Hdigits.
  apply plain_intro.
  - by destruct name.
  - rewrite !elem_of_app. intros [?|[Hs|Hd]]; [done| |].
    + apply elem_of_cons in Hs as [?|Hs]; [done|]. by apply elem_of_nil in Hs.
    + by destruct (digit_facts _ (Hdigits _ Hd)).
  - rewrite !forallb_app, Hl. simpl. apply forallb_forall.
    intros c Hc%list_elem_of_In.
    destruct (digit_facts _ (Hdigits _ Hc)) as (_ & -> & _). done.
  - by apply edge_app.
  - rewrite !rev_app_distr, <- app_assoc.
    destruct (rev (str_of_int (Z.of_nat i + 1))) as [|d r] eqn:Hr.
    { destruct (str_of_int (Z.of_nat i + 1)) as [|? digits]; [done|].
      simpl in Hr. by destruct (rev digits). }
    simpl. assert (d ∈ str_of_int (Z.of_nat i + 1)) as Hd.
    { apply list_elem_of_In, in_rev. rewrite Hr. by left. }
    destruct (digit_facts _ (Hdigits _ Hd)) as (_ & _ & ->). done.
Qed.

Section ReadBack.
Variable env : Env.

Lemma reads_numbered category (label : nat → str) items : ∀ (start : nat) url_infos,
  (∀ i, plain (label i) = true) →
  forallb (fun item => plain_link env (e_url item)) items = true →
  reads env
    (concat (imap (fun i item => channel_line (label (start + i)%nat) (e_url item)) items))
    (category, url_infos)
    (category,
     url_infos ++ imap (fun i item => {| ui_name := Some (label (start + i)%nat);
                                         ui_url := e_url item;
                                         ui_category := Some category |}) items).
Proof.
  induction items as [|item items IH]; intros start url_infos Hlabel Hitems.
  - simpl. rewrite app_nil_r. apply reads_refl.
  - simpl in Hitems. apply andb_true_iff in Hitems as [Hitem Hitems].
    rewrite !imap_cons. simpl concat.
    eapply reads_trans; [by apply reads_channel|].
    rewrite Nat.add_0_r.
    assert (∀ (A : Type) (f : nat → Entry → A),
              imap ((fun i item => f (start + i)%nat item) ∘ S) items
              = imap (fun i item => f (S start + i)%nat item) items) as Hshift.
    { intros A f. apply imap_ext. intros i x _. simpl. f_equal. lia. }
    rewrite (Hshift _ (fun k item => channel_line (label k) (e_url item))).
    rewrite (Hshift _ (fun k item => {| ui_name := Some (label k);
                                        ui_url := e_url item;
                                        ui_category := Some category |})).
    match goal with
    | |- reads _ _ _ (_, ?u ++ ?x :: ?l) =>
        replace (u ++ x :: l) with ((u ++ [x]) ++ l) by (by rewrite <- app_assoc)
    end.
    by apply IH.
Qed.

Lemma reads_items category name items url_infos :
  plain name = true →
  forallb (fun item => plain_link env (e_url item)) items = true →
  reads env (write_items name items) (category, url_infos)
    (category, url_infos ++ listed_as category name items).
Proof.
  intros Hname Hitems.
  pose proof (reads_numbered category (numbered name) items 0 url_infos
                (fun i => numbered_plain name i Hname) Hitems) as Hnum.
  unfold write_items, listed_as.
  destruct items as [|item [|item' items]]; [exact Hnum | | exact Hnum].
  simpl in Hitems. rewrite andb_true_r in Hitems. by apply reads_channel.
Qed.

Lemma reads_names category names : ∀ url_infos,
  forallb (fun name : str * list Entry =>
             plain name.1
             && forallb (fun item => plain_link env (e_url item)) name.2) names = true →
  reads env (write_names names) (category, url_infos)
    (category,
     url_infos ++ (names ≫= fun name => listed_as category name.1 name.2)).
Proof.
  induction names as [|[name items] names IH]; intros url_infos Hnames.
  - simpl. rewrite app_nil_r. apply reads_refl.
  - simpl in Hnames. apply andb_true_iff in Hnames as [Hname Hnames].
    apply andb_true_iff in Hname as [Hname Hitems].
    unfold write_names. rewrite fmap_cons, bind_cons. simpl concat.
    eapply reads_trans; [by apply reads_items|].
    rewrite app_assoc. by apply IH.
Qed.

Lemma reads_category category names current url_infos :
  plain category = true →
  forallb (fun name : str * list Entry =>
             plain name.1
             && forallb (fun item => plain_link env (e_url item)) name.2) names = true →
  reads env (write_category category names) (current, url_infos)
    (category,
     url_infos ++ (names ≫= fun name => listed_as category name.1 name.2)).
Proof.
  intros Hcategory Hnames. unfold write_category.
  pose proof (plain_inv _ Hcategory) as (Hne & _ & Hl & _).
  assert (truthy category = true) as -> by (by destruct category).
  eapply reads_trans.
  { rewrite app_assoc. apply reads_line. by rewrite forallb_app, Hl. }
  rewrite (text_line_genre env category (current, url_infos) Hcategory).
  change ((current, url_infos).2) with url_infos.
  eapply reads_trans; [by apply reads_names|].
  apply (reads_line env [] (category, _)). done.
Qed.

Lemma reads_categories categories : ∀ current url_infos,
  readable env categories = true →
  ∃ last,
    reads env (write_categories categories) (current, url_infos)
      (last, url_infos ++ read_back categories).
Proof.
  induction categories as [|[category names] categories IH];
    intros current url_infos Hreadable.
  - exists current. simpl. rewrite app_nil_r. apply reads_refl.
  - simpl in Hreadable. apply andb_true_iff in Hreadable as [Hcat Hreadable].
    apply andb_true_iff in Hcat as [Hcategory Hnames].
    destruct (IH category
                (url_infos ++ (names ≫= fun name => listed_as category name.1 name.2))
                Hreadable) as [last Hrest].
    exists last. unfold write_categories, read_back.
    rewrite fmap_cons, bind_cons. simpl concat. rewrite app_assoc.
    eapply reads_trans; [by apply reads_category | exact Hrest].
Qed.
End ReadBack.

(** X23.  The text parser reads back the lists of channels the checker
    writes: when every category and name is not empty and has no comma,
    no line boundary and no white space at its ends, and every URL
    starts with http:// or https://, has no '#' and no line boundary,
    does not end in white space and does not mention jar,
    [_extract_urls_from_text] on the text of the genre lines, channel
    lines and empty lines gives one record per channel line, in the
    order of the lines, with the name written (numbered when a name has
    several URLs), the URL and the category of the genre line above
    it. *)
Theorem written_list_reads_back (env : Env)
    (categories : list (str * list (str * list Entry)))
    (url_infos : list url_info) (default_source : str) :
  readable env categories = true →
  _extract_urls_from_text env (write_categories categories) url_infos default_source
  = url_infos ++ read_back categories.
Proof.
  intros Hreadable.
  destruct (reads_categories env categories default_source url_infos Hreadable)
    as [last Hreads].
  unfold _extract_urls_from_text. specialize (Hreads []).
  rewrite app_nil_r in Hreads. by rewrite Hreads.
Qed.

Lemma written_list_reads_back_witness :
  ui_name <$> _extract_urls_from_text (Script.env Script.offline)
                (write_categories Guide.categories) [] (lit "final.txt")
  = [Some (lit "Film"); Some (lit "CCTV1"); Some (lit "CCTV2 1"); Some (lit "CCTV2 2")].
Proof.
  rewrite (written_list_reads_back (Script.env Script.offline) Guide.categories []
             (lit "final.txt")); reflexivity.
Defined.

(** X24.  In an M3U playlist the tvg-name attribute of an EXTINF line
    names the URL on the line after it, whatever title follows the comma:
    the first record [_extract_urls_from_m3u] adds for such a pair of
    lines has the stripped value of the attribute as its name and the
    URL, cut at the first '#', as its URL. *)
Theorem m3u_tvg_name_wins (extinf url_line rest value : str)
    (url_infos : list url_info) :
  forallb (fun c => negb (is_linebreak c)) extinf = true →
  forallb (fun c => negb (is_linebreak c)) url_line = true →
  startswith (strip extinf) (lit "#EXTINF:") = true →
  search_tvg_name (strip extinf) = Some value →
  strip value ≠ [] →
  starts_http (strip url_line) = true →
  ∃ more,
    _extract_urls_from_m3u (extinf ++ [0x0A] ++ url_line ++ [0x0A] ++ rest) url_infos
    = url_infos
      ++ {| ui_name := Some (strip value);
            ui_url := cut_fragment (strip url_line);
            ui_category := None |} :: more.
Proof.
  intros Hl1 Hl2 Hext Htvg Hvalue Hurl.
  unfold _extract_urls_from_m3u. simpl app.
  rewrite (splitlines_line extinf _ Hl1), (splitlines_line url_line _ Hl2).
  simpl foldl.
  assert (m3u_line (None, url_infos) extinf = (Some (strip value), url_infos)) as ->.
  { unfold m3u_line. rewrite Hext, Htvg.
    destruct (strip extinf); [done|]. done. }
  assert (m3u_line (Some (strip value), url_infos) url_line
          = (None, url_infos ++ [{| ui_name := Some (strip value);
                                    ui_url := cut_fragment (strip url_line);
                                    ui_category := None |}])) as ->.
  { unfold m3u_line. rewrite Hurl.
    destruct (starts_http_inv _ Hurl) as [t Ht].
    assert (truthy (strip url_line) = true) as ->
      by (by destruct Ht as [-> | ->]).
    assert (startswith (strip url_line) (lit "#EXTINF:") = false) as ->
      by (by destruct Ht as [-> | ->]).
    simpl. by destruct (strip value). }
  destruct (m3u_lines_appended (splitlines rest)
              (None, url_infos ++ [{| ui_name := Some (strip value);
                                      ui_url := cut_fragment (strip url_line);
                                      ui_category := None |}]))
    as (more & Hmore & _).
  exists more. rewrite Hmore. simpl. by rewrite <- app_assoc.
Qed.

Lemma m3u_tvg_name_wins_witness :
  ∃ more,
    _extract_urls_from_m3u
      (Guide.extinf ++ [0x0A] ++ lit "http://a.example/1#x" ++ [0x0A] ++ []) []
    = {| ui_name := Some (lit "One"); ui_url := lit "http://a.example/1";
         ui_category := None |} :: more.
Proof.
  pose proof (m3u_tvg_name_wins Guide.extinf (lit "http://a.example/1#x") []
                (lit "One") []) as H.
  destruct H as [more Hrun];
    [reflexivity | reflexivity | reflexivity | reflexivity | done | reflexivity |].
  exists more. exact Hrun.
Defined.
